(** * camproxy: the reference codec, the smart fetch engine, the streaming
    response writer, the upload ingestor and the paranoid archiver.

    Shallow embedding of [camutil] (downloader side) and of [main.go].
    Go strings are [string]s, byte slices are [list ascii], Go [int]s that
    serve as lengths and indices are [nat], signed 64-bit values are [Z].
    Functions of the Go standard library and of camlistore that the code
    calls are modelled next to their callers and named [pkg_Function]. *)

From Stdlib Require Import ZArith NArith String Ascii Bool Arith Lia List.
Import ListNotations.

Local Open Scope string_scope.
Local Open Scope nat_scope.
Local Open Scope list_scope.

(** ** Errors and results *)

(** A Go [error] value.  [io_EOF] is the sentinel the code compares with;
    [EnvError] is an error reported by the operating system or by a
    library; [Errorf] is [fmt.Errorf(format, args...)] over strings and
    [Wrapf] the same with an error as its last argument, the arguments kept
    unformatted. *)
Inductive error : Type :=
| io_EOF
| EnvError (msg : string)
| Errorf (format : string) (args : list string)
| Wrapf (format : string) (args : list string) (cause : error).

Definition is_EOF (e : error) : bool :=
  match e with io_EOF => true | _ => false end.

(** A call either returns a value, returns a non-nil error, or panics
    (index or slice bound out of range). *)
Inductive result (A : Type) : Type :=
| Val (a : A)
| Fail (e : error)
| Panic.
Arguments Val {A} a.
Arguments Fail {A} e.
Arguments Panic {A}.

(** ** Bytes *)

Definition bytes := list ascii.

Definition zeroByte : ascii := ascii_of_N 0.

(** [byte(x)]: conversion of an unsigned integer to a byte keeps the low
    eight bits. *)
Definition byte_of (x : N) : ascii := ascii_of_N (N.land x 255).

(** [bytes.IndexByte]; [None] is Go's -1. *)
Fixpoint bytes_IndexByte (s : bytes) (c : ascii) : option nat :=
  match s with
  | [] => None
  | x :: s' =>
      if Ascii.eqb x c then Some 0
      else match bytes_IndexByte s' c with
           | Some i => Some (S i)
           | None => None
           end
  end.

Definition lowerByte (c : ascii) : ascii :=
  let n := N_of_ascii c in
  if ((65 <=? n) && (n <=? 90))%N then ascii_of_N (n + 32) else c.

(** [bytes.ToLower] on ASCII text. *)
Definition bytes_ToLower (s : bytes) : bytes := map lowerByte s.

(** ** encoding/hex *)

Definition hextable : bytes := list_ascii_of_string "0123456789abcdef".

Definition hexdigit (v : N) : ascii := nth (N.to_nat v) hextable zeroByte.

Definition hex_byte (c : ascii) : bytes :=
  let v := N_of_ascii c in
  [hexdigit (N.shiftr v 4); hexdigit (N.land v 15)].

Definition hex_EncodeToString (src : bytes) : bytes := flat_map hex_byte src.

(** [hex.Encode(dst, src)] writes [2*len(src)] bytes at the start of [dst]
    and returns that count; it panics when [dst] is too short. *)
Definition hex_Encode (dst src : bytes) : result (bytes * nat) :=
  let n := 2 * length src in
  if n <=? length dst
  then Val (hex_EncodeToString src ++ skipn n dst, n)
  else Panic.

(** ** encoding/base64, [URLEncoding] (URL-safe alphabet, padded) *)

Definition encodeURL : bytes :=
  list_ascii_of_string
    "ABCDEFGHIJKLMNOPQRSTUVWXYZabcdefghijklmnopqrstuvwxyz0123456789-_".

Definition padChar : ascii := "="%char.

Definition b64char (v : N) : ascii := nth (N.to_nat v) encodeURL zeroByte.

(** The decode map: the six-bit value of an alphabet character. *)
Definition b64val (c : ascii) : option N :=
  let n := N_of_ascii c in
  if ((65 <=? n) && (n <=? 90))%N then Some (n - 65)%N
  else if ((97 <=? n) && (n <=? 122))%N then Some (n - 71)%N
  else if ((48 <=? n) && (n <=? 57))%N then Some (n + 4)%N
  else if (n =? 45)%N then Some 62%N
  else if (n =? 95)%N then Some 63%N
  else None.

Definition quantum3 (a b c : ascii) : N :=
  N.lor (N.lor (N.shiftl (N_of_ascii a) 16) (N.shiftl (N_of_ascii b) 8))
        (N_of_ascii c).

Definition sextet (val : N) (shift : N) : ascii :=
  b64char (N.land (N.shiftr val shift) 63).

Fixpoint base64_EncodeToString (src : bytes) : bytes :=
  match src with
  | [] => []
  | [a] =>
      let val := quantum3 a zeroByte zeroByte in
      [sextet val 18; sextet val 12; padChar; padChar]
  | [a; b] =>
      let val := quantum3 a b zeroByte in
      [sextet val 18; sextet val 12; sextet val 6; padChar]
  | a :: b :: c :: rest =>
      let val := quantum3 a b c in
      sextet val 18 :: sextet val 12 :: sextet val 6 :: sextet val 0
        :: base64_EncodeToString rest
  end.

Definition quantum4 (v1 v2 v3 v4 : N) : N :=
  N.lor (N.lor (N.lor (N.shiftl v1 18) (N.shiftl v2 12)) (N.shiftl v3 6)) v4.

Definition isNewline (c : ascii) : bool :=
  let n := N_of_ascii c in ((n =? 10) || (n =? 13))%N.

(** Decoding of input without line breaks.  A padded quantum must be the
    last one; anything else is [CorruptInputError]. *)
Fixpoint decodeQuanta (src : bytes) : option bytes :=
  match src with
  | [] => Some []
  | c1 :: c2 :: c3 :: c4 :: rest =>
      match b64val c1, b64val c2 with
      | Some v1, Some v2 =>
          match b64val c3, b64val c4 with
          | Some v3, Some v4 =>
              let val := quantum4 v1 v2 v3 v4 in
              match decodeQuanta rest with
              | Some out =>
                  Some (byte_of (N.shiftr val 16) :: byte_of (N.shiftr val 8)
                          :: byte_of val :: out)
              | None => None
              end
          | Some v3, None =>
              if Ascii.eqb c4 padChar && (length rest =? 0)
              then let val := quantum4 v1 v2 v3 0 in
                   Some [byte_of (N.shiftr val 16); byte_of (N.shiftr val 8)]
              else None
          | None, _ =>
              if Ascii.eqb c3 padChar && Ascii.eqb c4 padChar
                 && (length rest =? 0)
              then let val := quantum4 v1 v2 0 0 in
                   Some [byte_of (N.shiftr val 16)]
              else None
          end
      | _, _ => None
      end
  | _ => None
  end.

(** [base64.URLEncoding.Decode(dst, src)]: carriage returns and line feeds
    are skipped; the decoded bytes are written from the start of [dst],
    which panics when [dst] is too short for them. *)
Definition base64_Decode (dstLen : nat) (src : bytes)
  : result (bytes * nat) :=
  match decodeQuanta (filter (fun c => negb (isNewline c)) src) with
  | None => Fail (EnvError "illegal base64 data")
  | Some out =>
      if length out <=? dstLen then Val (out, length out) else Panic
  end.

(** ** camlistore's [blob.Ref] *)

(** A reference is a hash-algorithm tag and the raw digest bytes.  The zero
    [blob.Ref] is the invalid reference, [None] here. *)
Record digest : Type := mkDigest { hashName : string; sum : bytes }.

Definition Ref := option digest.

Definition Ref_Valid (br : Ref) : bool :=
  match br with Some _ => true | None => false end.

(** [br.String()]: the canonical text [<algo>-<hexdigest>]. *)
Definition Ref_String (br : Ref) : string :=
  match br with
  | Some d =>
      (hashName d ++ "-" ++ string_of_list_ascii (hex_EncodeToString (sum d)))%string
  | None => "<invalid-blob.Ref>"
  end.

(** The value of one lower-case hexadecimal digit. *)
Definition hexVal (c : ascii) : option N :=
  let n := N_of_ascii c in
  if ((48 <=? n) && (n <=? 57))%N then Some (n - 48)%N
  else if ((97 <=? n) && (n <=? 102))%N then Some (n - 97 + 10)%N
  else None.

Fixpoint hexDecode (s : bytes) : option bytes :=
  match s with
  | [] => Some []
  | h :: l :: rest =>
      match hexVal h, hexVal l, hexDecode rest with
      | Some a, Some b, Some out =>
          Some (byte_of (N.lor (N.shiftl a 4) b) :: out)
      | _, _, _ => None
      end
  | _ => None
  end.

Section Codec.

(** The table of hash algorithms registered with camlistore's [blob]
    package: the digest size in bytes of each known tag. *)
Variable hashSize : string -> option nat.

(** The capacity the Go runtime gives to the slice made by
    [[]byte(s)] for a string of the given length. *)
Variable sliceCap : nat -> nat.

(** [blob.Parse]: the text up to the first ['-'] names the algorithm, the
    rest must be the lower-case hexadecimal digest of that algorithm's
    size. *)
Definition blob_Parse (s : string) : Ref :=
  let t := list_ascii_of_string s in
  match bytes_IndexByte t "-"%char with
  | None => None
  | Some i =>
      let name := string_of_list_ascii (firstn i t) in
      let hex := skipn (i + 1) t in
      match hashSize name with
      | None => None
      | Some size =>
          if length hex =? 2 * size
          then match hexDecode hex with
               | Some d => Some (mkDigest name d)
               | None => None
               end
          else None
      end
  end.

(** Modelled from the spec: [camutil.RefToBase64] is called by [main.go]
    but is not among the sources.  The spec has it base64-encode the raw
    digest bytes of the reference, the short form being
    [<algo>-<base64 digest, URL-safe>]. *)
Definition RefToBase64 (br : Ref) : string :=
  match br with
  | Some d =>
      (hashName d ++ "-"
         ++ string_of_list_ascii (base64_EncodeToString (sum d)))%string
  | None => ""
  end.

(** [Base64ToRef] decodes a base64-encoded blobref. *)
Definition Base64ToRef (arg : string) : result Ref :=
  let b_cap := 64 in                         (* b := make([]byte, 64) *)
  let t_cap := 2 * b_cap in                  (* t := make([]byte, 2*len(b)) *)
  let i := String.length arg in
  let i := if t_cap <? i then t_cap else i in
  let t := firstn i (list_ascii_of_string arg) in   (* t = []byte(arg[:i]) *)
  let t_cap := sliceCap (length t) in
  match bytes_IndexByte t "-"%char with
  | None => Fail (Errorf "no - in %q" [arg])
  | Some i =>
      match base64_Decode b_cap (skipn (i + 1) t) with
      | Panic => Panic
      | Fail e =>
          Fail (Wrapf "cannot decode %q as base64: %s"
                      [string_of_list_ascii (skipn (i + 1) t)] e)
      | Val (b, n) =>
          (* copy(t[:i], bytes.ToLower(t[:i])) *)
          let t := bytes_ToLower (firstn i t) ++ skipn i t in
          (* t = t[:cap(t)] *)
          let t := t ++ repeat zeroByte (t_cap - length t) in
          let n := (2 * Z.of_nat (length b) - Z.of_nat (length t)
                    + Z.of_nat n + 1)%Z in
          let t := if (0 <? n)%Z
                   then t ++ repeat zeroByte (Z.to_nat n) else t in
          match hex_Encode (skipn (i + 1) t) b with
          | Val (dst, n) =>
              let t := firstn (i + 1) t ++ dst in
              let arg := string_of_list_ascii (firstn (i + 1 + n) t) in
              match blob_Parse arg with
              | Some d => Val (Some d)
              | None => Fail (Errorf "cannot parse %q as blobref" [arg])
              end
          | _ => Panic
          end
      end
  end.

(** [ParseBlobNames] parses the blob names, appending to [items]; it
    uses [blob.Parse] and falls back to the base64 form. *)
Fixpoint ParseBlobNames (items : list Ref) (names : list string)
  : result (list Ref) :=
  match names with
  | [] => Val items
  | arg :: names' =>
      match blob_Parse arg with
      | Some d => ParseBlobNames (items ++ [Some d]) names'
      | None =>
          match Base64ToRef arg with
          | Val br => ParseBlobNames (items ++ [br]) names'
          | Fail e => Fail e
          | Panic => Panic
          end
      end
  end.

End Codec.

(** The table with the one algorithm the spec names: SHA-1, 20 bytes. *)
Definition sha1Table (name : string) : option nat :=
  if String.eqb name "sha1" then Some 20 else None.

(** What [Base64ToRef]'s fixed buffers ask of a registered algorithm: a
    lower-case tag no longer than the digest, a digest that fits the
    64-byte decode buffer, and a short form within the 128 bytes read. *)
Definition tagFits (name : string) (size : nat) : Prop :=
  bytes_ToLower (list_ascii_of_string name) = list_ascii_of_string name
  /\ String.length name <= size
  /\ size <= 64
  /\ String.length name + 1 + 4 * ((size + 2) / 3) <= 128.

(** ** path/filepath (Unix) *)

Definition slash : ascii := "/"%char.

(** Split at every ['/']; the pieces between consecutive slashes are
    empty. *)
Fixpoint splitSlash (cur : bytes) (s : bytes) : list bytes :=
  match s with
  | [] => [cur]
  | c :: s' =>
      if Ascii.eqb c slash then cur :: splitSlash [] s'
      else splitSlash (cur ++ [c]) s'
  end.

Definition isDot (e : bytes) : bool :=
  match e with ["."%char] => true | _ => false end.

Definition isDotDot (e : bytes) : bool :=
  match e with ["."%char; "."%char] => true | _ => false end.

(** The element loop of [Clean]: [out] holds the elements kept so far, the
    last one first. *)
Fixpoint cleanElems (rooted : bool) (out : list bytes) (elems : list bytes)
  : list bytes :=
  match elems with
  | [] => out
  | e :: elems' =>
      if (length e =? 0) || isDot e then cleanElems rooted out elems'
      else if isDotDot e then
        match out with
        | top :: out' =>
            if isDotDot top
            then cleanElems rooted (e :: out) elems'   (* cannot back up *)
            else cleanElems rooted out' elems'         (* back up *)
        | [] =>
            if rooted then cleanElems rooted out elems'
            else cleanElems rooted [e] elems'
        end
      else cleanElems rooted (e :: out) elems'
  end.

Fixpoint joinSlash (elems : list bytes) : bytes :=
  match elems with
  | [] => []
  | [e] => e
  | e :: elems' => e ++ slash :: joinSlash elems'
  end.

(** [filepath.Clean]: the shortest path name equivalent to [path] by
    purely lexical processing. *)
Definition filepath_Clean (path : string) : string :=
  let p := list_ascii_of_string path in
  match p with
  | [] => "."
  | c :: _ =>
      let rooted := Ascii.eqb c slash in
      let out := rev (cleanElems rooted [] (splitSlash [] p)) in
      let body := joinSlash out in
      if rooted then string_of_list_ascii (slash :: body)
      else match body with
           | [] => "."
           | _ => string_of_list_ascii body
           end
  end.

Fixpoint stringsJoin (elems : list string) (sep : string) : string :=
  match elems with
  | [] => ""
  | [e] => e
  | e :: elems' => (e ++ sep ++ stringsJoin elems' sep)%string
  end.

(** [filepath.Join]: leading empty elements are ignored, the rest is
    joined with slashes and cleaned. *)
Fixpoint filepath_Join (elem : list string) : string :=
  match elem with
  | [] => ""
  | e :: elem' =>
      if String.eqb e "" then filepath_Join elem'
      else filepath_Clean (stringsJoin elem "/")
  end.

Fixpoint stripTrailingSlashes (r : bytes) : bytes :=   (* on the reversed path *)
  match r with
  | c :: r' => if Ascii.eqb c slash then stripTrailingSlashes r' else r
  | [] => []
  end.

Fixpoint lastElemRev (r : bytes) : bytes :=            (* on the reversed path *)
  match r with
  | c :: r' => if Ascii.eqb c slash then [] else c :: lastElemRev r'
  | [] => []
  end.

(** [filepath.Base]: the last element of [path]. *)
Definition filepath_Base (path : string) : string :=
  match list_ascii_of_string path with
  | [] => "."
  | p =>
      match rev (lastElemRev (stripTrailingSlashes (rev p))) with
      | [] => "/"
      | e => string_of_list_ascii e
      end
  end.

(** ** time and strconv *)

(** A [time.Time] as an instant: seconds since the Unix epoch and
    nanoseconds within the second.  The location plays no part in what
    follows. *)
Record Time : Type := mkTime { unixSec : Z; nanos : Z }.

(** The zero [Time], January 1 of year 1, 00:00:00 UTC. *)
Definition zeroTime : Time := mkTime (-62135596800) 0.

Definition Time_IsZero (t : Time) : bool :=
  (unixSec t =? -62135596800)%Z && (nanos t =? 0)%Z.

Definition time_Unix (sec nsec : Z) : Time := mkTime sec nsec.

Definition time_RFC1123 : string := "Mon, 02 Jan 2006 15:04:05 MST".
Definition time_UnixDate : string := "Mon Jan _2 15:04:05 MST 2006".
Definition time_RFC3339 : string := "2006-01-02T15:04:05Z07:00".

Definition digitVal (c : ascii) : option Z :=
  let n := N_of_ascii c in
  if ((48 <=? n) && (n <=? 57))%N then Some (Z.of_N n - 48)%Z else None.

Fixpoint parseDigits (acc : Z) (s : bytes) : option Z :=
  match s with
  | [] => Some acc
  | c :: s' =>
      match digitVal c with
      | Some d => parseDigits (acc * 10 + d)%Z s'
      | None => None
      end
  end.

(** [strconv.ParseInt(s, 10, 64)]; [None] is a non-nil error (syntax or
    range). *)
Definition strconv_ParseInt (s : string) : option Z :=
  let digits (neg : bool) (ds : bytes) :=
    match ds with
    | [] => None
    | _ =>
        match parseDigits 0 ds with
        | Some un =>
            let v := if neg then (- un)%Z else un in
            if ((- 2 ^ 63 <=? v) && (v <? 2 ^ 63))%Z then Some v else None
        | None => None
        end
    end in
  match list_ascii_of_string s with
  | [] => None
  | c :: rest =>
      if Ascii.eqb c "+"%char then digits false rest
      else if Ascii.eqb c "-"%char then digits true rest
      else digits false (c :: rest)
  end.

(** [time.Parse] cut down to the header of the spec's example, read in a
    location where MST is seven hours behind UTC; anything else is
    refused. *)
Definition exampleParse (layout value : string) : option Time :=
  if String.eqb layout "Mon, 02 Jan 2006 15:04:05 MST"
     && String.eqb value "Mon, 02 Jan 2006 15:04:05 MST"
  then Some (mkTime 1136239445 0) else None.

Section ModTime.

(** [time.Parse(layout, value)]; [None] is a non-nil error, with which
    [time.Parse] returns the zero [Time]. *)
Variable time_Parse : string -> string -> option Time.

Fixpoint timeParse_loop (ok : bool) (patterns : list string) (t : Time)
         (text : string) : Time * bool :=
  match patterns with
  | [] => (t, false)
  | pattern :: patterns' =>
      match time_Parse pattern text with
      | Some t' => (t', ok)                     (* return t, ok *)
      | None => timeParse_loop ok patterns' zeroTime text
      end
  end.

Definition timeParse (text : string) : Time * bool :=
  let t := zeroTime in
  let ok := false in                            (* var ok bool *)
  timeParse_loop ok [time_RFC1123; time_UnixDate; time_RFC3339] t text.

Definition parseLastModified (lastModHeader mtimeHeader : string) : Time :=
  let lastmod := zeroTime in
  let '(lastmod, ok) :=
    if negb (String.eqb lastModHeader "") then timeParse lastModHeader
    else (lastmod, false) in
  if ok then lastmod
  else if String.eqb mtimeHeader "" then lastmod
  else if 23 <=? String.length mtimeHeader then
    let '(lastmod, ok) := timeParse mtimeHeader in
    if ok then lastmod else lastmod
  else match strconv_ParseInt mtimeHeader with
       | None => lastmod
       | Some qmt => time_Unix qmt 0
       end.

End ModTime.

(** ** Files written on behalf of a request *)

(** The file-system calls that changed the disk, in the order made. *)
Inductive fsop : Type :=
| OpMkdirAll (dir : string) (mode : nat)
| OpCreate (name : string)
| OpWrite (name : string) (content : bytes)
| OpChmod (name : string) (mode : nat)
| OpChtimes (name : string) (mtime : Time).

(** ** The streaming download pipeline: [respWriter] *)

(** The calls made on the wrapped [http.ResponseWriter]. *)
Inductive rwCall : Type :=
| HeaderAdd (key value : string)
| WriteHeader (code : nat)
| BodyWrite (p : bytes).

(** Modelled from the spec: [camutil.MimeCache] is used by [main.go] but is
    not among the sources.  Its contract is [get(key)], the mime type or
    the empty string, and [set(key, mimeType)], last write wins. *)
Definition MimeCache := string -> string.

Definition MimeCache_Get (c : MimeCache) (key : string) : string := c key.

Definition MimeCache_Set (c : MimeCache) (key mime : string) : MimeCache :=
  fun k => if String.eqb k key then mime else c k.

Record respWriter : Type := mkRespWriter {
  w_calls : list rwCall;       (* the embedded ResponseWriter, as its call log *)
  w_name : string;
  w_okMime : string;
  w_headerWritten : bool;
  w_buf : bytes
}.

Definition mimeUnknown (okMime : string) : bool :=
  String.eqb okMime "" || String.eqb okMime "application/octet-stream".

Section RespWriter.

(** [camutil.MatchMime], the content sniffer; not among the sources. *)
Variable MatchMime : string -> bytes -> string.

Definition newRespWriter (cache : MimeCache) (w : list rwCall)
           (name okMime : string) : respWriter :=
  let okMime :=
    if negb (String.eqb name "") && mimeUnknown okMime then
      let m := MimeCache_Get cache name in
      if negb (String.eqb m "") then m else okMime
    else okMime in
  mkRespWriter w name okMime false [].

(** [w.ResponseWriter.Write(p)], the wrapped writer: the count and the
    error it returns for [p] after the calls made on it so far. *)
Variable w_Write : list rwCall -> bytes -> Z * option error.

(** The call is logged; the answer is the wrapped writer's. *)
Definition underlyingWrite (calls : list rwCall) (p : bytes)
  : list rwCall * (Z * option error) :=
  (calls ++ [BodyWrite p], w_Write calls p).

(** [Write], from the point where the headers go out. *)
Definition writeThrough (w : respWriter) (cache : MimeCache)
           (okMime : string) (i : nat) (p buf : bytes)
  : respWriter * MimeCache * (Z * option error) :=
  let calls := w_calls w in
  let calls :=
    if negb (String.eqb okMime "")
    then calls ++ [HeaderAdd "Content-Type" okMime] else calls in
  let calls := calls ++ [WriteHeader 200] in
  let '(calls, r) := underlyingWrite calls p in
  (* return n - i, err *)
  (mkRespWriter calls (w_name w) okMime true buf, cache,
   ((fst r - Z.of_nat i)%Z, snd r)).

Definition respWriter_Write (w : respWriter) (cache : MimeCache) (p : bytes)
  : respWriter * MimeCache * (Z * option error) :=
  if negb (w_headerWritten w) then
    if mimeUnknown (w_okMime w) then
      let i := length (w_buf w) in
      let buf := w_buf w ++ p in
      if length buf <? 1024 then
        (mkRespWriter (w_calls w) (w_name w) (w_okMime w) false buf, cache,
         (Z.of_nat (length p), None))
      else
        let okMime := MatchMime (w_okMime w) buf in
        let cache :=
          if negb (String.eqb (w_name w) "") && negb (String.eqb okMime "")
          then MimeCache_Set cache (w_name w) okMime else cache in
        (* p, w.buf = w.buf, nil *)
        writeThrough w cache okMime i buf []
    else writeThrough w cache (w_okMime w) 0 p (w_buf w)
  else
    let '(calls, r) := underlyingWrite (w_calls w) p in
    (mkRespWriter calls (w_name w) (w_okMime w) true (w_buf w), cache,
     ((fst r - 0)%Z, snd r)).

Definition respWriter_Close (w : respWriter) : respWriter * option error :=
  if 0 <? length (w_buf w) then
    let '(calls, r) := underlyingWrite (w_calls w) (w_buf w) in
    (mkRespWriter calls (w_name w) (w_okMime w) (w_headerWritten w)
                  (w_buf w), snd r)
  else (w, None).

(** The stream written to the [respWriter] in the given chunks, one
    [Write] after the other whatever each of them returns, then
    [Close]. *)
Fixpoint writeAll (w : respWriter) (cache : MimeCache) (chunks : list bytes)
  : respWriter * MimeCache :=
  match chunks with
  | [] => (w, cache)
  | p :: chunks' =>
      let '(w, cache, _) := respWriter_Write w cache p in
      writeAll w cache chunks'
  end.

Definition stream (cache : MimeCache) (name okMime : string)
           (chunks : list bytes) : list rwCall :=
  let w := newRespWriter cache [] name okMime in
  let '(w, _) := writeAll w cache chunks in
  w_calls (fst (respWriter_Close w)).

End RespWriter.

(** The body bytes the wrapped writer received, in order. *)
Fixpoint delivered (calls : list rwCall) : bytes :=
  match calls with
  | [] => []
  | BodyWrite p :: calls' => p ++ delivered calls'
  | _ :: calls' => delivered calls'
  end.

(** The number of [WriteHeader] calls made on the wrapped writer. *)
Fixpoint headerCalls (calls : list rwCall) : nat :=
  match calls with
  | [] => 0
  | WriteHeader _ :: calls' => S (headerCalls calls')
  | _ :: calls' => headerCalls calls'
  end.

(** ** The paranoid archiver *)

Definition getParanoidPath (flagParanoid : string) (br : Ref) : result string :=
  if String.eqb flagParanoid "" || negb (Ref_Valid br) then Val ""
  else
    let txt := list_ascii_of_string (Ref_String br) in
    (* the first i with txt[i] == '-' *)
    match bytes_IndexByte txt "-"%char with
    | Some i =>
        let hsh := skipn (i + 1) txt in
        if 6 <=? length hsh then
          Val (filepath_Join
                 [flagParanoid;
                  string_of_list_ascii (firstn 3 hsh);
                  string_of_list_ascii (firstn 3 (skipn 3 hsh));
                  (Ref_String br ++ ".dat")%string])
        else Panic                       (* hsh[:3] or hsh[3:6] out of range *)
    | None => Val ""
    end.

(** ** The upload ingestor *)

(** One part of a multipart body as [saveMultipartTo] meets it: its
    disposition, the two headers read, its content, the error (if any) that
    ends the reading of its content instead of a clean end, and the error
    (if any) of [os.Create] on its target file. *)
Record Part : Type := mkPart {
  p_FileName : string;
  p_FormName : string;
  p_ContentType : string;
  p_LastModified : string;
  p_body : bytes;
  p_readErr : option error;
  p_createErr : option error
}.

(** A [multipart.Reader]: [NextPart] hands out [mr_parts] one by one and
    then fails with [mr_nextErr], which is [io.EOF] after a well-formed
    body. *)
Record multipartReader : Type := mkReader {
  mr_parts : list Part;
  mr_nextErr : error
}.

(** A part with a file name, the kind that is saved. *)
Definition isFilePart (p : Part) : bool := negb (String.eqb (p_FileName p) "").

(** The file a file part is saved to. *)
Definition partTarget (destDir : string) (p : Part) : string :=
  filepath_Join [destDir; filepath_Base (p_FileName p)].

(** The part was stored: neither [os.Create] nor the copy failed. *)
Definition partStored (p : Part) : Prop :=
  p_createErr p = None /\ p_readErr p = None.

(** [io.CopyN(dst, part, n)]: what is copied and the error returned. *)
Definition io_CopyN (p : Part) (n : nat) : bytes * option error :=
  if n <=? length (p_body p) then (firstn n (p_body p), None)
  else (p_body p,
        Some (match p_readErr p with Some e => e | None => io_EOF end)).

(** What a [saveMultipartTo] call hands back. *)
Record saved : Type := mkSaved {
  s_filenames : list string;
  s_mimetypes : list string;
  s_err : option error;
  s_ops : list fsop
}.

Section Ingest.

Variable time_Parse : string -> string -> option Time.

(** The body of the loop over the parts.  [inl] is a [return] from inside
    the loop, [inr] the state when [NextPart] fails. *)
Fixpoint saveParts (destDir : string) (parts : list Part) (qmtime : string)
         (filenames mimetypes : list string) (ops : list fsop)
  : saved + (list string * list string * list fsop) :=
  match parts with
  | [] => inr (filenames, mimetypes, ops)
  | part :: parts' =>
      let filename := p_FileName part in
      if String.eqb filename "" then
        let qmtime :=
          if String.eqb (p_FormName part) "mtime" then
            (* b := bytes.NewBuffer(make([]byte, 23)) *)
            let b := repeat zeroByte 23 in
            let '(copied, err) := io_CopyN part 23 in
            let b := b ++ copied in
            match err with
            | None => string_of_list_ascii b
            | Some e =>
                if is_EOF e then string_of_list_ascii b else qmtime
            end
          else qmtime in
        saveParts destDir parts' qmtime filenames mimetypes ops
      else
        let fn := filepath_Join [destDir; filepath_Base filename] in
        match p_createErr part with
        | Some e =>
            inl (mkSaved [] []
                   (Some (Wrapf "error creating temp file %q: %s" [fn] e))
                   ops)
        | None =>
            let ops := ops ++ [OpCreate fn; OpWrite fn (p_body part)] in
            match p_readErr part with
            | Some e =>
                inl (mkSaved [] []
                       (Some (Wrapf "error writing to %q: %s" [fn] e)) ops)
            | None =>
                let filenames := filenames ++ [fn] in
                let mimetypes := mimetypes ++ [p_ContentType part] in
                let lastmod :=
                  parseLastModified time_Parse (p_LastModified part) qmtime in
                let ops :=
                  if negb (Time_IsZero lastmod)
                  then ops ++ [OpChtimes fn lastmod] else ops in
                saveParts destDir parts' qmtime filenames mimetypes ops
            end
        end
  end.

Definition saveMultipartTo (destDir : string) (mr : multipartReader)
           (qmtime : string) : saved :=
  (* the named result err; the loop declares an err of its own, which
     receives what NextPart returns *)
  let err : option error := None in
  match saveParts destDir (mr_parts mr) qmtime [] [] [] with
  | inl early => early
  | inr (filenames, mimetypes, ops) =>
      let err :=
        match err with
        | Some e => if is_EOF e then None else Some e
        | None => None
        end in
      mkSaved filenames mimetypes err ops
  end.

(** An upload request and what the environment answers while it is
    served. *)
Record Request : Type := mkRequest {
  r_Header : string -> string;
  r_Query : string -> string;
  r_Body : bytes;
  r_bodyErr : option error;                 (* reading the body fails *)
  r_MultipartReader : multipartReader * option error
}.

(** [mime.ParseMediaType]: media type, parameters, error. *)
Variable mime_ParseMediaType
  : string -> string * (string -> string) * option error.
(** [ioutil.TempDir("", "camproxy")]. *)
Variable ioutil_TempDir : string * option error.
(** [ioutil.TempFile(dir, "file-")]: the name of the file made. *)
Variable ioutil_TempFile : string -> string * option error.
(** The errors of [os.Create] and of [os.Chtimes] on a file name. *)
Variable os_Create : string -> option error.
Variable os_Chtimes : string -> option error.
(** [u.UploadFile(path, permanode)]: content, permanode, error. *)
Variable UploadFile : string -> bool -> Ref * Ref * option error.
Variable flagParanoid : string.

Definition saveDirectTo (destDir : string) (r : Request)
  : string * string * option error * list fsop :=
  let mimetype := r_Header r "Content-Type" in
  let lastmod :=
    parseLastModified time_Parse (r_Header r "Last-Modified")
                      (r_Query r "mtime") in
  let cd := r_Header r "Content-Disposition" in
  let fn :=
    if negb (String.eqb cd "") then
      let '(_, params, err) := mime_ParseMediaType cd in
      match err with Some _ => "" | None => params "filename" end
    else "" in
  let '(fn, (fhName, err)) :=
    if String.eqb fn "" then (fn, ioutil_TempFile destDir)
    else
      let fn := filepath_Join [destDir; filepath_Base fn] in
      (fn, (fn, os_Create fn)) in
  match err with
  | Some e =>
      ("", "", Some (Wrapf "error creating temp file %q: %s" [fn] e), [])
  | None =>
      let ops := [OpCreate fhName; OpWrite fhName (r_Body r)] in
      let err := r_bodyErr r in                 (* _, err = io.Copy(fh, r.Body) *)
      let filename := fhName in
      if negb (Time_IsZero lastmod) then
        (* if err = os.Chtimes(...); err != nil { log } *)
        let err := os_Chtimes filename in
        (filename, mimetype, err,
         match err with
         | None => ops ++ [OpChtimes filename lastmod]
         | Some _ => ops
         end)
      else (filename, mimetype, err, ops)
  end.

(** The answer of the handler: status and body, and what is left for the
    deferred paranoid copy. *)
Record Response : Type := mkResponse {
  status : nat;
  respBody : string;
  paranoid : option (string * string)
}.

(** [http.Error(w, msg, code)]: the status and the message on a line. *)
Definition http_Error (msg : string) (code : nat) : Response :=
  mkResponse code (msg ++ String (ascii_of_nat 10) "") None.

(** The handler panicked: no status is written. *)
Definition panicked : Response := mkResponse 0 "" None.

Definition errText (e : error) : string :=
  match e with
  | io_EOF => "EOF"
  | EnvError msg => msg
  | Errorf format _ => format
  | Wrapf format _ _ => format
  end.

(** The part of the [POST] case of [handle] that turns the body into
    files in the temporary directory [dn]: the file names, their mime
    types and the handler's [err] after the switch on the content type.
    [inl] is a return from inside the switch. *)
Definition ingest (dn : string) (r : Request)
  : Response + (list string * list string * option error) :=
  let ct := r_Header r "Content-Type" in
  let '(ct, _, err) := mime_ParseMediaType ct in
  let ct :=
    match err with
    | Some _ => if String.eqb ct "" then r_Header r "Content-Type" else ct
    | None => ct
    end in
  if String.eqb ct "multipart/form"
     || String.eqb ct "multipart/form-data"
     || String.eqb ct "application/x-www-form-urlencoded"
  then
    match r_MultipartReader r with
    | (mr, None) =>
        let qmtime := r_Query r "mtime" in
        let qmtime :=
          if String.eqb qmtime "" then r_Header r "Last-Modified"
          else qmtime in
        let s := saveMultipartTo dn mr qmtime in
        (* saveMultipartTo's error goes to the err declared by
           mr, err := r.MultipartReader(); the handler's err keeps what
           ParseMediaType returned *)
        inr (s_filenames s, s_mimetypes s, err)
    | (_, Some e) =>
        inl (http_Error "error parsing request body as multipart/form" 400)
    end
  else
    let '(fn, mime, err, _) := saveDirectTo dn r in
    if negb (String.eqb fn "")
    then inr ([fn], [mime], err) else inr ([], [], err).

(** The [POST] case of [handle]. *)
Definition handlePost (cache : MimeCache) (r : Request)
  : Response * MimeCache :=
  match ioutil_TempDir with
  | (_, Some e) =>
      (http_Error "cannot create temporary directory" 500, cache)
  | (dn, None) =>
      match ingest dn r with
      | inl resp => (resp, cache)
      | inr (filenames, mimetypes, Some e) =>
          (http_Error (errText e) 500, cache)
      | inr (filenames, mimetypes, None) =>
          let permanode := String.eqb (r_Query r "permanode") "1" in
          let short := String.eqb (r_Query r "short") "1" in
          let upload :=
            match filenames with
            | [] => None
            | [f] => Some (UploadFile f permanode)
            | _ => Some (UploadFile dn permanode)
            end in
          match upload with
          | None => (http_Error "no files in request" 400, cache)
          | Some (_, _, Some e) => (http_Error "error uploading" 500, cache)
          | Some (content, perma, None) =>
              let shortKey := RefToBase64 content in
              let single := length filenames =? 1 in
              let cache :=
                match mimetypes with
                | [m] =>
                    if single && negb (String.eqb m "")
                    then MimeCache_Set cache shortKey m else cache
                | _ => cache
                end in
              let para : result (option (string * string)) :=
                if single && negb (String.eqb flagParanoid "") then
                  match getParanoidPath flagParanoid content with
                  | Val dest =>
                      Val (if negb (String.eqb (hd "" filenames) "")
                              && negb (String.eqb dest "")
                           then Some (hd "" filenames, dest) else None)
                  | Fail e => Fail e
                  | Panic => Panic
                  end
                else Val None in
              let b := if short then shortKey else Ref_String content in
              let b :=
                if Ref_Valid perma then
                  (b ++ String (ascii_of_nat 10) ""
                     ++ (if short then RefToBase64 perma
                         else Ref_String perma))%string
                else b in
              match para with
              | Val para => (mkResponse 201 b para, cache)
              | _ => (panicked, cache)
              end
          end
      end
  end.

End Ingest.

(** ** The smart fetch engine *)

(** The metadata of a schema blob that [setFileMeta] applies, with the
    errors (if any) of the two calls it makes. *)
Record fileMeta : Type := mkMeta {
  m_mode : nat;
  m_modTime : Time;
  m_chmodErr : option error;
  m_chtimesErr : option error
}.

(** What [smartFetch] meets when it resolves a reference: the outcome of
    the fetch and of the sniffing, the schema blob found, the blobs its
    references resolve to, and the answers of the operating system to the
    calls made for it. *)
#[warnings="-register-all"] Inductive blob : Type :=
| FetchFails (br : string) (e : error)
| SniffFails (e : error)
| Opaque (body : bytes) (createErr copyErr : option error)
| Directory (br fileName : string) (meta : fileMeta)
            (mkdirErr : option error) (entries : option blob)
| StaticSet (members : list blob)
| File (br fileName : string) (meta : fileMeta) (readerErr : option error)
       (content : bytes) (existing : option Z)
       (createErr copyErr : option error)
| UnknownType (type : string).

(** The first non-nil error of [errs], as the loop
    [for _, err := range errs { if err != nil { return err } }] finds it. *)
Fixpoint firstErr (errs : list (option error)) : option error :=
  match errs with
  | [] => None
  | Some e :: _ => Some e
  | None :: errs' => firstErr errs'
  end.

Definition setFileMeta (name : string) (meta : fileMeta)
  : option error * list fsop :=
  let err1 := m_chmodErr meta in
  let ops :=
    match err1 with None => [OpChmod name (m_mode meta)] | Some _ => [] end in
  let '(err2, ops) :=
    if negb (Time_IsZero (m_modTime meta)) then
      (m_chtimesErr meta,
       match m_chtimesErr meta with
       | None => ops ++ [OpChtimes name (m_modTime meta)]
       | Some _ => ops
       end)
    else (None, ops) in
  (firstErr [err1; err2], ops).

(** The [opaque] case: the bytes go to a file at [targ]. *)
Definition fetchOpaque (targ : string) (body : bytes)
           (createErr copyErr : option error) : option error * list fsop :=
  match createErr with
  | Some e => (Some (Wrapf "opaque: %v" [] e), [])
  | None =>
      match copyErr with
      | Some e => (Some e, [OpCreate targ])
      | None => (None, [OpCreate targ; OpWrite targ body])
      end
  end.

(** The [file] case.  [existing] is what [os.Stat(name)] finds: the size
    of the file at the target path, if there is one. *)
Definition fetchFile (Verbose : bool) (targ br fileName : string)
           (meta : fileMeta) (readerErr : option error) (content : bytes)
           (existing : option Z) (createErr copyErr : option error)
  : option error * list fsop :=
  match readerErr with
  | Some e => (Some (Wrapf "NewFileReader: %v" [] e), [])
  | None =>
      let name := filepath_Join [targ; fileName] in
      let write :=
        match createErr with
        | Some e => (Some (Wrapf "file type: %v" [] e), [])
        | None =>
            match copyErr with
            | Some e =>
                (Some (Wrapf "Copying %s to %s: %v" [br; name] e),
                 [OpCreate name])
            | None =>
                (None, [OpCreate name; OpWrite name content]
                         ++ snd (setFileMeta name meta))
            end
        end in
      (* if fi, err := os.Stat(name); err == nil && fi.Size() == fi.Size() *)
      match existing with
      | Some size =>
          if (size =? size)%Z then
            if Verbose then (None, [])            (* log; return nil *)
            else write
          else write
      | None => write
      end
  end.

(** [smartFetch]: the error returned and the changes made to the disk.
    The members of a static set are fetched by the worker pool of
    [Module Pool]; the error is what the collecting loop reads from the
    members' channels in submission order, the changes are listed member
    by member. *)
Fixpoint smartFetch (Verbose : bool) (targ : string) (b : blob)
  : option error * list fsop :=
  match b with
  | FetchFails br e => (Some (Wrapf "Failed to fetch %s: %s" [br] e), [])
  | SniffFails e => (Some e, [])
  | Opaque body createErr copyErr => fetchOpaque targ body createErr copyErr
  | Directory br fileName meta mkdirErr entries =>
      let dir := filepath_Join [targ; fileName] in
      match mkdirErr with
      | Some e => (Some e, [])
      | None =>
          let ops := [OpMkdirAll dir (m_mode meta)] in
          let ops := ops ++ snd (setFileMeta dir meta) in  (* error only logged *)
          match entries with
          | None => (Some (Errorf "bad entries blobref in dir %v" [br]), ops)
          | Some child =>
              let '(err, ops') := smartFetch Verbose dir child in
              (err, ops ++ ops')
          end
      end
  | StaticSet members =>
      let done := map (smartFetch Verbose targ) members in
      (firstErr (map fst done), concat (map snd done))
  | File br fileName meta readerErr content existing createErr copyErr =>
      fetchFile Verbose targ br fileName meta readerErr content existing
                createErr copyErr
  | UnknownType type =>
      (Some (EnvError ("unknown blob type: " ++ type)), [])
  end.




(** ** The worker pool of a static-set expansion *)

Module Pool.

Definition numWorkers : nat := 10.

(** Where the calling goroutine stands: queueing member [k], waiting
    for the result of member [k], or returned. *)
Inductive pc : Type :=
| Submitting (k : nat)
| Collecting (k : nat)
| Returned (err : option error).

Record state : Type := mkState {
  workc : list nat;             (* the buffered work channel, oldest first *)
  workers : list (option nat);  (* each goroutine: idle, or fetching member k *)
  sent : list nat;              (* members whose result was sent on their errc *)
  main : pc
}.

(** One scheduling decision: the caller moves, worker [j] receives
    from [workc], or worker [j] ends its fetch and sends the result. *)
Inductive event : Type :=
| Main
| Take (j : nat)
| Finish (j : nat).

Fixpoint set_nth {A : Type} (l : list A) (j : nat) (x : A) : list A :=
  match l, j with
  | [], _ => []
  | _ :: l', 0 => x :: l'
  | y :: l', S j' => y :: set_nth l' j' x
  end.

Section Run.

(** What [smartFetch] returns for each member, in submission order. *)
Variable results : list (option error).

Definition init : state :=
  mkState [] (repeat None numWorkers) [] (Submitting 0).

(** [None]: the move is not enabled (the goroutine is blocked or
    gone). *)
Definition step (s : state) (ev : event) : option state :=
  match ev with
  | Main =>
      match main s with
      | Submitting k =>
          if k <? length results
          then Some (mkState (workc s ++ [k]) (workers s) (sent s)
                             (Submitting (S k)))
          else Some (mkState (workc s) (workers s) (sent s) (Collecting 0))
      | Collecting k =>
          if k <? length results then
            if existsb (Nat.eqb k) (sent s) then        (* err := <-errc *)
              match nth k results None with
              | Some e =>
                  Some (mkState (workc s) (workers s) (sent s)
                                (Returned (Some e)))
              | None =>
                  Some (mkState (workc s) (workers s) (sent s)
                                (Collecting (S k)))
              end
            else None
          else Some (mkState (workc s) (workers s) (sent s) (Returned None))
      | Returned _ => None
      end
  | Take j =>
      match nth_error (workers s) j, workc s with
      | Some None, k :: q =>
          Some (mkState q (set_nth (workers s) j (Some k)) (sent s)
                        (main s))
      | _, _ => None
      end
  | Finish j =>
      match nth_error (workers s) j with
      | Some (Some k) =>
          Some (mkState (workc s) (set_nth (workers s) j None)
                        (k :: sent s) (main s))
      | _ => None
      end
  end.

Fixpoint run (s : state) (evs : list event) : option state :=
  match evs with
  | [] => Some s
  | ev :: evs' =>
      match step s ev with
      | Some s' => run s' evs'
      | None => None
      end
  end.

(** The member fetches in progress. *)
Definition running (s : state) : nat :=
  length (filter (fun w => match w with Some _ => true | None => false end)
                 (workers s)).

(** The members queued so far. *)
Definition submitted (s : state) : nat :=
  match main s with
  | Submitting k => k
  | _ => length results
  end.

(** Member [k] is queued, being fetched, or done. *)
Definition accounted (s : state) (k : nat) : Prop :=
  In k (workc s) \/ In (Some k) (workers s) \/ In k (sent s).

End Run.

End Pool.

(** ** Sample environment and requests *)

(** [mime.ParseMediaType] on a header value without parameters. *)
Definition plainMediaType (v : string)
  : string * (string -> string) * option error :=
  (v, fun _ => "", None).

Definition formHeader (key : string) : string :=
  if String.eqb key "Content-Type" then "multipart/form-data" else "".

Definition noQuery (key : string) : string := "".

(** A well-formed multipart form without any part. *)
Definition emptyForm : Request :=
  mkRequest formHeader noQuery [] None (mkReader [] io_EOF, None).

Definition sampleFile : Part :=
  mkPart "a.txt" "file" "text/plain" "" (list_ascii_of_string "hello")
         None None.

(** A multipart form whose first part is a file and whose body is
    malformed after it. *)
Definition brokenForm : Request :=
  mkRequest formHeader noQuery [] None
    (mkReader [sampleFile] (EnvError "multipart: NextPart: unexpected EOF"),
     None).

Definition sampleRef : Ref :=
  Some (mkDigest "sha1"
          (map ascii_of_nat
               [1; 35; 69; 103; 137; 171; 205; 239; 1; 35;
                69; 103; 137; 171; 205; 239; 1; 35; 69; 103])).

(** An uploader that stores whatever it is given. *)
Definition sampleUpload (path : string) (permanode : bool)
  : Ref * Ref * option error :=
  (sampleRef, None, None).

Definition sampleTempDir : string * option error := ("/tmp/camproxy1", None).

Definition sampleTempFile (dir : string) : string * option error :=
  ((dir ++ "/file-1")%string, None).

Definition noError (name : string) : option error := None.

Definition sampleMeta : fileMeta := mkMeta 420 zeroTime None None.



(** ** Further definitions: where the sniffing happens *)

(** The bytes buffered when the 1024th byte arrives, with the chunks still
    to come; [None] when the stream ends before. *)
Fixpoint sniffSplit (buf : bytes) (chunks : list bytes)
  : option (bytes * list bytes) :=
  match chunks with
  | [] => None
  | p :: rest =>
      if length (buf ++ p) <? 1024 then sniffSplit (buf ++ p) rest
      else Some (buf ++ p, rest)
  end.

(** ** Further definitions: the upload ingestor *)

(** The time of the first of the three layouts of [timeParse] that
    [text] parses under, the zero time when there is none. *)
Definition firstLayout (time_Parse : string -> string -> option Time)
           (text : string) : Time :=
  match time_Parse time_RFC1123 text with
  | Some t => t
  | None =>
      match time_Parse time_UnixDate text with
      | Some t => t
      | None =>
          match time_Parse time_RFC3339 text with
          | Some t => t
          | None => zeroTime
          end
      end
  end.

(** The parts [saveMultipartTo] looks at: files, and the [mtime] field. *)
Definition relevantPart (p : Part) : bool :=
  isFilePart p || String.eqb (p_FormName p) "mtime".

(** The part is a file part that could not be stored. *)
Definition partFails (p : Part) : Prop :=
  isFilePart p = true /\ (p_createErr p <> None \/ p_readErr p <> None).

(** ** Further definitions: the smart fetch engine *)

(** The tree with the metadata of every blob changed by [f]. *)
Fixpoint mapMeta (f : fileMeta -> fileMeta) (b : blob) : blob :=
  match b with
  | Directory br fileName meta mkdirErr entries =>
      Directory br fileName (f meta) mkdirErr
                match entries with
                | Some child => Some (mapMeta f child)
                | None => None
                end
  | StaticSet members => StaticSet (map (mapMeta f) members)
  | File br fileName meta readerErr content existing createErr copyErr =>
      File br fileName (f meta) readerErr content existing createErr copyErr
  | _ => b
  end.

(** No [file] blob of the tree finds a file at its target path. *)
Fixpoint nothingExists (b : blob) : Prop :=
  match b with
  | Directory _ _ _ _ (Some child) => nothingExists child
  | StaticSet members =>
      (fix all (l : list blob) : Prop :=
         match l with
         | [] => True
         | m :: l' => nothingExists m /\ all l'
         end) members
  | File _ _ _ _ _ existing _ _ => existing = None
  | _ => True
  end.

(** [Downloader.Save]: the items are fetched one after the other and
    [log.Fatal] ends the process at the first error; the call returns nil
    or does not return. *)
Inductive saveOutcome : Type :=
| SaveReturns (err : option error)
| SaveExits (logged : error).

Fixpoint Downloader_Save (Verbose : bool) (destDir : string) (contents : bool)
         (items : list blob) : saveOutcome * list blob :=
  match items with
  | [] => (SaveReturns None, [])
  | br :: items' =>
      match fst (smartFetch Verbose destDir br) with
      | Some err => (SaveExits err, [br])             (* log.Fatal(err) *)
      | None =>
          let '(out, fetched) :=
            Downloader_Save Verbose destDir contents items' in
          (out, br :: fetched)
      end
  end.

(** [multiCloser.Close]: each closer is given by what its [Close]
    returns; the result is the error returned and the number of closers
    closed. *)
Fixpoint multiCloser_loop (err : option error) (closers : list (option error))
         (closed : nat) : option error * nat :=
  match closers with
  | [] => (err, closed)
  | closeErr :: closers' =>
      let err :=
        match closeErr, err with
        | Some e, None => Some e        (* closeErr != nil && err == nil *)
        | _, _ => err
        end in
      multiCloser_loop err closers' (S closed)
  end.

Definition multiCloser_Close (closers : list (option error))
  : option error * nat :=
  multiCloser_loop None closers 0.

(** ** Further definitions: the worker pool *)

(** The number of places where member [k] is found: in the work queue,
    with a worker, among the members done. *)
Definition isFetching (k : nat) (w : option nat) : bool :=
  match w with Some j => j =? k | None => false end.

Definition occurrences (s : Pool.state) (k : nat) : nat :=
  count_occ Nat.eq_dec (Pool.workc s) k
  + length (filter (isFetching k) (Pool.workers s))
  + count_occ Nat.eq_dec (Pool.sent s) k.

(** ** Further definitions: wrapped writers *)

(** The wrapped writer takes all of what it is handed, every time:
    [n = len(p)], [err = nil]. *)
Definition wholeWriter (w_Write : list rwCall -> bytes -> Z * option error)
  : Prop :=
  forall calls p, w_Write calls p = (Z.of_nat (length p), None).

(** A client that reads all it is sent. *)
Definition wholeWrite (calls : list rwCall) (p : bytes) : Z * option error :=
  (Z.of_nat (length p), None).

(** A client that has gone away. *)
Definition brokenWrite (calls : list rwCall) (p : bytes) : Z * option error :=
  (0%Z, Some (EnvError "write: broken pipe")).

(** ** Further definitions: headers and sample requests *)

(** The calls that put the headers out: the status 200, after the content
    type when there is one. *)
Definition headerPrefix (hdr : list rwCall) : Prop :=
  hdr = [WriteHeader 200]
  \/ exists m, m <> "" /\ hdr = [HeaderAdd "Content-Type" m; WriteHeader 200].

(** A file part that cannot be written to the disk. *)
Definition unwritablePart : Part :=
  mkPart "b.txt" "file" "text/plain" "" (list_ascii_of_string "world")
         None (Some (EnvError "permission denied")).

(** The body of a direct upload breaks off. *)
Definition diskFull : option error := Some (EnvError "unexpected EOF").

Definition datedQuery (key : string) : string :=
  if String.eqb key "mtime" then "1000000000" else "".

(** ** Further definitions: starting a download *)

(** An open [io.ReadCloser]: the pieces its [Read]s return, the error that
    ends them ([None] for [io.EOF]) and what its [Close] returns. *)
Record readCloser : Type := mkReadCloser {
  rc_chunks : list bytes;
  rc_err : option error;
  rc_close : option error
}.

(** The [Downloader], of which [Start] reads [args]; the client and the
    disk cache stand behind the calls below. *)
Record Downloader : Type := mkDownloader { down_args : list string }.

(** [io.MultiReader(readers...)]: the readers one after the other, up to
    the first that ends with an error other than [io.EOF]. *)
Fixpoint io_MultiReader (readers : list readCloser)
  : list bytes * option error :=
  match readers with
  | [] => ([], None)
  | r :: readers' =>
      match rc_err r with
      | Some e => (rc_chunks r, Some e)
      | None =>
          let '(chunks, err) := io_MultiReader readers' in
          (rc_chunks r ++ chunks, err)
      end
  end.

(** What [Start] returns: the readers, or an error; in the second case
    the readers opened until then are dropped as they are, none of them
    is closed. *)
Inductive startOutcome : Type :=
| Started (readers : list readCloser)
| StartFails (err : error) (dropped : list readCloser).

Section Start.

Variable InsecureTLS : bool.

(** [schema.NewFileReader(down.dc, br)]. *)
Variable schema_NewFileReader : Ref -> readCloser + error.
(** [down.dc.Fetch(br)]. *)
Variable src_Fetch : Ref -> readCloser + error.
(** The [camget] command with the given arguments: its [StdoutPipe], its
    [Run], and what it has written on its standard error by then. *)
Variable camget_StdoutPipe : list string -> readCloser + error.
Variable camget_Run : list string -> option error.
Variable camget_Stderr : list string -> string.

Definition fetch (br : Ref) : readCloser + error :=
  match src_Fetch br with
  | inl r => inl r
  | inr err => inr (Wrapf "Failed to fetch %s: %s" [Ref_String br] err)
  end.

Definition camgetArgs (down : Downloader) (contents : bool) (br : Ref)
  : list string :=
  let args := down_args down in
  let args := if contents then args ++ ["-contents=true"] else args in
  let args := if InsecureTLS then args ++ ["-insecure=true"] else args in
  args ++ [Ref_String br].

(** The loop of [Start], with the readers opened so far and the [camget]
    commands run so far. *)
Fixpoint Start_loop (down : Downloader) (contents : bool) (items : list Ref)
         (readers : list readCloser) (ran : list (list string))
  : startOutcome * list (list string) :=
  match items with
  | [] => (Started readers, ran)
  | br :: items' =>
      match (if contents then schema_NewFileReader br else fetch br) with
      | inl rc => Start_loop down contents items' (readers ++ [rc]) ran
      | inr _ =>
          let args := camgetArgs down contents br in
          match camget_StdoutPipe args with
          | inr err =>
              (StartFails
                 (Wrapf "error createing stdout pipe for camget %q: %s (%v)"
                        (args ++ [""]) err)
                 readers, ran)
          | inl rc =>
              match camget_Run args with
              | Some err =>
                  (StartFails
                     (Wrapf "error calling camget %q: %s (%v)"
                            (args ++ [camget_Stderr args]) err)
                     readers, ran ++ [args])
              | None =>
                  Start_loop down contents items' (readers ++ [rc])
                             (ran ++ [args])
              end
          end
      end
  end.

Definition Downloader_Start (down : Downloader) (contents : bool)
           (items : list Ref) : startOutcome * list (list string) :=
  Start_loop down contents items [] [].

(** How [Start] gets the reader of one item. *)
Definition opened (down : Downloader) (contents : bool) (br : Ref)
  : option readCloser :=
  match (if contents then schema_NewFileReader br else fetch br) with
  | inl rc => Some rc
  | inr _ =>
      match camget_StdoutPipe (camgetArgs down contents br),
            camget_Run (camgetArgs down contents br) with
      | inl rc, None => Some rc
      | _, _ => None
      end
  end.

(** Whether [Start] has to call [camget] for the item. *)
Definition needsCamget (contents : bool) (br : Ref) : bool :=
  match (if contents then schema_NewFileReader br else fetch br) with
  | inl _ => false
  | inr _ => true
  end.

End Start.

(** ** Further definitions: the [GET] case of the handler *)

(** [io.ErrShortWrite]. *)
Definition io_ErrShortWrite : error := EnvError "short write".

(** The calls made on the handler's [http.ResponseWriter]: those of the
    [respWriter] wrapped around it, and [http.Error]. *)
Inductive wCall : Type :=
| ByWriter (c : rwCall)
| ErrorPage (msg : string) (code : nat).

(** The bytes written as the body by the [respWriter]. *)
Fixpoint bodyBytes (log : list wCall) : bytes :=
  match log with
  | [] => []
  | ByWriter (BodyWrite p) :: log' => p ++ bodyBytes log'
  | _ :: log' => bodyBytes log'
  end.

Definition isErrorPage (c : wCall) : bool :=
  match c with ErrorPage _ _ => true | ByWriter _ => false end.

Record getResult : Type := mkGetResult {
  g_log : list wCall;
  g_cache : MimeCache;
  g_closed : nat                 (* the readers closed by [rc.Close()] *)
}.

Definition nonEmpty (p : bytes) : bool := 0 <? length p.


Section HandleGet.

Variable hashSize : string -> option nat.
Variable sliceCap : nat -> nat.
Variable MatchMime : string -> bytes -> string.
(** The [Write] of the handler's [http.ResponseWriter]. *)
Variable w_Write : list rwCall -> bytes -> Z * option error.

(** [magic.MIMETypeFromReader]: the type sniffed and the reader to go on
    with. *)
Variable magic_MIMETypeFromReader
  : list bytes * option error -> string * (list bytes * option error).

Variable getDownloader : Downloader + error.
Variable InsecureTLS : bool.
Variable schema_NewFileReader : Ref -> readCloser + error.
Variable src_Fetch : Ref -> readCloser + error.
Variable camget_StdoutPipe : list string -> readCloser + error.
Variable camget_Run : list string -> option error.
Variable camget_Stderr : list string -> string.

(** [io.Copy(rw, rc)]: every non-empty piece read is written at once; the
    copy ends at the first write that returns an error or a count other
    than the length of the piece, or with the reader.  (For a count out
    of range newer versions of Go return another error than
    [io.ErrShortWrite]; the handler only tests that there is one.) *)
Fixpoint io_Copy (rw : respWriter) (cache : MimeCache) (chunks : list bytes)
         (readErr : option error) : respWriter * MimeCache * option error :=
  match chunks with
  | [] => (rw, cache, readErr)
  | p :: chunks' =>
      if 0 <? length p then
        let '(rw, cache, (nw, ew)) :=
          respWriter_Write MatchMime w_Write rw cache p in
        match ew with
        | Some e => (rw, cache, Some e)
        | None =>
            if (nw =? Z.of_nat (length p))%Z
            then io_Copy rw cache chunks' readErr
            else (rw, cache, Some io_ErrShortWrite)
        end
      else io_Copy rw cache chunks' readErr
  end.

(** The part of the [GET] case that picks the type to announce and the
    name under which the type is cached: [(okMime, nm)]. *)
Definition chooseMime (cache : MimeCache) (r : Request) (items : list Ref)
  : string * string :=
  let content := negb (String.eqb (r_Query r "raw") "1") in
  if negb content then ("application/json", "")
  else
    let okMime := r_Query r "mimeType" in
    if String.eqb okMime "" && (1 =? length items) then
      let nm := RefToBase64 (hd None items) in
      (MimeCache_Get cache nm, nm)
    else (okMime, "").

(** The part of the [GET] case that follows a successful [Start]: the
    sniffing, the copy, and the deferred [rw.Close()] and [rc.Close()]. *)
Definition deliver (cache : MimeCache) (nm okMime : string)
           (readers : list readCloser) : getResult :=
  let rc := io_MultiReader readers in
  let '(okMime, rc) :=
    if String.eqb okMime ""
    then magic_MIMETypeFromReader rc else (okMime, rc) in
  let rw := newRespWriter cache [] nm okMime in
  let '(rw, cache, err) := io_Copy rw cache (fst rc) (snd rc) in
  let page :=
    match err with
    | Some _ => [ErrorPage "error downloading %q: %s" 500]
    | None => []
    end in
  let flushed :=
    skipn (length (w_calls rw))
          (w_calls (fst (respWriter_Close w_Write rw))) in
  let closed := snd (multiCloser_Close (map rc_close readers)) in
  mkGetResult (map ByWriter (w_calls rw) ++ page ++ map ByWriter flushed)
              cache closed.

(** The [GET] case of [handle] for the URL path [path]; [None] when it
    panics. *)
Definition handleGet (cache : MimeCache) (path : string) (r : Request)
  : option getResult :=
  match path with
  | EmptyString => None                          (* r.URL.Path[1:] *)
  | String _ name =>
      match ParseBlobNames hashSize sliceCap [] [name] with
      | Panic => None
      | Fail err => Some (mkGetResult [ErrorPage (errText err) 400] cache 0)
      | Val items =>
          if length items =? 0 then
            Some (mkGetResult [ErrorPage "a blobref is needed!" 400] cache 0)
          else
            let content := negb (String.eqb (r_Query r "raw") "1") in
            let '(okMime, nm) := chooseMime cache r items in
            match getDownloader with
            | inr err =>
                Some (mkGetResult
                        [ErrorPage "error getting downloader to %q: %s" 500]
                        cache 0)
            | inl d =>
                match fst (Downloader_Start InsecureTLS schema_NewFileReader
                             src_Fetch camget_StdoutPipe camget_Run
                             camget_Stderr d content items) with
                | StartFails err _ =>
                    Some (mkGetResult [ErrorPage "download error: %v" 500]
                                      cache 0)
                | Started readers => Some (deliver cache nm okMime readers)
                end
            end
      end
  end.

End HandleGet.

(** ** Further definitions: a sample download *)

Definition samplePath : string :=
  "/sha1-0123456789abcdef0123456789abcdef01234567".

Definition sampleDownloader : Downloader :=
  mkDownloader ["-server=localhost:3179"].

(** A blob store that has the word hello under every reference. *)
Definition sampleOpen (br : Ref) : readCloser + error :=
  inl (mkReadCloser [list_ascii_of_string "hel"; list_ascii_of_string "lo"]
                    None None).

(** A blob store whose connection breaks after three bytes. *)
Definition brokenOpen (br : Ref) : readCloser + error :=
  inl (mkReadCloser [list_ascii_of_string "hel"]
                    (Some (EnvError "connection reset")) None).

Definition noCamget (args : list string) : readCloser + error :=
  inr (EnvError "executable file not found in $PATH").

Definition noRun (args : list string) : option error := None.

Definition noStderr (args : list string) : string := "".

(** A sniffer that recognises nothing. *)
Definition noSniff (rc : list bytes * option error)
  : string * (list bytes * option error) :=
  ("", rc).

Definition noMatch (okMime : string) (buf : bytes) : string := okMime.


Definition emptyCache : MimeCache := fun _ => "".

(** * Properties *)

(** ** Bit-level facts used by the codecs *)

Lemma lor_shiftl_add (x y k : N) :
  (y < 2 ^ k)%N -> N.lor (N.shiftl x k) y = (x * 2 ^ k + y)%N.
Proof.
  intros Hy.
  assert (Hland : N.land (N.shiftl x k) y = 0%N).
  { apply N.bits_inj; intros n. rewrite N.land_spec, N.bits_0.
    destruct (N.ltb_spec n k) as [Hlt | Hge].
    - now rewrite N.shiftl_spec_low.
    - rewrite (N.testbit_eqb y n).
      rewrite (N.div_small y (2 ^ n)).
      + now rewrite andb_false_r.
      + eapply N.lt_le_trans; [exact Hy |].
        apply N.pow_le_mono_r; lia. }
  rewrite <- N.lxor_lor by exact Hland.
  rewrite <- N.add_nocarry_lxor by exact Hland.
  now rewrite N.shiftl_mul_pow2.
Qed.

Lemma quantum3_arith (a b c : ascii) :
  quantum3 a b c
  = (N_of_ascii a * 65536 + N_of_ascii b * 256 + N_of_ascii c)%N.
Proof.
  unfold quantum3.
  pose proof (N_ascii_bounded a). pose proof (N_ascii_bounded b).
  pose proof (N_ascii_bounded c).
  rewrite (lor_shiftl_add (N_of_ascii a) (N.shiftl (N_of_ascii b) 8) 16).
  2:{ rewrite N.shiftl_mul_pow2. change (2 ^ 8)%N with 256%N.
      change (2 ^ 16)%N with 65536%N. lia. }
  rewrite N.shiftl_mul_pow2.
  change (2 ^ 16)%N with 65536%N. change (2 ^ 8)%N with 256%N.
  replace (N_of_ascii a * 65536 + N_of_ascii b * 256)%N
    with ((N_of_ascii a * 256 + N_of_ascii b) * 2 ^ 8)%N
    by (change (2 ^ 8)%N with 256%N; lia).
  rewrite <- N.shiftl_mul_pow2.
  rewrite lor_shiftl_add by (change (2 ^ 8)%N with 256%N; lia).
  rewrite ?N.shiftl_mul_pow2. change (2 ^ 8)%N with 256%N. lia.
Qed.

Lemma quantum4_arith (v1 v2 v3 v4 : N) :
  (v2 < 64)%N -> (v3 < 64)%N -> (v4 < 64)%N ->
  quantum4 v1 v2 v3 v4 = (v1 * 262144 + v2 * 4096 + v3 * 64 + v4)%N.
Proof.
  intros H2 H3 H4. unfold quantum4.
  rewrite (lor_shiftl_add v1 (N.shiftl v2 12) 18).
  2:{ rewrite N.shiftl_mul_pow2. change (2 ^ 12)%N with 4096%N.
      change (2 ^ 18)%N with 262144%N. lia. }
  rewrite N.shiftl_mul_pow2.
  change (2 ^ 18)%N with 262144%N. change (2 ^ 12)%N with 4096%N.
  replace (N.lor (v1 * 262144 + v2 * 4096) (N.shiftl v3 6))
    with (N.lor (N.shiftl (v1 * 64 + v2) 12) (N.shiftl v3 6)).
  2:{ f_equal. rewrite N.shiftl_mul_pow2. change (2 ^ 12)%N with 4096%N. lia. }
  rewrite (lor_shiftl_add (v1 * 64 + v2) (N.shiftl v3 6) 12).
  2:{ rewrite N.shiftl_mul_pow2. change (2 ^ 6)%N with 64%N.
      change (2 ^ 12)%N with 4096%N. lia. }
  rewrite N.shiftl_mul_pow2.
  change (2 ^ 12)%N with 4096%N. change (2 ^ 6)%N with 64%N.
  replace ((v1 * 64 + v2) * 4096 + v3 * 64)%N
    with (((v1 * 64 + v2) * 64 + v3) * 2 ^ 6)%N
    by (change (2 ^ 6)%N with 64%N; lia).
  rewrite <- N.shiftl_mul_pow2.
  rewrite lor_shiftl_add by (change (2 ^ 6)%N with 64%N; lia).
  rewrite ?N.shiftl_mul_pow2. change (2 ^ 6)%N with 64%N. lia.
Qed.

Lemma sextet_val (val k : N) :
  N.land (N.shiftr val k) 63 = ((val / 2 ^ k) mod 64)%N.
Proof.
  rewrite N.shiftr_div_pow2. change 63%N with (N.ones 6).
  now rewrite N.land_ones.
Qed.

Lemma byte_of_val (x : N) : byte_of x = ascii_of_N (x mod 256).
Proof.
  unfold byte_of. change 255%N with (N.ones 8). now rewrite N.land_ones.
Qed.

(** ** The base64 and hexadecimal codecs invert each other *)

Lemma list_ind3 {A : Type} (P : list A -> Prop) :
  P [] -> (forall a, P [a]) -> (forall a b, P [a; b]) ->
  (forall a b c l, P l -> P (a :: b :: c :: l)) ->
  forall l, P l.
Proof.
  intros H0 H1 H2 H3.
  fix IH 1. intros [| a [| b [| c l]]].
  - exact H0.
  - apply H1.
  - apply H2.
  - apply H3. apply IH.
Qed.

Lemma b64val_b64char (v : N) : (v < 64)%N -> b64val (b64char v) = Some v.
Proof.
  intros Hv. rewrite <- (N2Nat.id v).
  assert (Hn : N.to_nat v < 64) by lia.
  revert Hn. generalize (N.to_nat v) as n. intros n Hn.
  do 64 (destruct n as [| n]; [reflexivity |]). lia.
Qed.

Lemma b64char_not_newline (v : N) :
  (v < 64)%N -> isNewline (b64char v) = false.
Proof.
  intros Hv. rewrite <- (N2Nat.id v).
  assert (Hn : N.to_nat v < 64) by lia.
  revert Hn. generalize (N.to_nat v) as n. intros n Hn.
  do 64 (destruct n as [| n]; [reflexivity |]). lia.
Qed.

Lemma sextet_b64val (val k : N) :
  b64val (sextet val k) = Some ((val / 2 ^ k) mod 64)%N.
Proof.
  unfold sextet. rewrite sextet_val. apply b64val_b64char.
  apply N.mod_lt. discriminate.
Qed.

Lemma sextet_not_newline (val k : N) : isNewline (sextet val k) = false.
Proof.
  unfold sextet. rewrite sextet_val. apply b64char_not_newline.
  apply N.mod_lt. discriminate.
Qed.

Local Ltac pow2 :=
  change (2 ^ 18)%N with 262144%N in *; change (2 ^ 16)%N with 65536%N in *;
  change (2 ^ 12)%N with 4096%N in *; change (2 ^ 8)%N with 256%N in *;
  change (2 ^ 6)%N with 64%N in *; change (2 ^ 0)%N with 1%N in *.

Local Ltac euclid := Z.to_euclidean_division_equations; lia.

(** The three bytes of a quantum come back from its four sextets. *)
Lemma quantum_bytes (A B C : N) :
  (A < 256)%N -> (B < 256)%N -> (C < 256)%N ->
  let val := (A * 65536 + B * 256 + C)%N in
  let q := quantum4 ((val / 2 ^ 18) mod 64) ((val / 2 ^ 12) mod 64)
                    ((val / 2 ^ 6) mod 64) ((val / 2 ^ 0) mod 64) in
  ((q / 2 ^ 16) mod 256 = A /\ (q / 2 ^ 8) mod 256 = B /\ q mod 256 = C)%N.
Proof.
  intros HA HB HC val q. subst q.
  rewrite quantum4_arith by (apply N.mod_lt; discriminate).
  subst val. pow2. repeat split; zify; euclid.
Qed.

Lemma quantum_bytes2 (A B : N) :
  (A < 256)%N -> (B < 256)%N ->
  let val := (A * 65536 + B * 256 + 0)%N in
  let q := quantum4 ((val / 2 ^ 18) mod 64) ((val / 2 ^ 12) mod 64)
                    ((val / 2 ^ 6) mod 64) 0 in
  ((q / 2 ^ 16) mod 256 = A /\ (q / 2 ^ 8) mod 256 = B)%N.
Proof.
  intros HA HB val q. subst q.
  rewrite quantum4_arith by (try (apply N.mod_lt; discriminate); lia).
  subst val. pow2. repeat split; zify; euclid.
Qed.

Lemma quantum_bytes1 (A : N) :
  (A < 256)%N ->
  let val := (A * 65536 + 0 * 256 + 0)%N in
  let q := quantum4 ((val / 2 ^ 18) mod 64) ((val / 2 ^ 12) mod 64) 0 0 in
  ((q / 2 ^ 16) mod 256 = A)%N.
Proof.
  intros HA val q. subst q.
  rewrite quantum4_arith by (try (apply N.mod_lt; discriminate); lia).
  subst val. pow2. zify; euclid.
Qed.

Lemma b64val_padChar : b64val padChar = None.
Proof. reflexivity. Qed.

Lemma byte_of_N_of_ascii (x : N) (a : ascii) :
  (x mod 256 = N_of_ascii a)%N -> byte_of x = a.
Proof.
  intros H. rewrite byte_of_val, H. apply ascii_N_embedding.
Qed.

Lemma decodeQuanta_encode (d : bytes) :
  decodeQuanta (base64_EncodeToString d) = Some d.
Proof.
  induction d as [| a | a b | a b c rest IH] using list_ind3.
  - reflexivity.
  - cbn [base64_EncodeToString decodeQuanta].
    rewrite !sextet_b64val, b64val_padChar. cbn [Ascii.eqb length Nat.eqb andb].
    rewrite Ascii.eqb_refl. cbn [andb]. rewrite quantum3_arith.
    change (N_of_ascii zeroByte) with 0%N.
    pose proof (quantum_bytes1 (N_of_ascii a) (N_ascii_bounded a)) as Hq.
    cbv zeta in Hq. rewrite N.shiftr_div_pow2.
    now rewrite (byte_of_N_of_ascii _ a Hq).
  - cbn [base64_EncodeToString decodeQuanta].
    rewrite !sextet_b64val, b64val_padChar.
    rewrite Ascii.eqb_refl. cbn [length Nat.eqb andb]. rewrite quantum3_arith.
    change (N_of_ascii zeroByte) with 0%N.
    pose proof (quantum_bytes2 (N_of_ascii a) (N_of_ascii b)
                  (N_ascii_bounded a) (N_ascii_bounded b)) as [Hq1 Hq2].
    rewrite !N.shiftr_div_pow2.
    now rewrite (byte_of_N_of_ascii _ a Hq1), (byte_of_N_of_ascii _ b Hq2).
  - cbn [base64_EncodeToString decodeQuanta].
    rewrite !sextet_b64val, IH. rewrite quantum3_arith.
    pose proof (quantum_bytes (N_of_ascii a) (N_of_ascii b) (N_of_ascii c)
                  (N_ascii_bounded a) (N_ascii_bounded b) (N_ascii_bounded c))
      as (Hq1 & Hq2 & Hq3).
    rewrite !N.shiftr_div_pow2.
    now rewrite (byte_of_N_of_ascii _ a Hq1), (byte_of_N_of_ascii _ b Hq2),
      (byte_of_N_of_ascii _ c Hq3).
Qed.

Lemma encode_no_newline (d : bytes) :
  filter (fun c => negb (isNewline c)) (base64_EncodeToString d)
  = base64_EncodeToString d.
Proof.
  induction d as [| a | a b | a b c rest IH] using list_ind3;
    cbn [base64_EncodeToString filter];
    rewrite ?sextet_not_newline; cbn [negb];
    change (isNewline padChar) with false; cbn [negb]; congruence.
Qed.

Lemma length_base64_EncodeToString (d : bytes) :
  length (base64_EncodeToString d) = 4 * ((length d + 2) / 3).
Proof.
  induction d as [| a | a b | a b c rest IH] using list_ind3;
    try reflexivity.
  cbn [base64_EncodeToString length]. rewrite IH.
  replace (S (S (S (length rest))) + 2) with (length rest + 2 + 1 * 3) by lia.
  rewrite Nat.div_add by discriminate. lia.
Qed.

Lemma base64_Decode_encode (dstLen : nat) (d : bytes) :
  length d <= dstLen ->
  base64_Decode dstLen (base64_EncodeToString d) = Val (d, length d).
Proof.
  intros Hlen. unfold base64_Decode.
  rewrite encode_no_newline, decodeQuanta_encode.
  now apply Nat.leb_le in Hlen as ->.
Qed.

Lemma hex_byte_hexVal (c : ascii) :
  match hex_byte c with
  | [h; l] =>
      match hexVal h, hexVal l with
      | Some a, Some b => Ascii.eqb (byte_of (N.lor (N.shiftl a 4) b)) c
      | _, _ => false
      end
  | _ => false
  end = true.
Proof.
  destruct c as [[] [] [] [] [] [] [] []]; vm_compute; reflexivity.
Qed.

Lemma hexDecode_hex_byte (c : ascii) (rest : bytes) :
  hexDecode (hex_byte c ++ rest)
  = match hexDecode rest with Some out => Some (c :: out) | None => None end.
Proof.
  pose proof (hex_byte_hexVal c) as H.
  unfold hex_byte in *. cbn [app hexDecode].
  destruct (hexVal (hexdigit (N.shiftr (N_of_ascii c) 4))) as [a |];
    [| discriminate].
  destruct (hexVal (hexdigit (N.land (N_of_ascii c) 15))) as [b |];
    [| discriminate].
  apply Ascii.eqb_eq in H. now rewrite H.
Qed.

Lemma hexDecode_encode (d : bytes) : hexDecode (hex_EncodeToString d) = Some d.
Proof.
  induction d as [| c d IH]; [reflexivity |].
  unfold hex_EncodeToString in *. cbn [flat_map].
  now rewrite hexDecode_hex_byte, IH.
Qed.

Lemma length_hex_EncodeToString (d : bytes) :
  length (hex_EncodeToString d) = 2 * length d.
Proof.
  induction d as [| c d IH]; [reflexivity |].
  unfold hex_EncodeToString in *. cbn [flat_map hex_byte app length].
  rewrite IH. lia.
Qed.

Lemma hexVal_inv (h : ascii) (a : N) :
  hexVal h = Some a -> (a < 16)%N /\ hexdigit a = h.
Proof.
  destruct h as [[] [] [] [] [] [] [] []]; vm_compute; intros [=]; subst;
    split; reflexivity.
Qed.

Lemma hex_byte_nibbles (a b : N) :
  (a < 16)%N -> (b < 16)%N ->
  hex_byte (byte_of (N.lor (N.shiftl a 4) b)) = [hexdigit a; hexdigit b].
Proof.
  intros Ha Hb. rewrite <- (N2Nat.id a), <- (N2Nat.id b).
  assert (Hna : N.to_nat a < 16) by lia.
  assert (Hnb : N.to_nat b < 16) by lia.
  revert Hna Hnb. generalize (N.to_nat a) as n, (N.to_nat b) as m.
  intros n m Hn Hm.
  do 16 (destruct n as [| n];
         [do 16 (destruct m as [| m]; [reflexivity |]); lia |]).
  lia.
Qed.

Lemma list_ind2 {A : Type} (P : list A -> Prop) :
  P [] -> (forall a, P [a]) ->
  (forall a b l, P l -> P (a :: b :: l)) ->
  forall l, P l.
Proof.
  intros H0 H1 H2.
  fix IH 1. intros [| a [| b l]].
  - exact H0.
  - apply H1.
  - apply H2. apply IH.
Qed.

Lemma hexDecode_inv (s d : bytes) :
  hexDecode s = Some d -> hex_EncodeToString d = s /\ length s = 2 * length d.
Proof.
  revert d. induction s as [| h | h l rest IH] using list_ind2; intros d H.
  - injection H as <-. split; reflexivity.
  - discriminate.
  - cbn [hexDecode] in H.
    destruct (hexVal h) as [a |] eqn:Ea; [| discriminate].
    destruct (hexVal l) as [b |] eqn:Eb; [| discriminate].
    destruct (hexDecode rest) as [out |] eqn:Er; [| discriminate].
    injection H as <-.
    apply hexVal_inv in Ea as [Ha <-]. apply hexVal_inv in Eb as [Hb <-].
    destruct (IH out eq_refl) as [IH1 IH2].
    unfold hex_EncodeToString in *. cbn [flat_map].
    rewrite hex_byte_nibbles by assumption.
    cbn [app length]. rewrite IH1, IH2. split; [reflexivity | lia].
Qed.

(** ** Strings and slices *)

Lemma list_ascii_of_string_app (s1 s2 : string) :
  list_ascii_of_string (s1 ++ s2)
  = list_ascii_of_string s1 ++ list_ascii_of_string s2.
Proof.
  induction s1 as [| c s1 IH]; [reflexivity |].
  cbn [String.append list_ascii_of_string app]. now rewrite IH.
Qed.

Lemma length_list_ascii_of_string (s : string) :
  length (list_ascii_of_string s) = String.length s.
Proof.
  induction s as [| c s IH]; [reflexivity |].
  cbn [list_ascii_of_string length String.length]. now rewrite IH.
Qed.

Lemma IndexByte_Some (t : bytes) (c : ascii) (i : nat) :
  bytes_IndexByte t c = Some i ->
  exists pre post, t = pre ++ c :: post /\ length pre = i /\ ~ In c pre.
Proof.
  revert i. induction t as [| x t IH]; intros i H; [discriminate |].
  cbn [bytes_IndexByte] in H. destruct (Ascii.eqb_spec x c) as [-> | Hne].
  - injection H as <-. exists [], t. repeat split. intros [].
  - destruct (bytes_IndexByte t c) as [j |] eqn:Ej; [| discriminate].
    injection H as <-. destruct (IH j eq_refl) as (pre & post & -> & <- & Hn).
    exists (x :: pre), post. repeat split. intros [He | Hin]; auto.
Qed.

Lemma IndexByte_app (pre post : bytes) (c : ascii) :
  ~ In c pre -> bytes_IndexByte (pre ++ c :: post) c = Some (length pre).
Proof.
  induction pre as [| x pre IH]; intros Hn; cbn [app bytes_IndexByte length].
  - now rewrite Ascii.eqb_refl.
  - destruct (Ascii.eqb_spec x c) as [-> | Hne].
    + exfalso. apply Hn. now left.
    + rewrite IH; [reflexivity |]. intros Hin. apply Hn. now right.
Qed.

Lemma firstn_app_exact {A : Type} (l1 l2 : list A) :
  firstn (length l1) (l1 ++ l2) = l1.
Proof.
  rewrite <- (Nat.add_0_r (length l1)), firstn_app_2.
  cbn [firstn]. apply app_nil_r.
Qed.

Lemma skipn_app_exact {A : Type} (l1 l2 : list A) :
  skipn (length l1) (l1 ++ l2) = l2.
Proof.
  rewrite skipn_app, skipn_all, Nat.sub_diag. reflexivity.
Qed.

(** ** Reference codec *)

Section CodecFacts.

Variable hashSize : string -> option nat.
Variable sliceCap : nat -> nat.
Hypothesis sliceCap_ge : forall n, n <= sliceCap n.

(** What a successful [blob.Parse] tells about its input. *)
Lemma blob_Parse_inv (s : string) (d : digest) :
  blob_Parse hashSize s = Some d ->
  exists pre,
    list_ascii_of_string s
    = pre ++ "-"%char :: hex_EncodeToString (sum d)
    /\ ~ In "-"%char pre
    /\ hashName d = string_of_list_ascii pre
    /\ hashSize (hashName d) = Some (length (sum d)).
Proof.
  unfold blob_Parse. intros H.
  destruct (bytes_IndexByte (list_ascii_of_string s) "-") as [i |] eqn:Ei;
    [| discriminate].
  destruct (IndexByte_Some _ _ _ Ei) as (pre & post & Ht & <- & Hn).
  rewrite Ht in H.
  rewrite firstn_app_exact in H.
  replace (length pre + 1) with (length (pre ++ ["-"%char])) in H
    by (rewrite length_app; reflexivity).
  change (pre ++ "-"%char :: post) with (pre ++ ["-"%char] ++ post) in H.
  rewrite app_assoc, skipn_app_exact in H.
  destruct (hashSize (string_of_list_ascii pre)) as [size |] eqn:Esz;
    [| discriminate].
  destruct (length post =? 2 * size) eqn:El; [| discriminate].
  destruct (hexDecode post) as [out |] eqn:Eh; [| discriminate].
  injection H as <-. cbn [hashName sum].
  apply hexDecode_inv in Eh as [Henc Hlen].
  apply Nat.eqb_eq in El.
  exists pre. rewrite Ht, Henc, Esz. repeat split; auto.
  f_equal. lia.
Qed.

(** [blob.Parse] reads back the canonical text of a registered digest. *)
Lemma blob_Parse_canonical (pre : bytes) (d : bytes) :
  ~ In "-"%char pre ->
  hashSize (string_of_list_ascii pre) = Some (length d) ->
  blob_Parse hashSize
    (string_of_list_ascii (pre ++ "-"%char :: hex_EncodeToString d))
  = Some (mkDigest (string_of_list_ascii pre) d).
Proof.
  intros Hn Hsz. unfold blob_Parse.
  rewrite list_ascii_of_string_of_list_ascii, IndexByte_app by assumption.
  rewrite firstn_app_exact, Hsz.
  replace (length pre + 1) with (length (pre ++ ["-"%char]))
    by (rewrite length_app; reflexivity).
  change (pre ++ "-"%char :: hex_EncodeToString d)
    with (pre ++ ["-"%char] ++ hex_EncodeToString d).
  rewrite app_assoc, skipn_app_exact.
  rewrite length_hex_EncodeToString, Nat.eqb_refl, hexDecode_encode.
  reflexivity.
Qed.

(** [Base64ToRef] on the short form of a registered digest. *)
Lemma Base64ToRef_short (pre d : bytes) :
  ~ In "-"%char pre ->
  hashSize (string_of_list_ascii pre) = Some (length d) ->
  tagFits (string_of_list_ascii pre) (length d) ->
  Base64ToRef hashSize sliceCap
    (string_of_list_ascii (pre ++ "-"%char :: base64_EncodeToString d))
  = Val (Some (mkDigest (string_of_list_ascii pre) d)).
Proof.
  intros Hn Hsz (Hlow & Hle & H64 & H128).
  rewrite list_ascii_of_string_of_list_ascii in Hlow.
  rewrite <- length_list_ascii_of_string,
    list_ascii_of_string_of_list_ascii in Hle, H128.
  unfold Base64ToRef.
  rewrite list_ascii_of_string_of_list_ascii.
  rewrite <- length_list_ascii_of_string,
    list_ascii_of_string_of_list_ascii.
  set (t := pre ++ "-"%char :: base64_EncodeToString d).
  assert (Hlt : length t = length pre + 1 + 4 * ((length d + 2) / 3)).
  { unfold t. rewrite length_app. cbn [length].
    rewrite length_base64_EncodeToString. lia. }
  assert (Hi : (if 2 * 64 <? length t then 2 * 64 else length t) = length t).
  { destruct (Nat.ltb_spec (2 * 64) (length t)); lia. }
  rewrite Hi, firstn_all.
  unfold t at 1. rewrite IndexByte_app by assumption.
  assert (Hskip : skipn (length pre + 1) t = base64_EncodeToString d).
  { unfold t.
    replace (length pre + 1) with (length (pre ++ ["-"%char]))
      by (rewrite length_app; reflexivity).
    change (pre ++ "-"%char :: base64_EncodeToString d)
      with (pre ++ ["-"%char] ++ base64_EncodeToString d).
    now rewrite app_assoc, skipn_app_exact. }
  rewrite Hskip, base64_Decode_encode by exact H64.
  assert (Hcopy : bytes_ToLower (firstn (length pre) t)
                    ++ skipn (length pre) t = t).
  { unfold t. rewrite firstn_app_exact, skipn_app_exact, Hlow. reflexivity. }
  rewrite Hcopy.
  set (t2 := t ++ repeat zeroByte (sliceCap (length t) - length t)).
  set (n := (2 * Z.of_nat (length d) - Z.of_nat (length t2)
             + Z.of_nat (length d) + 1)%Z).
  set (t3 := if (0 <? n)%Z then t2 ++ repeat zeroByte (Z.to_nat n) else t2).
  assert (Ht3 : exists zs, t3 = t ++ zs
                           /\ 3 * length d + 1 <= length (t ++ zs)).
  { assert (Hl2 : length t2 = sliceCap (length t)).
    { unfold t2. rewrite length_app, repeat_length.
      pose proof (sliceCap_ge (length t)). lia. }
    unfold t3. destruct (Z.ltb_spec 0 n) as [Hpos | Hneg].
    - exists (repeat zeroByte (sliceCap (length t) - length t)
                ++ repeat zeroByte (Z.to_nat n)).
      split; [unfold t2; now rewrite app_assoc |].
      rewrite app_assoc. fold t2. rewrite length_app, repeat_length.
      unfold n in *. lia.
    - exists (repeat zeroByte (sliceCap (length t) - length t)).
      split; [reflexivity |]. fold t2. unfold n in *. lia. }
  destruct Ht3 as (zs & -> & Hlen3).
  assert (Hskip3 : skipn (length pre + 1) (t ++ zs)
                   = base64_EncodeToString d ++ zs).
  { rewrite skipn_app, Hskip. f_equal.
    replace (length pre + 1 - length t) with 0 by lia. reflexivity. }
  rewrite Hskip3. unfold hex_Encode.
  assert (Hfit : 2 * length d <= length (base64_EncodeToString d ++ zs)).
  { rewrite <- Hskip3, length_skipn. lia. }
  apply Nat.leb_le in Hfit as ->.
  assert (Hfirst : firstn (length pre + 1) (t ++ zs) = pre ++ ["-"%char]).
  { unfold t.
    change (pre ++ "-"%char :: base64_EncodeToString d)
      with (pre ++ ["-"%char] ++ base64_EncodeToString d).
    rewrite !app_assoc, <- app_assoc.
    replace (length pre + 1) with (length (pre ++ ["-"%char]))
      by (rewrite length_app; reflexivity).
    apply firstn_app_exact. }
  rewrite Hfirst.
  assert (Harg :
    firstn (length pre + 1 + 2 * length d)
      ((pre ++ ["-"%char])
         ++ hex_EncodeToString d
         ++ skipn (2 * length d) (base64_EncodeToString d ++ zs))
    = pre ++ "-"%char :: hex_EncodeToString d).
  { rewrite app_assoc.
    replace (length pre + 1 + 2 * length d)
      with (length ((pre ++ ["-"%char]) ++ hex_EncodeToString d))
      by (rewrite !length_app, length_hex_EncodeToString; reflexivity).
    rewrite firstn_app_exact, <- app_assoc. reflexivity. }
  rewrite Harg, blob_Parse_canonical by assumption.
  reflexivity.
Qed.

End CodecFacts.

(** ** The streaming download pipeline *)

Lemma delivered_app (c1 c2 : list rwCall) :
  delivered (c1 ++ c2) = delivered c1 ++ delivered c2.
Proof.
  induction c1 as [| [k v | code | p] c1 IH]; cbn [app delivered]; auto.
  now rewrite IH, app_assoc.
Qed.

Lemma headerCalls_app (c1 c2 : list rwCall) :
  headerCalls (c1 ++ c2) = headerCalls c1 + headerCalls c2.
Proof.
  induction c1 as [| [k v | code | p] c1 IH]; cbn [app headerCalls]; auto.
  now rewrite IH.
Qed.

Section RespWriterFacts.

Variable MatchMime : string -> bytes -> string.
Variable w_Write : list rwCall -> bytes -> Z * option error.

(** What holds of a writer that has received [sofar] and has not yet
    reached the sniff threshold. *)
Definition below_threshold (w : respWriter) (sofar : bytes) : Prop :=
  if w_headerWritten w
  then delivered (w_calls w) = sofar
       /\ headerCalls (w_calls w) = 1
       /\ w_buf w = []
  else delivered (w_calls w) = []
       /\ headerCalls (w_calls w) = 0
       /\ w_buf w = sofar
       /\ (mimeUnknown (w_okMime w) = false -> sofar = []).

Lemma newRespWriter_below cache name okMime :
  below_threshold (newRespWriter cache [] name okMime) [].
Proof.
  unfold below_threshold, newRespWriter. cbn. auto.
Qed.

Lemma Write_below w cache p sofar :
  below_threshold w sofar ->
  length (sofar ++ p) < 1024 ->
  below_threshold (fst (fst (respWriter_Write MatchMime w_Write w cache p)))
                  (sofar ++ p).
Proof.
  unfold below_threshold, respWriter_Write.
  destruct (w_headerWritten w) eqn:Ehw; cbn [negb].
  - intros (Hd & Hh & Hb) _. unfold underlyingWrite. cbn.
    rewrite delivered_app, headerCalls_app, Hd, Hh, Hb. cbn.
    rewrite app_nil_r. auto.
  - intros (Hd & Hh & Hb & Hk) Hlen.
    destruct (mimeUnknown (w_okMime w)) eqn:Eu.
    + rewrite Hb. apply Nat.ltb_lt in Hlen as ->. cbn.
      rewrite Eu. repeat split; auto. discriminate.
    + specialize (Hk eq_refl). rewrite Hk in Hb |- *.
      unfold writeThrough, underlyingWrite. cbn.
      destruct (negb (w_okMime w =? "")%string);
        rewrite ?delivered_app, ?headerCalls_app, Hd, Hh, Hb; cbn;
        rewrite ?app_nil_r; auto.
Qed.

Lemma writeAll_below chunks : forall w cache sofar,
  below_threshold w sofar ->
  length (sofar ++ concat chunks) < 1024 ->
  below_threshold (fst (writeAll MatchMime w_Write w cache chunks))
                  (sofar ++ concat chunks).
Proof.
  induction chunks as [| p chunks IH]; intros w cache sofar Hw Hlen.
  - cbn. now rewrite app_nil_r.
  - cbn [concat writeAll] in *. rewrite app_assoc in *.
    pose proof (Write_below w cache p sofar Hw) as Hstep.
    destruct (respWriter_Write MatchMime w_Write w cache p) as [[w' cache'] r].
    cbn [fst] in Hstep. apply IH; [| exact Hlen].
    apply Hstep. rewrite !length_app in Hlen. rewrite length_app. lia.
Qed.

Lemma Close_below w sofar :
  below_threshold w sofar ->
  delivered (w_calls (fst (respWriter_Close w_Write w))) = sofar
  /\ headerCalls (w_calls (fst (respWriter_Close w_Write w))) <= 1.
Proof.
  unfold below_threshold, respWriter_Close.
  destruct (w_headerWritten w).
  - intros (Hd & Hh & Hb). rewrite Hb. cbn. rewrite Hd, Hh. auto.
  - intros (Hd & Hh & Hb & _). rewrite Hb.
    destruct sofar as [| c sofar]; cbn.
    + rewrite Hd, Hh. auto.
    + rewrite delivered_app, headerCalls_app, Hd, Hh. cbn.
      rewrite app_nil_r. auto.
Qed.

End RespWriterFacts.

(** C4.  A stream shorter than the 1024-byte sniff threshold, written to
    the response writer in any number of chunks and then closed, reaches
    the wrapped writer as exactly the original bytes in order, with at most
    one [WriteHeader] call, whatever the name, the known mime type, the
    cache and the sniffer are. *)
Theorem short_stream_flushed_verbatim
  (MatchMime : string -> bytes -> string)
  (w_Write : list rwCall -> bytes -> Z * option error) (cache : MimeCache)
  (name okMime : string) (chunks : list bytes) :
  length (concat chunks) < 1024 ->
  delivered (stream MatchMime w_Write cache name okMime chunks) = concat chunks
  /\ headerCalls (stream MatchMime w_Write cache name okMime chunks) <= 1.
Proof.
  intros Hlen. unfold stream.
  pose proof (writeAll_below MatchMime w_Write chunks
                (newRespWriter cache [] name okMime) cache []
                (newRespWriter_below cache name okMime) Hlen) as Hw.
  destruct (writeAll MatchMime w_Write (newRespWriter cache [] name okMime) cache chunks)
    as [w cache'].
  cbn [fst app] in Hw. now apply Close_below.
Qed.

Lemma short_stream_flushed_verbatim_witness :
  let chunks := [list_ascii_of_string "hel"; list_ascii_of_string "lo"] in
  length (concat chunks) < 1024
  /\ delivered (stream (fun m _ => m)
                       (fun _ p => (Z.of_nat (length p), None))
                       (fun _ => "") "key" "" chunks)
     = concat chunks
  /\ headerCalls (stream (fun m _ => m)
                         (fun _ p => (Z.of_nat (length p), None))
                         (fun _ => "") "key" "" chunks) <= 1.
Proof.
  cbv zeta. split; [vm_compute; lia |].
  apply (short_stream_flushed_verbatim (fun m _ => m)
           (fun _ p => (Z.of_nat (length p), None)) (fun _ => "") "key" ""
           [list_ascii_of_string "hel"; list_ascii_of_string "lo"]).
  vm_compute; lia.
Defined.

(** ** Modification-time resolution *)

Section ModTimeFacts.

Variable time_Parse : string -> string -> option Time.

(** [timeParse] never reports success: its [ok] is never set. *)
Lemma timeParse_loop_not_ok patterns t text :
  snd (timeParse_loop time_Parse false patterns t text) = false.
Proof.
  revert t. induction patterns as [| p ps IH]; intros t; cbn; auto.
  destruct (time_Parse p text); cbn; auto.
Qed.

Lemma timeParse_not_ok text : snd (timeParse time_Parse text) = false.
Proof. apply timeParse_loop_not_ok. Qed.

Lemma ParseInt_nonempty s q : strconv_ParseInt s = Some q -> s <> "".
Proof. intros H ->. discriminate. Qed.

End ModTimeFacts.

(** C1.  What the code does where the claim has the header win: with a
    [Last-Modified] header that parses as RFC1123 and an [mtime] that is a
    decimal Unix timestamp, [parseLastModified] returns the time of the
    timestamp, not that of the header. *)
Theorem timestamp_overrides_parsed_header
  (time_Parse : string -> string -> option Time)
  (lastModHeader mtimeHeader : string) (t : Time) (qmt : Z) :
  time_Parse time_RFC1123 lastModHeader = Some t ->
  String.length mtimeHeader < 23 ->
  strconv_ParseInt mtimeHeader = Some qmt ->
  parseLastModified time_Parse lastModHeader mtimeHeader = time_Unix qmt 0.
Proof.
  intros _ Hlen Hint. unfold parseLastModified.
  assert (Hhdr : snd (if negb (lastModHeader =? "")%string
                      then timeParse time_Parse lastModHeader
                      else (zeroTime, false)) = false).
  { destruct (negb (lastModHeader =? "")%string); [| reflexivity].
    apply timeParse_not_ok. }
  destruct (if negb (lastModHeader =? "")%string
            then timeParse time_Parse lastModHeader
            else (zeroTime, false)) as [lastmod ok].
  cbn [snd] in Hhdr. subst ok.
  apply ParseInt_nonempty in Hint as Hne.
  apply String.eqb_neq in Hne. rewrite Hne.
  destruct (Nat.leb_spec 23 (String.length mtimeHeader)); [lia |].
  now rewrite Hint.
Qed.

Lemma timestamp_overrides_parsed_header_witness :
  exampleParse time_RFC1123 "Mon, 02 Jan 2006 15:04:05 MST"
  = Some (mkTime 1136239445 0)
  /\ String.length "1000000000" < 23
  /\ strconv_ParseInt "1000000000" = Some 1000000000%Z
  /\ parseLastModified exampleParse "Mon, 02 Jan 2006 15:04:05 MST"
                       "1000000000"
     = time_Unix 1000000000 0.
Proof.
  split; [reflexivity |]. split; [vm_compute; lia |].
  split; [reflexivity |].
  apply (timestamp_overrides_parsed_header exampleParse
           "Mon, 02 Jan 2006 15:04:05 MST" "1000000000"
           (mkTime 1136239445 0) 1000000000).
  - reflexivity.
  - vm_compute; lia.
  - reflexivity.
Defined.

(** ** The multipart ingestor *)

Section IngestFacts.

Variable time_Parse : string -> string -> option Time.

(** With every part stored, the loop runs to the failure of [NextPart]
    and keeps one file name and one mime type per file part; and every
    file part is on the disk by then: its file was created and its content
    written to it. *)
Lemma saveParts_materializes destDir parts :
  Forall partStored parts ->
  forall qmtime filenames mimetypes ops,
  exists ops',
    saveParts time_Parse destDir parts qmtime filenames mimetypes ops
    = inr (filenames ++ map (partTarget destDir) (filter isFilePart parts),
           mimetypes ++ map p_ContentType (filter isFilePart parts),
           ops')
    /\ (forall o, In o ops -> In o ops')
    /\ (forall part,
          In part parts -> isFilePart part = true ->
          In (OpCreate (partTarget destDir part)) ops'
          /\ In (OpWrite (partTarget destDir part) (p_body part)) ops').
Proof.
  induction 1 as [| part parts [Hc Hr] _ IH];
    intros qmtime filenames mimetypes ops.
  - exists ops. cbn. rewrite !app_nil_r. split; [reflexivity |].
    split; [auto |]. intros part [].
  - cbn [saveParts filter].
    assert (Hfp : isFilePart part = negb (p_FileName part =? "")%string)
      by reflexivity.
    rewrite !Hfp.
    destruct (p_FileName part =? "")%string eqn:En; cbn [negb].
    + match goal with
      | |- context [saveParts _ _ parts ?q ?f ?m ?o] =>
          destruct (IH q f m o) as (ops' & -> & Hkeep & Hall)
      end.
      exists ops'. split; [reflexivity |]. split; [exact Hkeep |].
      intros p0 [<- | Hin] Hfile; [| now apply Hall].
      rewrite Hfp in Hfile. discriminate.
    + rewrite Hc, Hr.
      match goal with
      | |- context [saveParts _ _ parts ?q ?f ?m ?o] =>
          destruct (IH q f m o) as (ops' & -> & Hkeep & Hall)
      end.
      exists ops'. cbn [map]. unfold partTarget at 2.
      rewrite <- !app_assoc. split; [reflexivity |].
      assert (Hmine : forall o,
                 In o [OpCreate (partTarget destDir part);
                       OpWrite (partTarget destDir part) (p_body part)] ->
                 In o ops').
      { intros o Ho. apply Hkeep.
        destruct (negb (Time_IsZero _)); [apply in_or_app; left |];
          apply in_or_app; right; exact Ho. }
      split.
      * intros o Ho. apply Hkeep.
        destruct (negb (Time_IsZero _)); [apply in_or_app; left |];
          apply in_or_app; left; exact Ho.
      * intros p0 [<- | Hin] Hfile; [| now apply Hall].
        split; apply Hmine; cbn; auto.
Qed.

End IngestFacts.



(** ** The upload handler *)

Section HandlerFacts.

Variable time_Parse : string -> string -> option Time.
Variable mime_ParseMediaType
  : string -> string * (string -> string) * option error.
Variable ioutil_TempDir : string * option error.
Variable ioutil_TempFile : string -> string * option error.
Variable os_Create : string -> option error.
Variable os_Chtimes : string -> option error.
Variable UploadFile : string -> bool -> Ref * Ref * option error.
Variable flagParanoid : string.

Local Abbreviation ingestE :=
  (ingest time_Parse mime_ParseMediaType ioutil_TempFile os_Create os_Chtimes).
Local Abbreviation handlePostE :=
  (handlePost time_Parse mime_ParseMediaType ioutil_TempDir ioutil_TempFile
              os_Create os_Chtimes UploadFile flagParanoid).

(** A multipart body hands the handler the files of [saveMultipartTo]
    and the error of [ParseMediaType], never that of [saveMultipartTo]. *)
Lemma ingest_multipart dn r params mr :
  mime_ParseMediaType (r_Header r "Content-Type")
  = ("multipart/form-data", params, None) ->
  r_MultipartReader r = (mr, None) ->
  exists qmtime,
    ingestE dn r
    = inr (s_filenames (saveMultipartTo time_Parse dn mr qmtime),
           s_mimetypes (saveMultipartTo time_Parse dn mr qmtime), None).
Proof.
  intros Hct Hmr. unfold ingest. rewrite Hct, Hmr. cbn.
  eexists. reflexivity.
Qed.

(** Once the files are there and the upload succeeds, the answer is 201,
    unless the archiver's path computation panics, and it is made from
    what [UploadFile] returned for the one file, or for the temporary
    directory when there are more. *)
Lemma handlePost_uploads_answer cache r dn f filenames mimetypes content perma :
  ioutil_TempDir = (dn, None) ->
  ingestE dn r = inr (f :: filenames, mimetypes, None) ->
  UploadFile (match filenames with [] => f | _ => dn end)
             (String.eqb (r_Query r "permanode") "1")
  = (content, perma, None) ->
  getParanoidPath flagParanoid content <> Panic ->
  status (fst (handlePostE cache r)) = 201
  /\ respBody (fst (handlePostE cache r))
     = (let short := String.eqb (r_Query r "short") "1" in
        let b := if short then RefToBase64 content else Ref_String content in
        if Ref_Valid perma then
          (b ++ String (ascii_of_nat 10) ""
             ++ (if short then RefToBase64 perma else Ref_String perma))%string
        else b).
Proof.
  intros Hdn Hin Hup Hnp. unfold handlePost. rewrite Hdn, Hin.
  assert (Hsome :
            match f :: filenames with
            | [] => None
            | [f0] => Some (UploadFile f0 (r_Query r "permanode" =? "1")%string)
            | _ :: _ :: _ =>
                Some (UploadFile dn (r_Query r "permanode" =? "1")%string)
            end = Some (content, perma, None)).
  { rewrite <- Hup. destruct filenames; reflexivity. }
  rewrite Hsome.
  destruct (getParanoidPath flagParanoid content) as [dest | e |] eqn:Eg;
    [| | congruence].
  - destruct ((length (f :: filenames) =? 1)
              && negb (flagParanoid =? "")%string); split; reflexivity.
  - exfalso. unfold getParanoidPath in Eg.
    destruct ((flagParanoid =? "")%string || negb (Ref_Valid content));
      [discriminate |].
    destruct (bytes_IndexByte _ _); [| discriminate].
    destruct (6 <=? _); discriminate.
Qed.

End HandlerFacts.

(** C10.  When [NextPart] fails in mid-stream after every part so far was
    stored, one file part or more among them, [saveMultipartTo] returns
    the files stored so far and a nil error, each of these files having
    been created and written with the content of its part; and the
    handler goes on as after a well-formed body: it uploads the one file,
    or the temporary directory when there are more, and answers 201 with
    the reference [UploadFile] returned for it. *)
Theorem midstream_failure_is_swallowed
  (time_Parse : string -> string -> option Time)
  (mime_ParseMediaType : string -> string * (string -> string) * option error)
  (ioutil_TempDir : string * option error)
  (ioutil_TempFile : string -> string * option error)
  (os_Create os_Chtimes : string -> option error)
  (UploadFile : string -> bool -> Ref * Ref * option error)
  (flagParanoid : string) (cache : MimeCache) (r : Request)
  (dn : string) (params : string -> string) (parts : list Part) (e : error) :
  is_EOF e = false ->
  Forall partStored parts ->
  filter isFilePart parts <> [] ->
  ioutil_TempDir = (dn, None) ->
  mime_ParseMediaType (r_Header r "Content-Type")
  = ("multipart/form-data", params, None) ->
  r_MultipartReader r = (mkReader parts e, None) ->
  (forall path permanode,
      exists content perma,
        UploadFile path permanode = (content, perma, None)
        /\ getParanoidPath flagParanoid content <> Panic) ->
  (forall destDir qmtime,
      let s := saveMultipartTo time_Parse destDir (mkReader parts e) qmtime in
      s_err s = None
      /\ s_filenames s = map (partTarget destDir) (filter isFilePart parts)
      /\ s_mimetypes s = map p_ContentType (filter isFilePart parts)
      /\ (forall part,
            In part parts -> isFilePart part = true ->
            In (OpCreate (partTarget destDir part)) (s_ops s)
            /\ In (OpWrite (partTarget destDir part) (p_body part))
                  (s_ops s)))
  /\ (let resp :=
        fst (handlePost time_Parse mime_ParseMediaType ioutil_TempDir
               ioutil_TempFile os_Create os_Chtimes UploadFile
               flagParanoid cache r) in
      let uploaded :=
        match map (partTarget dn) (filter isFilePart parts) with
        | [f] => f
        | _ => dn
        end in
      let up := UploadFile uploaded (String.eqb (r_Query r "permanode") "1") in
      let content := fst (fst up) in
      let perma := snd (fst up) in
      let short := String.eqb (r_Query r "short") "1" in
      let b := if short then RefToBase64 content else Ref_String content in
      status resp = 201
      /\ respBody resp
         = if Ref_Valid perma then
             (b ++ String (ascii_of_nat 10) ""
                ++ (if short then RefToBase64 perma
                    else Ref_String perma))%string
           else b).
Proof.
  intros _ Hstored Hfiles Hdn Hct Hmr Hup.
  assert (Hsave : forall destDir qmtime,
    let s := saveMultipartTo time_Parse destDir (mkReader parts e) qmtime in
    s_err s = None
    /\ s_filenames s = map (partTarget destDir) (filter isFilePart parts)
    /\ s_mimetypes s = map p_ContentType (filter isFilePart parts)
    /\ (forall part,
          In part parts -> isFilePart part = true ->
          In (OpCreate (partTarget destDir part)) (s_ops s)
          /\ In (OpWrite (partTarget destDir part) (p_body part))
                (s_ops s))).
  { intros destDir qmtime. unfold saveMultipartTo. cbn [mr_parts].
    destruct (saveParts_materializes time_Parse destDir parts Hstored
                qmtime [] [] []) as (ops' & -> & _ & Hall).
    cbn. auto. }
  split; [exact Hsave |].
  destruct (ingest_multipart time_Parse mime_ParseMediaType ioutil_TempFile
              os_Create os_Chtimes dn r params _ Hct Hmr) as [qmtime Hin].
  destruct (Hsave dn qmtime) as (_ & Hf & _). rewrite Hf in Hin.
  cbv zeta.
  destruct (map (partTarget dn) (filter isFilePart parts)) as [| f fs] eqn:Ef.
  { destruct (filter isFilePart parts); [contradiction | discriminate]. }
  set (uploaded := match f :: fs with [f0] => f0 | _ => dn end).
  destruct (Hup uploaded (String.eqb (r_Query r "permanode") "1"))
    as (content & perma & Hcall & Hnp).
  rewrite Hcall. cbn [fst snd].
  apply (handlePost_uploads_answer time_Parse mime_ParseMediaType
           ioutil_TempDir ioutil_TempFile os_Create os_Chtimes UploadFile
           flagParanoid cache r dn f fs _ content perma Hdn Hin);
    [| exact Hnp].
  rewrite <- Hcall. subst uploaded. destruct fs; reflexivity.
Qed.

Lemma midstream_failure_is_swallowed_witness :
  let s := saveMultipartTo exampleParse "/tmp/camproxy1"
             (mkReader [sampleFile]
                       (EnvError "multipart: NextPart: unexpected EOF")) "" in
  s_filenames s = ["/tmp/camproxy1/a.txt"]
  /\ s_err s = None
  /\ In (OpWrite "/tmp/camproxy1/a.txt" (list_ascii_of_string "hello"))
        (s_ops s)
  /\ fst (handlePost exampleParse plainMediaType sampleTempDir
            sampleTempFile noError noError sampleUpload ""
            (fun _ => "") brokenForm)
     = mkResponse 201 "sha1-0123456789abcdef0123456789abcdef01234567" None.
Proof.
  destruct (midstream_failure_is_swallowed exampleParse plainMediaType
              sampleTempDir sampleTempFile noError noError sampleUpload ""
              (fun _ => "") brokenForm "/tmp/camproxy1" (fun _ => "")
              [sampleFile] (EnvError "multipart: NextPart: unexpected EOF"))
    as [Hsave [Hstatus Hbody]].
  - reflexivity.
  - repeat constructor.
  - discriminate.
  - reflexivity.
  - reflexivity.
  - reflexivity.
  - intros path permanode. exists sampleRef, None. split; [reflexivity |].
    discriminate.
  - destruct (Hsave "/tmp/camproxy1" "") as (Herr & Hnames & _ & Hops).
    destruct (Hops sampleFile (or_introl eq_refl) eq_refl) as [_ Hwrite].
    cbv zeta. split; [exact Hnames |]. split; [exact Herr |].
    split; [exact Hwrite |].
    destruct (fst (handlePost _ _ _ _ _ _ _ _ _ _)) as [st body para] eqn:Er.
    cbn [status respBody] in Hstatus, Hbody. rewrite Hstatus, Hbody.
    f_equal. change para with (paranoid (mkResponse st body para)).
    rewrite <- Er. reflexivity.
Defined.

(** C5, as the claim has it, fails: a well-formed multipart form without
    any part materializes no file, and the handler answers "no files in
    request" with status 400, not 500. *)
Lemma no_files_is_not_500 :
  ingest exampleParse plainMediaType sampleTempFile noError noError
         "/tmp/camproxy1" emptyForm = inr ([], [], None)
  /\ fst (handlePost exampleParse plainMediaType sampleTempDir sampleTempFile
            noError noError sampleUpload "" (fun _ => "") emptyForm)
     = http_Error "no files in request" 400
  /\ status (fst (handlePost exampleParse plainMediaType sampleTempDir
                    sampleTempFile noError noError sampleUpload ""
                    (fun _ => "") emptyForm)) <> 500.
Proof.
  repeat split; try reflexivity. vm_compute. discriminate.
Qed.

(** C5, amended.  For every POST request whose parsing materializes zero
    files, the handler fails: with "no files in request" surfaced as HTTP
    status 400 when the parsing left the handler no error, and with that
    error surfaced as HTTP status 500 otherwise. *)
Theorem no_files_answers_400
  (time_Parse : string -> string -> option Time)
  (mime_ParseMediaType : string -> string * (string -> string) * option error)
  (ioutil_TempDir : string * option error)
  (ioutil_TempFile : string -> string * option error)
  (os_Create os_Chtimes : string -> option error)
  (UploadFile : string -> bool -> Ref * Ref * option error)
  (flagParanoid : string) (cache : MimeCache) (r : Request)
  (dn : string) (mimetypes : list string) (err : option error) :
  ioutil_TempDir = (dn, None) ->
  ingest time_Parse mime_ParseMediaType ioutil_TempFile os_Create os_Chtimes
         dn r = inr ([], mimetypes, err) ->
  fst (handlePost time_Parse mime_ParseMediaType ioutil_TempDir
         ioutil_TempFile os_Create os_Chtimes UploadFile flagParanoid cache r)
  = match err with
    | None => http_Error "no files in request" 400
    | Some e => http_Error (errText e) 500
    end.
Proof.
  intros Hdn Hin. unfold handlePost. rewrite Hdn, Hin.
  destruct err; reflexivity.
Qed.

Lemma no_files_answers_400_witness :
  fst (handlePost exampleParse plainMediaType sampleTempDir sampleTempFile
         noError noError sampleUpload "" (fun _ => "") emptyForm)
  = http_Error "no files in request" 400.
Proof.
  apply (no_files_answers_400 exampleParse plainMediaType sampleTempDir
           sampleTempFile noError noError sampleUpload "" (fun _ => "")
           emptyForm "/tmp/camproxy1" [] None).
  - reflexivity.
  - reflexivity.
Defined.

(** ** The paranoid archiver *)

Lemma substring_firstn_skipn (n m : nat) (s : string) :
  substring n m s
  = string_of_list_ascii (firstn m (skipn n (list_ascii_of_string s))).
Proof.
  revert n m. induction s as [| c s IH]; intros n m.
  - destruct n, m; reflexivity.
  - destruct n as [| n].
    + destruct m as [| m]; [reflexivity |].
      cbn [substring list_ascii_of_string skipn firstn string_of_list_ascii].
      f_equal. rewrite (IH 0 m). reflexivity.
    + cbn [substring list_ascii_of_string skipn]. apply IH.
Qed.

Lemma string_app_assoc (s1 s2 s3 : string) :
  ((s1 ++ s2) ++ s3 = s1 ++ s2 ++ s3)%string.
Proof.
  induction s1 as [| c s1 IH]; [reflexivity |].
  cbn [String.append]. now rewrite IH.
Qed.

(** The separator of a canonical text is found where the tag ends. *)
Lemma split_at_first_dash (pre1 post1 pre2 post2 : bytes) :
  ~ In "-"%char pre1 -> ~ In "-"%char pre2 ->
  pre1 ++ "-"%char :: post1 = pre2 ++ "-"%char :: post2 ->
  pre1 = pre2 /\ post1 = post2.
Proof.
  intros H1 H2 Heq.
  pose proof (IndexByte_app pre1 post1 "-"%char H1) as E1.
  pose proof (IndexByte_app pre2 post2 "-"%char H2) as E2.
  rewrite Heq in E1. rewrite E1 in E2. injection E2 as Hlen.
  assert (Hpre : pre1 = pre2).
  { rewrite <- (firstn_app_exact pre1 ("-"%char :: post1)), Heq, Hlen.
    apply firstn_app_exact. }
  subst pre2. apply app_inv_head in Heq. now injection Heq.
Qed.

(** C9.  For a valid reference whose canonical text is [algo-dig], with
    [dig] of six characters or more, and a configured backup root, the
    destination path is the root joined with the first three characters of
    [dig], the next three, and the canonical text followed by [.dat]. *)
Theorem paranoid_path_scheme
  (hashSize : string -> option nat) (root algo dig : string) (d : digest) :
  root <> "" ->
  ~ In "-"%char (list_ascii_of_string algo) ->
  blob_Parse hashSize (algo ++ "-" ++ dig) = Some d ->
  6 <= String.length dig ->
  getParanoidPath root (Some d)
  = Val (filepath_Join [root; substring 0 3 dig; substring 3 3 dig;
                        (algo ++ "-" ++ dig ++ ".dat")%string]).
Proof.
  intros Hroot Halgo Hparse Hlen.
  destruct (blob_Parse_inv hashSize _ _ Hparse) as (pre & Htxt & Hpre & Hname & _).
  rewrite !list_ascii_of_string_app in Htxt. cbn [list_ascii_of_string app] in Htxt.
  destruct (split_at_first_dash _ _ _ _ Halgo Hpre Htxt) as [<- Hdig].
  rewrite string_of_list_ascii_of_string in Hname.
  unfold getParanoidPath. apply String.eqb_neq in Hroot. rewrite Hroot.
  cbn [Ref_Valid negb orb].
  assert (Hstr : Ref_String (Some d) = (algo ++ "-" ++ dig)%string).
  { unfold Ref_String. rewrite Hname, <- Hdig.
    now rewrite string_of_list_ascii_of_string. }
  rewrite Hstr, !list_ascii_of_string_app.
  cbn [list_ascii_of_string app].
  rewrite IndexByte_app by assumption.
  replace (length (list_ascii_of_string algo) + 1)
    with (length (list_ascii_of_string algo ++ ["-"%char]))
    by (rewrite length_app; reflexivity).
  change (list_ascii_of_string algo ++ "-"%char :: list_ascii_of_string dig)
    with (list_ascii_of_string algo ++ ["-"%char] ++ list_ascii_of_string dig).
  rewrite app_assoc, skipn_app_exact, length_list_ascii_of_string.
  apply Nat.leb_le in Hlen as ->.
  rewrite !substring_firstn_skipn. cbn [skipn].
  rewrite !string_app_assoc. reflexivity.
Qed.

Lemma paranoid_path_scheme_witness :
  getParanoidPath "/backup"
    (blob_Parse sha1Table "sha1-0123456789abcdef0123456789abcdef01234567")
  = Val "/backup/012/345/sha1-0123456789abcdef0123456789abcdef01234567.dat".
Proof.
  change (blob_Parse sha1Table "sha1-0123456789abcdef0123456789abcdef01234567")
    with sampleRef.
  unfold sampleRef.
  rewrite (paranoid_path_scheme sha1Table "/backup" "sha1"
             "0123456789abcdef0123456789abcdef01234567").
  - reflexivity.
  - discriminate.
  - vm_compute. intuition discriminate.
  - reflexivity.
  - vm_compute; lia.
Defined.

(** C3.  For every valid canonical reference text [R], decoding the
    base64 short form of its parse gives the same reference back, the
    canonical text of that reference is [R] again, and [ParseBlobNames]
    reads [R] as that reference: the canonical and the short form convert
    into each other without loss.  The registered
    algorithms are those of the [blob] package; they are taken to fit the
    fixed buffers of [Base64ToRef] ([tagFits]), as SHA-1 does. *)
Theorem Base64ToRef_RefToBase64_roundtrip
  (hashSize : string -> option nat) (sliceCap : nat -> nat)
  (R : string) (d : digest) :
  (forall n, n <= sliceCap n) ->
  (forall name size, hashSize name = Some size -> tagFits name size) ->
  blob_Parse hashSize R = Some d ->
  Base64ToRef hashSize sliceCap (RefToBase64 (blob_Parse hashSize R))
  = Val (blob_Parse hashSize R)
  /\ Ref_String (blob_Parse hashSize R) = R
  /\ ParseBlobNames hashSize sliceCap [] [R] = Val [blob_Parse hashSize R].
Proof.
  intros Hcap Htab Hparse.
  assert (Hnames : ParseBlobNames hashSize sliceCap [] [R]
                   = Val [blob_Parse hashSize R]).
  { cbn [ParseBlobNames]. now rewrite Hparse. }
  apply and_assoc. split; [| exact Hnames]. clear Hnames.
  rewrite Hparse.
  destruct (blob_Parse_inv hashSize R d Hparse)
    as (pre & Htxt & Hpre & Hname & Hsize).
  pose proof (Htab _ _ Hsize) as Hfits. rewrite Hname in Hsize, Hfits.
  split.
  - unfold RefToBase64. rewrite Hname.
    replace (string_of_list_ascii pre ++ "-"
               ++ string_of_list_ascii (base64_EncodeToString (sum d)))%string
      with (string_of_list_ascii
              (pre ++ "-"%char :: base64_EncodeToString (sum d))).
    2:{ rewrite <- (string_of_list_ascii_of_string
                      (string_of_list_ascii pre ++ "-"
                         ++ string_of_list_ascii
                              (base64_EncodeToString (sum d)))%string).
        rewrite !list_ascii_of_string_app, !list_ascii_of_string_of_list_ascii.
        reflexivity. }
    rewrite (Base64ToRef_short hashSize sliceCap Hcap pre (sum d))
      by assumption.
    destruct d as [name s]. cbn [hashName sum] in *. now rewrite Hname.
  - unfold Ref_String. rewrite Hname.
    rewrite <- (string_of_list_ascii_of_string R), Htxt.
    rewrite <- (string_of_list_ascii_of_string
                  (string_of_list_ascii pre ++ "-"
                     ++ string_of_list_ascii (hex_EncodeToString (sum d)))%string).
    rewrite !list_ascii_of_string_app, !list_ascii_of_string_of_list_ascii.
    reflexivity.
Qed.

Lemma sha1Table_fits (name : string) (size : nat) :
  sha1Table name = Some size -> tagFits name size.
Proof.
  unfold sha1Table. destruct (String.eqb_spec name "sha1") as [-> |];
    [| discriminate].
  intros [= <-]. unfold tagFits. repeat split; vm_compute; lia.
Defined.

Lemma Base64ToRef_RefToBase64_roundtrip_witness :
  let R := "sha1-0123456789abcdef0123456789abcdef01234567" in
  blob_Parse sha1Table R = sampleRef
  /\ Base64ToRef sha1Table (fun n => n) (RefToBase64 (blob_Parse sha1Table R))
     = Val (blob_Parse sha1Table R)
  /\ Ref_String (blob_Parse sha1Table R) = R
  /\ ParseBlobNames sha1Table (fun n => n) [] [R]
     = Val [blob_Parse sha1Table R].
Proof.
  cbv zeta. split; [reflexivity |].
  apply (Base64ToRef_RefToBase64_roundtrip sha1Table (fun n => n)
           "sha1-0123456789abcdef0123456789abcdef01234567"
           (mkDigest "sha1"
              (map ascii_of_nat
                 [1; 35; 69; 103; 137; 171; 205; 239; 1; 35;
                  69; 103; 137; 171; 205; 239; 1; 35; 69; 103]))).
  - intros n. apply le_n.
  - exact sha1Table_fits.
  - reflexivity.
Defined.

(** ** The worker pool *)

Module PoolFacts.
Import Pool.

Lemma length_set_nth {A : Type} (l : list A) (j : nat) (x : A) :
  length (set_nth l j x) = length l.
Proof.
  revert j. induction l as [| y l IH]; intros [| j]; cbn; auto.
Qed.

Lemma In_set_nth_new {A : Type} (l : list A) (j : nat) (x y : A) :
  nth_error l j = Some y -> In x (set_nth l j x).
Proof.
  revert j. induction l as [| z l IH]; intros [| j]; cbn; try discriminate.
  - auto.
  - intros H. right. eauto.
Qed.

Lemma In_set_nth_old {A : Type} (l : list A) (j : nat) (x y z : A) :
  nth_error l j = Some y -> In z l -> z <> y -> In z (set_nth l j x).
Proof.
  revert j. induction l as [| w l IH]; intros [| j]; cbn; try discriminate.
  - intros [= ->] [-> | Hin] Hne; [contradiction | auto].
  - intros Hj [-> | Hin] Hne; [auto | right; eauto].
Qed.

Lemma firstErr_all_nil (results : list (option error)) :
  (forall i, i < length results -> nth i results None = None) ->
  firstErr results = None.
Proof.
  induction results as [| r results IH]; intros H; [reflexivity |].
  pose proof (H 0 (Nat.lt_0_succ _)) as H0. cbn in H0. subst r.
  cbn. apply IH. intros i Hi. apply (H (S i)). cbn. lia.
Qed.

Lemma firstErr_first (results : list (option error)) (k : nat) (e : error) :
  nth k results None = Some e ->
  (forall i, i < k -> nth i results None = None) ->
  firstErr results = Some e.
Proof.
  revert k. induction results as [| r results IH]; intros k Hk Hbefore.
  - destruct k; discriminate.
  - destruct k as [| k]; cbn in Hk.
    + now subst r.
    + pose proof (Hbefore 0 (Nat.lt_0_succ _)) as H0. cbn in H0. subst r.
      cbn. apply (IH k Hk). intros i Hi. apply (Hbefore (S i)). lia.
Qed.

Section Invariant.

Variable results : list (option error).

Local Abbreviation n := (length results).

Definition received (s : state) (k : nat) : Prop :=
  forall i, i < k -> In i (sent s) /\ nth i results None = None.

(** What every reachable state of the pool satisfies. *)
Definition inv (s : state) : Prop :=
  length (workers s) = numWorkers
  /\ (forall k, k < submitted results s -> accounted s k)
  /\ match main s with
     | Submitting k => k <= n
     | Collecting k => k <= n /\ received s k
     | Returned None => received s n
     | Returned (Some e) =>
         exists k, k < n /\ In k (sent s)
                   /\ nth k results None = Some e /\ received s k
     end.

Lemma inv_init : inv init.
Proof.
  unfold inv, init, submitted. cbn [workers main]. repeat split.
  - intros k Hk. lia.
  - lia.
Qed.

Lemma inv_step (s s' : state) (ev : event) :
  inv s -> step results s ev = Some s' -> inv s'.
Proof.
  intros (Hlen & Hacc & Hmain) Hstep.
  destruct ev as [| j | j]; cbn [step] in Hstep.
  - (* the caller moves *)
    destruct (main s) as [k | k | r] eqn:Em; [| | discriminate].
    + destruct (Nat.ltb_spec k n) as [Hlt | Hge];
        injection Hstep as <-; unfold inv, submitted, accounted in *;
        cbn [workers main workc sent]; rewrite Em in Hacc;
        (split; [assumption |]); split.
      * intros k' Hk'. destruct (Nat.eq_dec k' k) as [-> | Hne].
        -- left. apply in_or_app. right. now left.
        -- destruct (Hacc k' ltac:(lia)) as [H | H]; auto.
           left. apply in_or_app. now left.
      * lia.
      * intros k' Hk'. apply Hacc. lia.
      * split; [lia |]. intros i Hi. lia.
    + destruct Hmain as [Hle Hrecv].
      destruct (Nat.ltb_spec k n) as [Hlt | Hge].
      * destruct (existsb (Nat.eqb k) (sent s)) eqn:Ex; [| discriminate].
        apply existsb_exists in Ex as (x & Hin & Hx).
        apply Nat.eqb_eq in Hx. subst x.
        destruct (nth k results None) as [e |] eqn:En;
          injection Hstep as <-; unfold inv, submitted, accounted in *;
          cbn [workers main workc sent]; rewrite Em in Hacc;
          (split; [assumption |]); (split; [assumption |]).
        -- exists k. auto.
        -- split; [lia |]. intros i Hi.
           destruct (Nat.eq_dec i k) as [-> | Hne]; [auto |].
           apply Hrecv. lia.
      * injection Hstep as <-. unfold inv, submitted, accounted in *.
        cbn [workers main workc sent]. rewrite Em in Hacc.
        assert (k = n) by lia. subst k. auto.
  - (* a worker receives a member *)
    destruct (nth_error (workers s) j) as [[k0 |] |] eqn:Ej;
      try discriminate.
    destruct (workc s) as [| k q] eqn:Eq; [discriminate |].
    injection Hstep as <-. unfold inv, submitted, accounted, received in *.
    cbn [workers main workc sent]. rewrite Eq in Hacc.
    split; [now rewrite length_set_nth |]. split; [| exact Hmain].
    intros k' Hk'. destruct (Hacc k' Hk') as [[-> | Hin] | [Hin | Hin]];
      auto.
    * right. left. eapply In_set_nth_new; eauto.
    * right. left. eapply In_set_nth_old; eauto. discriminate.
  - (* a worker ends its fetch *)
    destruct (nth_error (workers s) j) as [[k |] |] eqn:Ej;
      try discriminate.
    injection Hstep as <-. unfold inv, submitted, accounted, received in *.
    cbn [workers main workc sent].
    split; [now rewrite length_set_nth |]. split.
    + intros k' Hk'. destruct (Hacc k' Hk') as [Hin | [Hin | Hin]]; auto.
      * destruct (Nat.eq_dec k' k) as [-> | Hne]; [right; right; now left |].
        right. left. eapply In_set_nth_old; eauto. congruence.
      * right. right. now right.
    + destruct (main s) as [k1 | k1 | [e |]]; auto.
      * destruct Hmain as [Hle Hr]. split; auto.
        intros i Hi. destruct (Hr i Hi). split; auto. now right.
      * destruct Hmain as (k1 & H1 & H2 & H3 & H4).
        exists k1. split; [assumption |]. split; [now right |].
        split; [assumption |].
        intros i Hi. destruct (H4 i Hi). split; auto. now right.
      * intros i Hi. destruct (Hmain i Hi). split; auto. now right.
Qed.

Lemma inv_run (evs : list event) : forall s s',
  inv s -> run results s evs = Some s' -> inv s'.
Proof.
  induction evs as [| ev evs IH]; intros s s' Hs Hrun; cbn in Hrun.
  - now injection Hrun as <-.
  - destruct (step results s ev) as [s1 |] eqn:E1; [| discriminate].
    eapply IH; [| exact Hrun]. eapply inv_step; eauto.
Qed.


(** The value handed back is the first error in submission order. *)
Lemma returned_firstErr (s : state) (r : option error) :
  inv s -> main s = Returned r -> r = firstErr results.
Proof.
  intros (_ & _ & Hmain) Em. rewrite Em in Hmain.
  destruct r as [e |].
  - destruct Hmain as (k & Hk & _ & Hnth & Hrecv). symmetry.
    eapply firstErr_first; eauto. intros i Hi. now apply Hrecv.
  - symmetry. apply firstErr_all_nil. intros i Hi. now apply Hmain.
Qed.

(** *** Nothing queued is lost: the workers can always drain the queue *)

Definition busy (l : list (option nat)) : nat :=
  length (filter (fun w => match w with Some _ => true | None => false end)
                 l).

Lemma busy_finish l j k :
  nth_error l j = Some (Some k) -> S (busy (set_nth l j None)) = busy l.
Proof.
  unfold busy. revert j. induction l as [| w l IH]; intros [| j];
    cbn [nth_error set_nth filter]; try discriminate.
  - intros [= ->]. reflexivity.
  - intros Hj. destruct w; cbn [length]; rewrite <- (IH j Hj); reflexivity.
Qed.

Lemma busy_take l j k :
  nth_error l j = Some None -> busy (set_nth l j (Some k)) = S (busy l).
Proof.
  unfold busy. revert j. induction l as [| w l IH]; intros [| j];
    cbn [nth_error set_nth filter]; try discriminate.
  - intros [= ->]. reflexivity.
  - intros Hj. destruct w; cbn [length]; rewrite (IH j Hj); reflexivity.
Qed.

Lemma busy_pos l :
  0 < busy l -> exists j k, nth_error l j = Some (Some k).
Proof.
  unfold busy. induction l as [| w l IH]; cbn [filter length]; [lia |].
  destruct w as [k |].
  - intros _. exists 0, k. reflexivity.
  - intros H. destruct (IH H) as (j & k & Hj). exists (S j), k. exact Hj.
Qed.

Lemma busy_zero l x : busy l = 0 -> In x l -> x = None.
Proof.
  unfold busy. induction l as [| w l IH]; cbn [filter length In];
    [intros _ [] |].
  destruct w as [k |]; cbn [length]; [discriminate |].
  intros H [<- | Hin]; auto.
Qed.

Lemma drain (m : nat) : forall s,
  inv s -> 2 * length (workc s) + running s <= m ->
  exists evs s',
    run results s evs = Some s' /\ main s' = main s
    /\ workc s' = [] /\ running s' = 0 /\ inv s'.
Proof.
  induction m as [| m IH]; intros s Hinv Hm.
  - exists [], s. cbn [run].
    destruct (workc s) as [| k q] eqn:Eq; [| cbn in Hm; lia].
    split; [reflexivity |]. split; [reflexivity |].
    split; [reflexivity |]. split; [lia | exact Hinv].
  - destruct (Nat.eq_dec (running s) 0) as [Hidle | Hbusy].
    + destruct (workc s) as [| k q] eqn:Eq.
      * exists [], s. cbn [run].
        split; [reflexivity |]. split; [reflexivity |].
        split; [exact Eq |]. split; [exact Hidle | exact Hinv].
      * assert (H0 : nth_error (workers s) 0 = Some None).
        { destruct Hinv as (Hlen & _).
          destruct (workers s) as [| w l] eqn:Ew;
            [unfold numWorkers in Hlen; discriminate |].
          cbn. f_equal. eapply busy_zero; [exact Hidle |].
          rewrite Ew. now left. }
        assert (Hstep : step results s (Take 0)
                        = Some (mkState q (set_nth (workers s) 0 (Some k))
                                        (sent s) (main s))).
        { cbn [step]. now rewrite H0, Eq. }
        pose proof (inv_step _ _ _ Hinv Hstep) as Hinv1.
        destruct (IH _ Hinv1) as (evs & s' & Hrun & Hmain & Hrest).
        { unfold running in *. cbn [workc workers].
          fold (busy (set_nth (workers s) 0 (Some k))).
          rewrite (busy_take _ _ k H0). fold (busy (workers s)) in Hidle.
          cbn [length] in Hm. lia. }
        exists (Take 0 :: evs), s'. cbn [run]. rewrite Hstep.
        split; [exact Hrun |]. split; [exact Hmain | exact Hrest].
    + destruct (busy_pos (workers s)) as (j & k & Hj);
        [unfold busy; unfold running in Hbusy; lia |].
      assert (Hstep : step results s (Finish j)
                      = Some (mkState (workc s) (set_nth (workers s) j None)
                                      (k :: sent s) (main s))).
      { cbn [step]. now rewrite Hj. }
      pose proof (inv_step _ _ _ Hinv Hstep) as Hinv1.
      destruct (IH _ Hinv1) as (evs & s' & Hrun & Hmain & Hrest).
      { unfold running in *. cbn [workc workers].
        fold (busy (set_nth (workers s) j None)).
        pose proof (busy_finish _ _ _ Hj) as Hb.
        fold (busy (workers s)) in Hm. lia. }
      exists (Finish j :: evs), s'. cbn [run]. rewrite Hstep.
      split; [exact Hrun |]. split; [exact Hmain | exact Hrest].
Qed.

(** From any reachable state the workers can go on until every member
    queued so far is done, wherever the caller stands. *)
Lemma all_work_can_complete (s : state) :
  inv s ->
  exists evs s',
    run results s evs = Some s' /\ main s' = main s
    /\ forall k, k < submitted results s -> In k (sent s').
Proof.
  intros Hinv.
  destruct (drain _ s Hinv (Nat.le_refl _))
    as (evs & s' & Hrun & Hmain & Hq & Hidle & Hinv').
  exists evs, s'. split; [exact Hrun |]. split; [exact Hmain |].
  intros k Hk. destruct Hinv' as (_ & Hacc & _).
  unfold submitted in *. rewrite Hmain in Hacc.
  destruct (Hacc k Hk) as [Hin | [Hin | Hin]]; auto.
  - rewrite Hq in Hin. destruct Hin.
  - apply (busy_zero _ _ Hidle) in Hin. discriminate.
Qed.

End Invariant.

End PoolFacts.




(** ** The smart fetch engine *)

Lemma blob_tree_ind (P : blob -> Prop) :
  (forall br e, P (FetchFails br e)) ->
  (forall e, P (SniffFails e)) ->
  (forall body createErr copyErr, P (Opaque body createErr copyErr)) ->
  (forall br fileName meta mkdirErr,
      P (Directory br fileName meta mkdirErr None)) ->
  (forall br fileName meta mkdirErr child,
      P child -> P (Directory br fileName meta mkdirErr (Some child))) ->
  (forall members, Forall P members -> P (StaticSet members)) ->
  (forall br fileName meta readerErr content existing createErr copyErr,
      P (File br fileName meta readerErr content existing createErr copyErr)) ->
  (forall type, P (UnknownType type)) ->
  forall b, P b.
Proof.
  intros HF HS HO HDn HDs HSet HFile HU.
  fix IH 1. intros [br e | e | body c1 c2 | br fn meta mk [child |]
                    | members | br fn meta r c ex c1 c2 | type].
  - apply HF.
  - apply HS.
  - apply HO.
  - apply HDs. apply IH.
  - apply HDn.
  - apply HSet. induction members as [| m members IHm]; constructor.
    + apply IH.
    + exact IHm.
  - apply HFile.
  - apply HU.
Qed.



Section SmartFetchFacts.

Variable Verbose : bool.

Local Abbreviation errOf targ := (fun m => fst (smartFetch Verbose targ m)).






End SmartFetchFacts.

(** C6.  What the code does where the claim has it skip on a file of the
    same size and write otherwise: without verbose logging a file blob is
    created and copied although a file of the size of its content is at
    the target path, and with verbose logging it is skipped whatever the
    size of the file found there. *)
Theorem file_skip_needs_verbose_and_ignores_size
  (targ br fileName : string) (meta : fileMeta) (content : bytes) (size : Z) :
  let name := filepath_Join [targ; fileName] in
  smartFetch false targ
    (File br fileName meta None content (Some (Z.of_nat (length content)))
          None None)
  = (None,
     [OpCreate name; OpWrite name content] ++ snd (setFileMeta name meta))
  /\ smartFetch true targ
       (File br fileName meta None content (Some size) None None)
     = (None, []).
Proof.
  cbn [smartFetch]. unfold fetchFile. rewrite !Z.eqb_refl. split; reflexivity.
Qed.




(** * Further properties *)

(** ** The response writer on streams of any length *)

Lemma delivered_bodies (ps : list bytes) :
  delivered (map BodyWrite ps) = concat ps.
Proof.
  induction ps as [| p ps IH]; cbn; [reflexivity | now rewrite IH].
Qed.

Lemma headerCalls_bodies (ps : list bytes) : headerCalls (map BodyWrite ps) = 0.
Proof. induction ps as [| p ps IH]; cbn; auto. Qed.

Lemma headerPrefix_counts (hdr : list rwCall) :
  headerPrefix hdr -> delivered hdr = [] /\ headerCalls hdr = 1.
Proof. intros [-> | (m & _ & ->)]; split; reflexivity. Qed.

Section RespWriterStreams.

Variable MatchMime : string -> bytes -> string.
Variable w_Write : list rwCall -> bytes -> Z * option error.

(** What holds of a writer that has received [sofar], whatever its
    length. *)
Definition streaming (w : respWriter) (sofar : bytes) : Prop :=
  if w_headerWritten w
  then (exists hdr ps,
           w_calls w = hdr ++ map BodyWrite ps
           /\ headerPrefix hdr /\ concat ps = sofar)
       /\ w_buf w = []
  else w_calls w = []
       /\ w_buf w = sofar
       /\ (mimeUnknown (w_okMime w) = false -> sofar = [])
       /\ (mimeUnknown (w_okMime w) = true -> length sofar < 1024).

Lemma newRespWriter_streaming cache name okMime :
  streaming (newRespWriter cache [] name okMime) [].
Proof.
  unfold streaming, newRespWriter. cbn. repeat split; auto. intros _. lia.
Qed.

Lemma mimeUnknown_false_nonempty (m : string) :
  mimeUnknown m = false -> m <> "".
Proof. intros H ->. discriminate. Qed.

Lemma Write_streaming w cache p sofar :
  streaming w sofar ->
  streaming (fst (fst (respWriter_Write MatchMime w_Write w cache p))) (sofar ++ p).
Proof.
  unfold streaming, respWriter_Write.
  destruct (w_headerWritten w) eqn:Ehw; cbn [negb].
  - intros [(hdr & ps & Hc & Hh & Hs) Hb]. unfold underlyingWrite. cbn.
    split; [| exact Hb]. exists hdr, (ps ++ [p]).
    rewrite Hc, map_app, concat_app, Hs, <- app_assoc. cbn.
    rewrite app_nil_r. auto.
  - intros (Hc & Hb & Hk & Hu).
    destruct (mimeUnknown (w_okMime w)) eqn:Eu.
    + rewrite Hb. destruct (Nat.ltb_spec (length (sofar ++ p)) 1024) as [Hlt | Hge].
      * cbn. rewrite Eu. repeat split; auto. discriminate.
      * unfold writeThrough, underlyingWrite. rewrite Hc.
        destruct (negb (String.eqb (MatchMime (w_okMime w) (sofar ++ p)) ""))
          eqn:Em; cbn; (split; [| reflexivity]).
        -- exists [HeaderAdd "Content-Type"
                     (MatchMime (w_okMime w) (sofar ++ p)); WriteHeader 200],
             [sofar ++ p].
           cbn. rewrite app_nil_r. repeat split. right.
           eexists. split; [| reflexivity].
           apply negb_true_iff, String.eqb_neq in Em. exact Em.
        -- exists [WriteHeader 200], [sofar ++ p].
           cbn. rewrite app_nil_r. repeat split. now left.
    + specialize (Hk eq_refl). rewrite Hk in Hb |- *.
      unfold writeThrough, underlyingWrite. rewrite Hc, Hb.
      pose proof (mimeUnknown_false_nonempty _ Eu) as Hne.
      apply String.eqb_neq in Hne as Hneb. rewrite Hneb. cbn.
      split; [| reflexivity].
      exists [HeaderAdd "Content-Type" (w_okMime w); WriteHeader 200], [p].
      cbn. rewrite app_nil_r. repeat split. right. eauto.
Qed.

Lemma writeAll_streaming chunks : forall w cache sofar,
  streaming w sofar ->
  streaming (fst (writeAll MatchMime w_Write w cache chunks)) (sofar ++ concat chunks).
Proof.
  induction chunks as [| p chunks IH]; intros w cache sofar Hw.
  - cbn. now rewrite app_nil_r.
  - cbn [concat writeAll]. rewrite app_assoc.
    pose proof (Write_streaming w cache p sofar Hw) as Hstep.
    destruct (respWriter_Write MatchMime w_Write w cache p) as [[w' cache'] r].
    cbn [fst] in Hstep. now apply IH.
Qed.

(** The call log of a closed stream: nothing but body writes, after the
    header calls when the headers went out. *)
Lemma Close_streaming w sofar :
  streaming w sofar ->
  exists hdr ps,
    w_calls (fst (respWriter_Close w_Write w)) = hdr ++ map BodyWrite ps
    /\ concat ps = sofar
    /\ (if w_headerWritten w then headerPrefix hdr else hdr = [])
    /\ (w_headerWritten w = false ->
        mimeUnknown (w_okMime w) = true -> length sofar < 1024).
Proof.
  unfold streaming, respWriter_Close.
  destruct (w_headerWritten w).
  - intros [(hdr & ps & Hc & Hh & Hs) Hb]. rewrite Hb. cbn.
    exists hdr, ps. repeat split; auto. discriminate.
  - intros (Hc & Hb & Hk & Hu). rewrite Hb.
    destruct sofar as [| c sofar]; cbn.
    + exists [], []. rewrite Hc. repeat split; auto.
    + exists [], [c :: sofar]. rewrite Hc. cbn. rewrite app_nil_r.
      repeat split; auto.
Qed.

Lemma stream_shape cache name okMime chunks :
  exists w hdr ps,
    stream MatchMime w_Write cache name okMime chunks = hdr ++ map BodyWrite ps
    /\ concat ps = concat chunks
    /\ (if w_headerWritten w then headerPrefix hdr else hdr = [])
    /\ (w_headerWritten w = false ->
        mimeUnknown (w_okMime w) = true -> length (concat chunks) < 1024)
    /\ (w_headerWritten w = false ->
        mimeUnknown (w_okMime w) = false -> concat chunks = []).
Proof.
  unfold stream.
  pose proof (writeAll_streaming chunks (newRespWriter cache [] name okMime)
                cache [] (newRespWriter_streaming cache name okMime)) as Hw.
  destruct (writeAll MatchMime w_Write (newRespWriter cache [] name okMime) cache chunks)
    as [w cache'].
  cbn [fst app] in Hw.
  destruct (Close_streaming w _ Hw) as (hdr & ps & Hc & Hs & Hh & Hu).
  exists w, hdr, ps. repeat split; auto.
  intros Hhw Hk. unfold streaming in Hw. rewrite Hhw in Hw.
  now apply Hw.
Qed.

End RespWriterStreams.

(** X1.  Whatever the length of the stream and the way it is cut into
    [Write] calls, the wrapped writer receives exactly the bytes of the
    stream, in order; [WriteHeader] is called at most once, and exactly
    once when the stream has 1024 bytes or more. *)
Theorem stream_delivers_everything
  (MatchMime : string -> bytes -> string)
  (w_Write : list rwCall -> bytes -> Z * option error) (cache : MimeCache)
  (name okMime : string) (chunks : list bytes) :
  delivered (stream MatchMime w_Write cache name okMime chunks) = concat chunks
  /\ headerCalls (stream MatchMime w_Write cache name okMime chunks) <= 1
  /\ (1024 <= length (concat chunks) ->
      headerCalls (stream MatchMime w_Write cache name okMime chunks) = 1).
Proof.
  destruct (stream_shape MatchMime w_Write cache name okMime chunks)
    as (w & hdr & ps & -> & Hs & Hh & Hu & Hk).
  rewrite delivered_app, headerCalls_app, delivered_bodies, headerCalls_bodies.
  destruct (w_headerWritten w).
  - destruct (headerPrefix_counts hdr Hh) as [-> ->]. cbn.
    repeat split; auto.
  - subst hdr. cbn. repeat split; auto. intros Hlen.
    destruct (mimeUnknown (w_okMime w)) eqn:Eu.
    + specialize (Hu eq_refl eq_refl). lia.
    + rewrite (Hk eq_refl eq_refl) in Hlen. cbn in Hlen. lia.
Qed.

Lemma stream_delivers_everything_witness :
  headerCalls (stream noMatch brokenWrite emptyCache "" ""
                      [repeat "a"%char 1024]) = 1.
Proof.
  refine (proj2 (proj2 (stream_delivers_everything noMatch brokenWrite
                          emptyCache "" "" [repeat "a"%char 1024])) _).
  cbn [concat]. rewrite app_nil_r, repeat_length. apply le_n.
Defined.

(** X2.  In the log of calls made on the wrapped writer, the header calls
    come before every body write: the log is empty or starts with
    [WriteHeader(200)], preceded by at most one [Content-Type] header that
    is not empty, and all that follows are body writes.  No other status
    is ever written. *)
Theorem stream_headers_precede_body
  (MatchMime : string -> bytes -> string)
  (w_Write : list rwCall -> bytes -> Z * option error) (cache : MimeCache)
  (name okMime : string) (chunks : list bytes) :
  exists hdr ps,
    stream MatchMime w_Write cache name okMime chunks = hdr ++ map BodyWrite ps
    /\ (hdr = [] \/ hdr = [WriteHeader 200]
        \/ exists m, m <> ""
                     /\ hdr = [HeaderAdd "Content-Type" m; WriteHeader 200]).
Proof.
  destruct (stream_shape MatchMime w_Write cache name okMime chunks)
    as (w & hdr & ps & Hc & _ & Hh & _).
  exists hdr, ps. split; [exact Hc |].
  destruct (w_headerWritten w); [right; exact Hh | now left].
Qed.



Section RespWriterSniffing.

Variable MatchMime : string -> bytes -> string.
Variable w_Write : list rwCall -> bytes -> Z * option error.

Lemma writeAll_passthrough chunks : forall w cache,
  w_headerWritten w = true ->
  writeAll MatchMime w_Write w cache chunks
  = (mkRespWriter (w_calls w ++ map BodyWrite chunks) (w_name w) (w_okMime w)
                  true (w_buf w), cache).
Proof.
  induction chunks as [| p chunks IH]; intros w cache Hhw.
  - cbn. rewrite app_nil_r. destruct w; cbn in *. now subst.
  - cbn [writeAll]. unfold respWriter_Write. rewrite Hhw. cbn [negb].
    unfold underlyingWrite. rewrite IH by reflexivity. cbn.
    now rewrite <- app_assoc.
Qed.

Lemma writeAll_buffering chunks : forall w cache,
  w_headerWritten w = false ->
  mimeUnknown (w_okMime w) = true ->
  writeAll MatchMime w_Write w cache chunks
  = match sniffSplit (w_buf w) chunks with
    | None =>
        (mkRespWriter (w_calls w) (w_name w) (w_okMime w) false
                      (w_buf w ++ concat chunks), cache)
    | Some (buf, rest) =>
        let m := MatchMime (w_okMime w) buf in
        (mkRespWriter
           (w_calls w
              ++ (if negb (String.eqb m "")
                  then [HeaderAdd "Content-Type" m] else [])
              ++ WriteHeader 200 :: BodyWrite buf :: map BodyWrite rest)
           (w_name w) m true [],
         if negb (String.eqb (w_name w) "") && negb (String.eqb m "")
         then MimeCache_Set cache (w_name w) m else cache)
    end.
Proof.
  induction chunks as [| p chunks IH]; intros w cache Hhw Hu.
  - cbn. rewrite app_nil_r. destruct w; cbn in *. now subst.
  - cbn [writeAll sniffSplit]. unfold respWriter_Write.
    rewrite Hhw, Hu. cbn [negb].
    destruct (length (w_buf w ++ p) <? 1024).
    + rewrite IH by (cbn; auto). cbn [w_buf w_calls w_name w_okMime concat].
      rewrite <- app_assoc. reflexivity.
    + unfold writeThrough, underlyingWrite.
      rewrite writeAll_passthrough by reflexivity. cbn.
      destruct (negb (String.eqb (MatchMime (w_okMime w) (w_buf w ++ p)) ""));
        rewrite <- !app_assoc; reflexivity.
Qed.

Lemma sniffSplit_None buf chunks :
  sniffSplit buf chunks = None <-> length (buf ++ concat chunks) < 1024
                                   \/ chunks = [].
Proof.
  revert buf. induction chunks as [| p chunks IH]; intros buf.
  - cbn. split; auto.
  - cbn [sniffSplit concat]. rewrite app_assoc.
    destruct (Nat.ltb_spec (length (buf ++ p)) 1024) as [Hlt | Hge].
    + rewrite IH. split.
      * intros [H | ->]; left; [exact H |]. now rewrite app_nil_r.
      * intros [H | H]; [| discriminate]. now left.
    + split; [discriminate |]. intros [H | H]; [| discriminate].
      rewrite length_app in H. lia.
Qed.

End RespWriterSniffing.

(** X4.  A stream of a type not known in advance that ends before its
    1024th byte is flushed by [Close] as one body write, with no
    [WriteHeader] call and no [Content-Type] header (nothing at all when
    the stream is empty), and the mime cache is left as it was: no type is
    sniffed for it. *)
Theorem short_unknown_stream_is_not_sniffed
  (MatchMime : string -> bytes -> string)
  (w_Write : list rwCall -> bytes -> Z * option error) (cache : MimeCache)
  (name okMime : string) (chunks : list bytes) :
  mimeUnknown (w_okMime (newRespWriter cache [] name okMime)) = true ->
  length (concat chunks) < 1024 ->
  stream MatchMime w_Write cache name okMime chunks
  = match concat chunks with
    | [] => []
    | _ => [BodyWrite (concat chunks)]
    end
  /\ snd (writeAll MatchMime w_Write (newRespWriter cache [] name okMime) cache chunks)
     = cache.
Proof.
  intros Hu Hlen. unfold stream.
  rewrite writeAll_buffering by (auto; reflexivity).
  assert (Hn : sniffSplit (w_buf (newRespWriter cache [] name okMime)) chunks
               = None).
  { apply sniffSplit_None. left. exact Hlen. }
  rewrite Hn. cbn [snd]. split; [| reflexivity].
  unfold respWriter_Close. cbn [w_buf w_calls newRespWriter app fst].
  destruct (concat chunks) as [| c l]; reflexivity.
Qed.

Lemma short_unknown_stream_is_not_sniffed_witness :
  stream (fun m _ => "text/plain") wholeWrite (fun _ => "") "key" ""
         [list_ascii_of_string "hel"; list_ascii_of_string "lo"]
  = [BodyWrite (list_ascii_of_string "hello")].
Proof.
  apply (short_unknown_stream_is_not_sniffed (fun m _ => "text/plain")
           wholeWrite (fun _ => "") "key" ""
           [list_ascii_of_string "hel"; list_ascii_of_string "lo"]).
  - reflexivity.
  - vm_compute; lia.
Defined.

(** X5.  For a stream of a type not known in advance that reaches 1024
    bytes, the type is sniffed once, from the bytes buffered when the
    1024th byte arrives.  These bytes are flushed as one body write after
    the headers (a [Content-Type] only if a type was found), the chunks
    after them pass through one by one, and the type found is stored in the
    mime cache under the name, if there is a name. *)
Theorem long_unknown_stream_is_sniffed_once
  (MatchMime : string -> bytes -> string)
  (w_Write : list rwCall -> bytes -> Z * option error) (cache : MimeCache)
  (name okMime : string) (chunks rest : list bytes) (buf : bytes) :
  let w0 := newRespWriter cache [] name okMime in
  let m := MatchMime (w_okMime w0) buf in
  mimeUnknown (w_okMime w0) = true ->
  sniffSplit [] chunks = Some (buf, rest) ->
  stream MatchMime w_Write cache name okMime chunks
  = (if negb (String.eqb m "") then [HeaderAdd "Content-Type" m] else [])
      ++ WriteHeader 200 :: BodyWrite buf :: map BodyWrite rest
  /\ snd (writeAll MatchMime w_Write w0 cache chunks)
     = if negb (String.eqb name "") && negb (String.eqb m "")
       then MimeCache_Set cache name m else cache.
Proof.
  intros w0 m Hu Hs. unfold stream. fold w0.
  rewrite writeAll_buffering by (auto; reflexivity).
  change (w_buf w0) with (@nil ascii). rewrite Hs.
  cbn [snd fst]. split; reflexivity.
Qed.

Lemma long_unknown_stream_is_sniffed_once_witness :
  let big := repeat "a"%char 1030 in
  stream (fun _ _ => "text/plain") wholeWrite (fun _ => "") "key" ""
         [list_ascii_of_string "x"; big; list_ascii_of_string "tail"]
  = [HeaderAdd "Content-Type" "text/plain"; WriteHeader 200;
     BodyWrite ("x"%char :: big); BodyWrite (list_ascii_of_string "tail")].
Proof.
  cbv zeta.
  apply (long_unknown_stream_is_sniffed_once (fun _ _ => "text/plain")
           wholeWrite (fun _ => "") "key" ""
           [list_ascii_of_string "x"; repeat "a"%char 1030;
            list_ascii_of_string "tail"]
           [list_ascii_of_string "tail"] ("x"%char :: repeat "a"%char 1030)).
  - reflexivity.
  - reflexivity.
Defined.

(** ** Modification-time resolution, the other cases *)

Lemma timeParse_firstLayout time_Parse text :
  fst (timeParse time_Parse text) = firstLayout time_Parse text.
Proof.
  unfold timeParse, firstLayout. cbn [timeParse_loop].
  destruct (time_Parse time_RFC1123 text); [reflexivity |].
  destruct (time_Parse time_UnixDate text); [reflexivity |].
  destruct (time_Parse time_RFC3339 text); reflexivity.
Qed.

Lemma timeParse_pair time_Parse text :
  timeParse time_Parse text = (firstLayout time_Parse text, false).
Proof.
  rewrite <- timeParse_firstLayout, <- (timeParse_not_ok time_Parse text).
  now destruct (timeParse time_Parse text).
Qed.

(** X6.  The [Last-Modified] header is the last resort, not the first:
    its time (that of the first of RFC1123, UnixDate and RFC3339 it parses
    under, the zero time if none) is what [parseLastModified] returns
    whenever the mtime string is empty, or is shorter than 23 characters
    and not a decimal integer; in every other case the header has no
    effect on the result. *)
Theorem header_time_is_the_last_resort
  (time_Parse : string -> string -> option Time)
  (lastModHeader mtimeHeader : string) :
  (lastModHeader <> "" ->
   mtimeHeader = ""
   \/ (String.length mtimeHeader < 23
       /\ strconv_ParseInt mtimeHeader = None) ->
   parseLastModified time_Parse lastModHeader mtimeHeader
   = firstLayout time_Parse lastModHeader)
  /\ (mtimeHeader <> "" ->
      23 <= String.length mtimeHeader
      \/ strconv_ParseInt mtimeHeader <> None ->
      forall other,
        parseLastModified time_Parse other mtimeHeader
        = parseLastModified time_Parse lastModHeader mtimeHeader).
Proof.
  split.
  - intros Hne Hm. unfold parseLastModified.
    apply String.eqb_neq in Hne. rewrite Hne. cbn [negb].
    rewrite timeParse_pair.
    destruct Hm as [-> | [Hlen Hint]]; [reflexivity |].
    destruct (mtimeHeader =? "")%string; [reflexivity |].
    destruct (Nat.leb_spec 23 (String.length mtimeHeader)); [lia |].
    now rewrite Hint.
  - intros Hne Hm other.
    assert (Hany : forall h,
               parseLastModified time_Parse h mtimeHeader
               = if 23 <=? String.length mtimeHeader
                 then firstLayout time_Parse mtimeHeader
                 else match strconv_ParseInt mtimeHeader with
                      | None => zeroTime
                      | Some qmt => time_Unix qmt 0
                      end).
    { intros h. unfold parseLastModified.
      apply String.eqb_neq in Hne. rewrite Hne.
      assert (Hok : snd (if negb (h =? "")%string
                         then timeParse time_Parse h
                         else (zeroTime, false)) = false).
      { destruct (negb (h =? "")%string); [| reflexivity].
        now rewrite timeParse_pair. }
      destruct (if negb (h =? "")%string then timeParse time_Parse h
                else (zeroTime, false)) as [lastmod ok].
      cbn [snd] in Hok. subst ok.
      destruct (Nat.leb_spec 23 (String.length mtimeHeader)) as [Hge | Hlt].
      - rewrite timeParse_pair. reflexivity.
      - destruct (strconv_ParseInt mtimeHeader) as [qmt |]; [reflexivity |].
        destruct Hm as [Hlen | Hint]; [lia | contradiction]. }
    now rewrite !Hany.
Qed.

Lemma header_time_is_the_last_resort_witness :
  parseLastModified exampleParse "Mon, 02 Jan 2006 15:04:05 MST" "yesterday"
  = mkTime 1136239445 0.
Proof.
  apply (proj1 (header_time_is_the_last_resort exampleParse
                  "Mon, 02 Jan 2006 15:04:05 MST" "yesterday")).
  - discriminate.
  - right. split; [vm_compute; lia | reflexivity].
Defined.

(** X7.  An mtime string of 23 characters or more decides alone: the
    result is the time it parses to under the three layouts, the zero time
    if it parses under none, and the [Last-Modified] header has no effect,
    even one that parses. *)
Theorem long_mtime_hides_header
  (time_Parse : string -> string -> option Time)
  (lastModHeader mtimeHeader : string) :
  23 <= String.length mtimeHeader ->
  parseLastModified time_Parse lastModHeader mtimeHeader
  = firstLayout time_Parse mtimeHeader.
Proof.
  intros Hlen. unfold parseLastModified.
  assert (Hhdr : snd (if negb (lastModHeader =? "")%string
                      then timeParse time_Parse lastModHeader
                      else (zeroTime, false)) = false).
  { destruct (negb (lastModHeader =? "")%string); [| reflexivity].
    apply timeParse_not_ok. }
  destruct (if negb (lastModHeader =? "")%string
            then timeParse time_Parse lastModHeader
            else (zeroTime, false)) as [lastmod ok].
  cbn [snd] in Hhdr. subst ok.
  destruct (String.eqb_spec mtimeHeader "") as [-> | _]; [cbn in Hlen; lia |].
  apply Nat.leb_le in Hlen as ->.
  rewrite timeParse_pair. reflexivity.
Qed.

Lemma long_mtime_hides_header_witness :
  parseLastModified exampleParse "Mon, 02 Jan 2006 15:04:05 MST"
                    "2006-01-02 15:04:05.000"
  = zeroTime.
Proof.
  apply (long_mtime_hides_header exampleParse "Mon, 02 Jan 2006 15:04:05 MST"
           "2006-01-02 15:04:05.000").
  vm_compute; lia.
Defined.

(** ** The multipart ingestor, the other cases *)

Section MultipartFacts.

Variable time_Parse : string -> string -> option Time.

Lemma saveParts_lengths destDir parts : forall qmtime filenames mimetypes ops,
  length filenames = length mimetypes ->
  match saveParts time_Parse destDir parts qmtime filenames mimetypes ops with
  | inl s => s_filenames s = [] /\ s_mimetypes s = [] /\ s_err s <> None
  | inr (fs, ms, _) => length fs = length ms
  end.
Proof.
  induction parts as [| part parts IH]; intros qmtime filenames mimetypes ops Hl.
  - exact Hl.
  - cbn [saveParts]. destruct (p_FileName part =? "")%string.
    + now apply IH.
    + destruct (p_createErr part); [cbn; repeat split; discriminate |].
      destruct (p_readErr part); [cbn; repeat split; discriminate |].
      apply IH. rewrite !length_app. cbn. lia.
Qed.

Lemma saveParts_irrelevant destDir parts : forall qmtime filenames mimetypes ops,
  saveParts time_Parse destDir (filter relevantPart parts) qmtime
            filenames mimetypes ops
  = saveParts time_Parse destDir parts qmtime filenames mimetypes ops.
Proof.
  induction parts as [| part parts IH]; intros qmtime filenames mimetypes ops.
  - reflexivity.
  - cbn [filter]. unfold relevantPart at 1, isFilePart.
    destruct (p_FileName part =? "")%string eqn:Ef; cbn [negb orb].
    + destruct (p_FormName part =? "mtime")%string eqn:Em.
      * cbn [saveParts]. rewrite Ef, Em. apply IH.
      * cbn [saveParts]. rewrite Ef, Em. apply IH.
    + cbn [saveParts]. rewrite Ef.
      destruct (p_createErr part); [reflexivity |].
      destruct (p_readErr part); [reflexivity |].
      apply IH.
Qed.

Lemma saveParts_stored_prefix destDir l1 rest :
  Forall partStored l1 ->
  forall qmtime filenames mimetypes ops,
  exists qmtime' filenames' mimetypes' ops',
    saveParts time_Parse destDir (l1 ++ rest) qmtime filenames mimetypes ops
    = saveParts time_Parse destDir rest qmtime' filenames' mimetypes' ops'.
Proof.
  induction 1 as [| part l1 [Hc Hr] _ IH];
    intros qmtime filenames mimetypes ops.
  - repeat eexists.
  - cbn [app saveParts]. destruct (p_FileName part =? "")%string.
    + apply IH.
    + rewrite Hc, Hr. apply IH.
Qed.

Lemma saveParts_failing destDir part rest qmtime filenames mimetypes ops :
  partFails part ->
  exists e ops',
    saveParts time_Parse destDir (part :: rest) qmtime filenames mimetypes ops
    = inl (mkSaved [] [] (Some e) ops').
Proof.
  intros [Hf Herr]. unfold isFilePart in Hf.
  apply negb_true_iff in Hf. cbn [saveParts]. rewrite Hf.
  destruct (p_createErr part) as [e |]; [repeat eexists |].
  destruct (p_readErr part) as [e |]; [repeat eexists |].
  destruct Herr; contradiction.
Qed.

End MultipartFacts.

(** X8.  Whatever the parts and whatever fails, [saveMultipartTo] returns
    as many mime types as file names: the two lists go in step. *)
Theorem saved_names_and_types_go_in_step
  (time_Parse : string -> string -> option Time) (destDir : string)
  (mr : multipartReader) (qmtime : string) :
  length (s_filenames (saveMultipartTo time_Parse destDir mr qmtime))
  = length (s_mimetypes (saveMultipartTo time_Parse destDir mr qmtime)).
Proof.
  unfold saveMultipartTo.
  pose proof (saveParts_lengths time_Parse destDir (mr_parts mr) qmtime
                [] [] [] eq_refl) as H.
  destruct (saveParts time_Parse destDir (mr_parts mr) qmtime [] [] [])
    as [s | [[fs ms] ops]].
  - destruct H as (-> & -> & _). reflexivity.
  - exact H.
Qed.

(** X9.  Form fields other than [mtime] have no effect: a part without a
    file name whose form name is not [mtime] can be left out of the body
    without changing anything [saveMultipartTo] returns or writes. *)
Theorem other_form_fields_are_ignored
  (time_Parse : string -> string -> option Time) (destDir : string)
  (parts : list Part) (nextErr : error) (qmtime : string) :
  saveMultipartTo time_Parse destDir
    (mkReader (filter relevantPart parts) nextErr) qmtime
  = saveMultipartTo time_Parse destDir (mkReader parts nextErr) qmtime.
Proof.
  unfold saveMultipartTo. cbn [mr_parts].
  now rewrite saveParts_irrelevant.
Qed.

(** X10.  When a file part cannot be stored ([os.Create] or the copy
    fails) after parts that were stored, [saveMultipartTo] drops the files
    stored so far and returns no names, no types and the error; the
    handler never sees that error and answers "no files in request" with
    status 400. *)
Theorem failed_part_is_reported_as_no_files
  (time_Parse : string -> string -> option Time)
  (mime_ParseMediaType : string -> string * (string -> string) * option error)
  (ioutil_TempDir : string * option error)
  (ioutil_TempFile : string -> string * option error)
  (os_Create os_Chtimes : string -> option error)
  (UploadFile : string -> bool -> Ref * Ref * option error)
  (flagParanoid : string) (cache : MimeCache) (r : Request)
  (dn : string) (params : string -> string)
  (l1 l2 : list Part) (part : Part) (e : error) :
  Forall partStored l1 ->
  partFails part ->
  ioutil_TempDir = (dn, None) ->
  mime_ParseMediaType (r_Header r "Content-Type")
  = ("multipart/form-data", params, None) ->
  r_MultipartReader r = (mkReader (l1 ++ part :: l2) e, None) ->
  (forall destDir qmtime,
      let s := saveMultipartTo time_Parse destDir
                 (mkReader (l1 ++ part :: l2) e) qmtime in
      s_filenames s = [] /\ s_mimetypes s = [] /\ s_err s <> None)
  /\ fst (handlePost time_Parse mime_ParseMediaType ioutil_TempDir
            ioutil_TempFile os_Create os_Chtimes UploadFile flagParanoid
            cache r)
     = http_Error "no files in request" 400.
Proof.
  intros Hstored Hfail Hdn Hct Hmr.
  assert (Hsave : forall destDir qmtime,
    let s := saveMultipartTo time_Parse destDir
               (mkReader (l1 ++ part :: l2) e) qmtime in
    s_filenames s = [] /\ s_mimetypes s = [] /\ s_err s <> None).
  { intros destDir qmtime. unfold saveMultipartTo. cbn [mr_parts].
    destruct (saveParts_stored_prefix time_Parse destDir l1 (part :: l2)
                Hstored qmtime [] [] []) as (q' & f' & m' & o' & ->).
    destruct (saveParts_failing time_Parse destDir part l2 q' f' m' o' Hfail)
      as (e' & ops' & ->).
    cbn. repeat split. discriminate. }
  split; [exact Hsave |].
  destruct (ingest_multipart time_Parse mime_ParseMediaType ioutil_TempFile
              os_Create os_Chtimes dn r params _ Hct Hmr) as [qmtime Hin].
  destruct (Hsave dn qmtime) as (Hf & Hm & _). rewrite Hf, Hm in Hin.
  unfold handlePost. now rewrite Hdn, Hin.
Qed.

Lemma failed_part_is_reported_as_no_files_witness :
  fst (handlePost exampleParse plainMediaType sampleTempDir sampleTempFile
         noError noError sampleUpload "" (fun _ => "")
         (mkRequest formHeader noQuery [] None
            (mkReader [sampleFile; unwritablePart] io_EOF, None)))
  = http_Error "no files in request" 400.
Proof.
  apply (failed_part_is_reported_as_no_files exampleParse plainMediaType
           sampleTempDir sampleTempFile noError noError sampleUpload ""
           (fun _ => "")
           (mkRequest formHeader noQuery [] None
              (mkReader [sampleFile; unwritablePart] io_EOF, None))
           "/tmp/camproxy1" (fun _ => "") [sampleFile] [] unwritablePart
           io_EOF).
  - repeat constructor.
  - split; [reflexivity |]. left. discriminate.
  - reflexivity.
  - reflexivity.
  - reflexivity.
Defined.

(** X11.  An inline [mtime] part shorter than 23 bytes is accepted when
    its reading ends cleanly or with [io.EOF]: the fallback becomes the 23
    zero bytes of the buffer followed by the bytes read.  When its reading
    fails with another error, the fallback stays what it was. *)
Theorem short_mtime_part
  (time_Parse : string -> string -> option Time) (destDir : string)
  (part : Part) (rest : list Part) (nextErr : error) (qmtime : string) :
  p_FileName part = "" ->
  p_FormName part = "mtime" ->
  length (p_body part) < 23 ->
  saveMultipartTo time_Parse destDir (mkReader (part :: rest) nextErr) qmtime
  = saveMultipartTo time_Parse destDir (mkReader rest nextErr)
      (match p_readErr part with
       | Some e =>
           if is_EOF e
           then string_of_list_ascii (repeat zeroByte 23 ++ p_body part)
           else qmtime
       | None => string_of_list_ascii (repeat zeroByte 23 ++ p_body part)
       end).
Proof.
  intros Hfile Hform Hlen. unfold saveMultipartTo.
  cbn [mr_parts saveParts]. rewrite Hfile, Hform.
  cbn [String.eqb]. unfold io_CopyN.
  destruct (Nat.leb_spec 23 (length (p_body part))); [lia |].
  destruct (p_readErr part) as [e |]; reflexivity.
Qed.

Lemma short_mtime_part_witness :
  saveMultipartTo exampleParse "/tmp/camproxy1"
    (mkReader [mkPart "" "mtime" "" "" (list_ascii_of_string "1136214245")
                      None None] io_EOF) ""
  = saveMultipartTo exampleParse "/tmp/camproxy1" (mkReader [] io_EOF)
      (string_of_list_ascii
         (repeat zeroByte 23 ++ list_ascii_of_string "1136214245")).
Proof.
  apply (short_mtime_part exampleParse "/tmp/camproxy1"
           (mkPart "" "mtime" "" "" (list_ascii_of_string "1136214245")
                   None None) [] io_EOF "").
  - reflexivity.
  - reflexivity.
  - vm_compute; lia.
Defined.

(** ** Direct uploads and the handler's answers *)

(** X12.  The error a direct upload returns with its file is that of the
    last call made: the error of the copy of the body when no modification
    time is applied, and the error of [os.Chtimes] otherwise.  So a failed
    copy goes unreported when a time is applied and [os.Chtimes] succeeds,
    and a failed [os.Chtimes] fails an upload whose body was saved. *)
Theorem direct_upload_error_is_that_of_the_last_call
  (time_Parse : string -> string -> option Time)
  (mime_ParseMediaType : string -> string * (string -> string) * option error)
  (ioutil_TempFile : string -> string * option error)
  (os_Create os_Chtimes : string -> option error)
  (destDir : string) (r : Request)
  (fn mimetype : string) (err : option error) (ops : list fsop) :
  saveDirectTo time_Parse mime_ParseMediaType ioutil_TempFile os_Create
               os_Chtimes destDir r = (fn, mimetype, err, ops) ->
  fn <> "" ->
  err = if Time_IsZero (parseLastModified time_Parse
                          (r_Header r "Last-Modified") (r_Query r "mtime"))
        then r_bodyErr r else os_Chtimes fn.
Proof.
  unfold saveDirectTo. intros H Hfn.
  destruct (if (if negb (r_Header r "Content-Disposition" =? "")%string
                then let '(_, params, err0) :=
                       mime_ParseMediaType (r_Header r "Content-Disposition") in
                     match err0 with
                     | Some _ => ""
                     | None => params "filename"
                     end
                else "") =? ""
            then _ else _)%string as [fn0 [fh [e |]]].
  - injection H as <- _ _ _. contradiction.
  - destruct (Time_IsZero _); cbn [negb] in H; injection H as <- _ <- _;
      reflexivity.
Qed.

Lemma direct_upload_error_is_that_of_the_last_call_witness :
  let r := mkRequest (fun _ => "") datedQuery (list_ascii_of_string "trunc")
                     diskFull (mkReader [] io_EOF, None) in
  saveDirectTo exampleParse plainMediaType sampleTempFile noError noError
               "/tmp/camproxy1" r
  = ("/tmp/camproxy1/file-1", "", None,
     [OpCreate "/tmp/camproxy1/file-1";
      OpWrite "/tmp/camproxy1/file-1" (list_ascii_of_string "trunc");
      OpChtimes "/tmp/camproxy1/file-1" (time_Unix 1000000000 0)])
  /\ @None error
     = if Time_IsZero (parseLastModified exampleParse
                         (r_Header r "Last-Modified") (r_Query r "mtime"))
       then r_bodyErr r else noError "/tmp/camproxy1/file-1".
Proof.
  cbv zeta. split; [reflexivity |].
  apply (direct_upload_error_is_that_of_the_last_call exampleParse
           plainMediaType sampleTempFile noError noError "/tmp/camproxy1"
           (mkRequest (fun _ => "") datedQuery (list_ascii_of_string "trunc")
                      diskFull (mkReader [] io_EOF, None))
           "/tmp/camproxy1/file-1" "" None
           [OpCreate "/tmp/camproxy1/file-1";
            OpWrite "/tmp/camproxy1/file-1" (list_ascii_of_string "trunc");
            OpChtimes "/tmp/camproxy1/file-1" (time_Unix 1000000000 0)]).
  - reflexivity.
  - discriminate.
Defined.

(** X13.  Whatever the request and the environment, the [POST] case
    answers 201, 400 or 500, or panics in the archiver's path computation;
    an answer of 400 or 500 leaves the mime cache as it was and no paranoid
    copy to make. *)
Theorem post_answers
  (time_Parse : string -> string -> option Time)
  (mime_ParseMediaType : string -> string * (string -> string) * option error)
  (ioutil_TempDir : string * option error)
  (ioutil_TempFile : string -> string * option error)
  (os_Create os_Chtimes : string -> option error)
  (UploadFile : string -> bool -> Ref * Ref * option error)
  (flagParanoid : string) (cache : MimeCache) (r : Request) :
  let out := handlePost time_Parse mime_ParseMediaType ioutil_TempDir
               ioutil_TempFile os_Create os_Chtimes UploadFile flagParanoid
               cache r in
  (fst out = panicked \/ status (fst out) = 201
   \/ status (fst out) = 400 \/ status (fst out) = 500)
  /\ (status (fst out) = 400 \/ status (fst out) = 500 ->
      snd out = cache /\ paranoid (fst out) = None).
Proof.
  cbv zeta. unfold handlePost.
  destruct ioutil_TempDir as [dn [e |]]; [cbn; split; auto |].
  destruct (ingest _ _ _ _ _ dn r) as [resp | [[filenames mimetypes] [e |]]]
    eqn:Ein.
  - unfold ingest in Ein.
    destruct (mime_ParseMediaType (r_Header r "Content-Type"))
      as [[ct ps] err].
    destruct ((_ =? "multipart/form")%string
              || (_ =? "multipart/form-data")%string
              || (_ =? "application/x-www-form-urlencoded")%string).
    + destruct (r_MultipartReader r) as [mr [e |]]; [| discriminate].
      injection Ein as <-. cbn. split; auto.
    + destruct (saveDirectTo _ _ _ _ _ dn r) as [[[fn mime] err'] ops].
      destruct (negb (fn =? "")%string); discriminate.
  - cbn. split; auto.
  - destruct filenames as [| f [| f' filenames]].
    + cbn. split; auto.
    + destruct (UploadFile f _) as [[content perma] [e |]];
        [cbn; split; auto |].
      destruct (_ : result (option (string * string))) as [para | e |];
        cbn [fst snd status panicked]; (split; [auto |]);
        intros [H | H]; discriminate.
    + destruct (UploadFile dn _) as [[content perma] [e |]];
        [cbn; split; auto |].
      destruct (_ : result (option (string * string))) as [para | e |];
        cbn [fst snd status panicked]; (split; [auto |]);
        intros [H | H]; discriminate.
Qed.

Lemma post_answers_witness :
  snd (handlePost exampleParse plainMediaType sampleTempDir sampleTempFile
         noError noError sampleUpload "" emptyCache emptyForm)
  = emptyCache
  /\ paranoid
       (fst (handlePost exampleParse plainMediaType sampleTempDir
               sampleTempFile noError noError sampleUpload "" emptyCache
               emptyForm))
     = None.
Proof.
  refine (proj2 (post_answers exampleParse plainMediaType sampleTempDir
                   sampleTempFile noError noError sampleUpload ""
                   emptyCache emptyForm) _).
  left. reflexivity.
Defined.

(** ** The archiver's switch *)

Lemma string_of_list_ascii_nonempty (c : ascii) (l : bytes) :
  string_of_list_ascii (c :: l) <> "".
Proof. discriminate. Qed.

Lemma filepath_Clean_nonempty (path : string) : filepath_Clean path <> "".
Proof.
  unfold filepath_Clean. destruct (list_ascii_of_string path) as [| c l];
    [discriminate |].
  destruct (Ascii.eqb c slash); [discriminate |].
  destruct (joinSlash _); discriminate.
Qed.

Lemma filepath_Join_nonempty (e : string) (rest : list string) :
  e <> "" -> filepath_Join (e :: rest) <> "".
Proof.
  intros He. cbn [filepath_Join]. apply String.eqb_neq in He. rewrite He.
  apply filepath_Clean_nonempty.
Qed.

Lemma Val_inj {A : Type} (a b : A) : Val a = Val b -> a = b.
Proof. now intros [= H]. Qed.

Lemma IndexByte_present (pre post : bytes) (c : ascii) :
  exists i, bytes_IndexByte (pre ++ c :: post) c = Some i.
Proof.
  induction pre as [| x pre [i IH]]; cbn [app bytes_IndexByte].
  - rewrite Ascii.eqb_refl. eauto.
  - destruct (Ascii.eqb x c); [eauto |]. rewrite IH. eauto.
Qed.

(** X14.  [getParanoidPath] never returns an error, and it returns the
    empty path, which turns the paranoid copy off, exactly when no backup
    root is configured or the reference is not valid: for a valid reference
    under a configured root it gives a path that is not empty, or panics
    (on a digest shorter than six characters). *)
Theorem paranoid_path_empty_iff (flagParanoid : string) (br : Ref) :
  (getParanoidPath flagParanoid br = Val ""
   <-> flagParanoid = "" \/ Ref_Valid br = false)
  /\ (forall e, getParanoidPath flagParanoid br <> Fail e).
Proof.
  unfold getParanoidPath.
  destruct (String.eqb_spec flagParanoid "") as [-> | Hflag]; cbn [orb].
  { split; [tauto | discriminate]. }
  destruct br as [d |]; cbn [Ref_Valid negb].
  2:{ split; [tauto | discriminate]. }
  unfold Ref_String. rewrite !list_ascii_of_string_app.
  cbn [list_ascii_of_string app].
  destruct (IndexByte_present (list_ascii_of_string (hashName d))
              (list_ascii_of_string
                 (string_of_list_ascii (hex_EncodeToString (sum d))))
              "-"%char) as [i ->].
  destruct (6 <=? _).
  - split; [| discriminate]. split.
    + intros H. apply Val_inj in H.
      now apply filepath_Join_nonempty in H.
    + intros [H | H]; [contradiction | discriminate].
  - split; [| discriminate]. split; [discriminate |].
    intros [H | H]; [contradiction | discriminate].
Qed.

(** ** The reference codec, the other cases *)

Lemma lowerByte_dash (c : ascii) : lowerByte c = "-"%char -> c = "-"%char.
Proof.
  destruct c as [[] [] [] [] [] [] [] []]; vm_compute; intros H;
    first [reflexivity | discriminate H].
Qed.

Lemma ToLower_no_dash (pre : bytes) :
  ~ In "-"%char pre -> ~ In "-"%char (bytes_ToLower pre).
Proof.
  unfold bytes_ToLower. intros Hn Hin.
  apply in_map_iff in Hin as (c & Hc & Hin).
  apply lowerByte_dash in Hc. subst c. contradiction.
Qed.

Section CodecCases.

Variable hashSize : string -> option nat.
Variable sliceCap : nat -> nat.
Hypothesis sliceCap_ge : forall n, n <= sliceCap n.

(** [Base64ToRef] on a short form whose tag is written in any case. *)
Lemma Base64ToRef_anycase (pre d : bytes) :
  ~ In "-"%char pre ->
  hashSize (string_of_list_ascii (bytes_ToLower pre)) = Some (length d) ->
  tagFits (string_of_list_ascii (bytes_ToLower pre)) (length d) ->
  Base64ToRef hashSize sliceCap
    (string_of_list_ascii (pre ++ "-"%char :: base64_EncodeToString d))
  = Val (Some (mkDigest (string_of_list_ascii (bytes_ToLower pre)) d)).
Proof.
  intros Hn Hsz (Hlow & Hle & H64 & H128).
  rewrite <- length_list_ascii_of_string,
    list_ascii_of_string_of_list_ascii in Hle, H128.
  assert (Hll : length (bytes_ToLower pre) = length pre)
    by apply length_map.
  rewrite Hll in Hle, H128.
  unfold Base64ToRef.
  rewrite list_ascii_of_string_of_list_ascii.
  rewrite <- length_list_ascii_of_string,
    list_ascii_of_string_of_list_ascii.
  set (t := pre ++ "-"%char :: base64_EncodeToString d).
  assert (Hlt : length t = length pre + 1 + 4 * ((length d + 2) / 3)).
  { unfold t. rewrite length_app. cbn [length].
    rewrite length_base64_EncodeToString. lia. }
  assert (Hi : (if 2 * 64 <? length t then 2 * 64 else length t) = length t).
  { destruct (Nat.ltb_spec (2 * 64) (length t)); lia. }
  rewrite Hi, firstn_all.
  unfold t at 1. rewrite IndexByte_app by assumption.
  assert (Hskip : skipn (length pre + 1) t = base64_EncodeToString d).
  { unfold t.
    replace (length pre + 1) with (length (pre ++ ["-"%char]))
      by (rewrite length_app; reflexivity).
    change (pre ++ "-"%char :: base64_EncodeToString d)
      with (pre ++ ["-"%char] ++ base64_EncodeToString d).
    now rewrite app_assoc, skipn_app_exact. }
  rewrite Hskip, base64_Decode_encode by exact H64.
  set (low := bytes_ToLower pre) in *.
  set (u := low ++ "-"%char :: base64_EncodeToString d).
  assert (Hcopy : bytes_ToLower (firstn (length pre) t)
                    ++ skipn (length pre) t = u).
  { unfold t, u. now rewrite firstn_app_exact, skipn_app_exact. }
  assert (Hlu : length u = length t).
  { unfold u, t. rewrite !length_app. cbn [length]. lia. }
  rewrite Hcopy, Hlu.
  set (t2 := u ++ repeat zeroByte (sliceCap (length t) - length t)).
  set (n := (2 * Z.of_nat (length d) - Z.of_nat (length t2)
             + Z.of_nat (length d) + 1)%Z).
  set (t3 := if (0 <? n)%Z then t2 ++ repeat zeroByte (Z.to_nat n) else t2).
  assert (Ht3 : exists zs, t3 = u ++ zs
                           /\ 3 * length d + 1 <= length (u ++ zs)).
  { assert (Hl2 : length t2 = sliceCap (length t)).
    { unfold t2. rewrite length_app, repeat_length, Hlu.
      pose proof (sliceCap_ge (length t)). lia. }
    unfold t3. destruct (Z.ltb_spec 0 n) as [Hpos | Hneg].
    - exists (repeat zeroByte (sliceCap (length t) - length t)
                ++ repeat zeroByte (Z.to_nat n)).
      split; [unfold t2; now rewrite app_assoc |].
      rewrite app_assoc. fold t2. rewrite length_app, repeat_length.
      unfold n in *. lia.
    - exists (repeat zeroByte (sliceCap (length t) - length t)).
      split; [reflexivity |]. fold t2. unfold n in *. lia. }
  destruct Ht3 as (zs & -> & Hlen3).
  assert (Hskip3 : skipn (length pre + 1) (u ++ zs)
                   = base64_EncodeToString d ++ zs).
  { unfold u. rewrite <- Hll.
    replace (length low + 1) with (length (low ++ ["-"%char]))
      by (rewrite length_app; reflexivity).
    change (low ++ "-"%char :: base64_EncodeToString d)
      with (low ++ ["-"%char] ++ base64_EncodeToString d).
    now rewrite !app_assoc, <- app_assoc, skipn_app_exact. }
  rewrite Hskip3. unfold hex_Encode.
  assert (Hfit : 2 * length d <= length (base64_EncodeToString d ++ zs)).
  { rewrite <- Hskip3, length_skipn. lia. }
  apply Nat.leb_le in Hfit as ->.
  assert (Hfirst : firstn (length pre + 1) (u ++ zs) = low ++ ["-"%char]).
  { unfold u. rewrite <- Hll.
    change (low ++ "-"%char :: base64_EncodeToString d)
      with (low ++ ["-"%char] ++ base64_EncodeToString d).
    rewrite !app_assoc, <- app_assoc.
    replace (length low + 1) with (length (low ++ ["-"%char]))
      by (rewrite length_app; reflexivity).
    apply firstn_app_exact. }
  rewrite Hfirst.
  assert (Harg :
    firstn (length pre + 1 + 2 * length d)
      ((low ++ ["-"%char])
         ++ hex_EncodeToString d
         ++ skipn (2 * length d) (base64_EncodeToString d ++ zs))
    = low ++ "-"%char :: hex_EncodeToString d).
  { rewrite app_assoc, <- Hll.
    replace (length low + 1 + 2 * length d)
      with (length ((low ++ ["-"%char]) ++ hex_EncodeToString d))
      by (rewrite !length_app, length_hex_EncodeToString; reflexivity).
    rewrite firstn_app_exact, <- app_assoc. reflexivity. }
  rewrite Harg, blob_Parse_canonical; auto.
  now apply ToLower_no_dash.
Qed.

(** [blob.Parse] refuses a short form whose base64 text has not the
    length of the hexadecimal digest. *)
Lemma blob_Parse_short_form (pre d : bytes) :
  ~ In "-"%char pre ->
  hashSize (string_of_list_ascii pre) = Some (length d) ->
  4 * ((length d + 2) / 3) <> 2 * length d ->
  blob_Parse hashSize
    (string_of_list_ascii (pre ++ "-"%char :: base64_EncodeToString d))
  = None.
Proof.
  intros Hn Hsz Hne. unfold blob_Parse.
  rewrite list_ascii_of_string_of_list_ascii, IndexByte_app by assumption.
  rewrite firstn_app_exact, Hsz.
  replace (length pre + 1) with (length (pre ++ ["-"%char]))
    by (rewrite length_app; reflexivity).
  change (pre ++ "-"%char :: base64_EncodeToString d)
    with (pre ++ ["-"%char] ++ base64_EncodeToString d).
  rewrite app_assoc, skipn_app_exact, length_base64_EncodeToString.
  apply Nat.eqb_neq in Hne. now rewrite Hne.
Qed.

Lemma Base64ToRef_valid (arg : string) (br : Ref) :
  Base64ToRef hashSize sliceCap arg = Val br -> Ref_Valid br = true.
Proof.
  unfold Base64ToRef.
  destruct (bytes_IndexByte _ _) as [i |]; [| discriminate].
  destruct (base64_Decode _ _) as [[b n] | e |]; try discriminate.
  destruct (hex_Encode _ _) as [[dst n'] | e |]; try discriminate.
  destruct (blob_Parse _ _); [| discriminate].
  now intros [= <-].
Qed.

End CodecCases.

Lemma ToLower_dash_in (tag : bytes) :
  In "-"%char tag -> In "-"%char (bytes_ToLower tag).
Proof.
  intros H. unfold bytes_ToLower. apply in_map_iff.
  exists "-"%char. split; [reflexivity | exact H].
Qed.

(** X15.  [Base64ToRef] takes the algorithm tag of a short form in any
    case: it lowers the tag before it rebuilds the canonical text, so the
    short form of a valid reference is decoded to that reference also when
    its tag is written in capitals. *)
Theorem Base64ToRef_lowers_the_tag
  (hashSize : string -> option nat) (sliceCap : nat -> nat)
  (R tag : string) (d : digest) :
  (forall n, n <= sliceCap n) ->
  (forall name size, hashSize name = Some size -> tagFits name size) ->
  blob_Parse hashSize R = Some d ->
  bytes_ToLower (list_ascii_of_string tag) = list_ascii_of_string (hashName d) ->
  Base64ToRef hashSize sliceCap
    (tag ++ "-" ++ string_of_list_ascii (base64_EncodeToString (sum d)))
  = Val (Some d).
Proof.
  intros Hcap Htab Hparse Hlow.
  destruct (blob_Parse_inv hashSize R d Hparse)
    as (pre & Htxt & Hpre & Hname & Hsize).
  pose proof (Htab _ _ Hsize) as Hfits.
  assert (Hpre' : list_ascii_of_string (hashName d) = pre).
  { rewrite Hname. apply list_ascii_of_string_of_list_ascii. }
  assert (Htag : ~ In "-"%char (list_ascii_of_string tag)).
  { intros Hin. apply ToLower_dash_in in Hin. rewrite Hlow, Hpre' in Hin.
    contradiction. }
  assert (Hlowname : string_of_list_ascii
                       (bytes_ToLower (list_ascii_of_string tag))
                     = hashName d).
  { rewrite Hlow. apply string_of_list_ascii_of_string. }
  replace (tag ++ "-"
             ++ string_of_list_ascii (base64_EncodeToString (sum d)))%string
    with (string_of_list_ascii
            (list_ascii_of_string tag
               ++ "-"%char :: base64_EncodeToString (sum d))).
  2:{ rewrite <- (string_of_list_ascii_of_string
                    (tag ++ "-"
                       ++ string_of_list_ascii
                            (base64_EncodeToString (sum d)))%string).
      rewrite !list_ascii_of_string_app, !list_ascii_of_string_of_list_ascii.
      reflexivity. }
  rewrite (Base64ToRef_anycase hashSize sliceCap Hcap); auto.
  - rewrite Hlowname. now destruct d.
  - now rewrite Hlowname.
  - now rewrite Hlowname.
Qed.

Lemma Base64ToRef_lowers_the_tag_witness :
  Base64ToRef sha1Table (fun n => n) "SHA1-ASNFZ4mrze8BI0VniavN7wEjRWc="
  = Val sampleRef.
Proof.
  apply (Base64ToRef_lowers_the_tag sha1Table (fun n => n)
           "sha1-0123456789abcdef0123456789abcdef01234567" "SHA1"
           (mkDigest "sha1"
              (map ascii_of_nat
                 [1; 35; 69; 103; 137; 171; 205; 239; 1; 35;
                  69; 103; 137; 171; 205; 239; 1; 35; 69; 103]))).
  - intros n. apply le_n.
  - exact sha1Table_fits.
  - reflexivity.
  - reflexivity.
Defined.

(** X16.  [ParseBlobNames] reads a valid reference from its canonical
    text and from its base64 short form alike, as long as the short form
    cannot be taken for a canonical text (its base64 digest has not the
    length of the hexadecimal one, as for every digest size but 0, 2 and
    4 bytes). *)
Theorem ParseBlobNames_reads_both_forms
  (hashSize : string -> option nat) (sliceCap : nat -> nat)
  (items : list Ref) (R : string) (d : digest) :
  (forall n, n <= sliceCap n) ->
  (forall name size, hashSize name = Some size -> tagFits name size) ->
  blob_Parse hashSize R = Some d ->
  4 * ((length (sum d) + 2) / 3) <> 2 * length (sum d) ->
  ParseBlobNames hashSize sliceCap items [R; RefToBase64 (Some d)]
  = Val (items ++ [Some d; Some d]).
Proof.
  intros Hcap Htab Hparse Hlen.
  destruct (blob_Parse_inv hashSize R d Hparse)
    as (pre & Htxt & Hpre & Hname & Hsize).
  pose proof (Htab _ _ Hsize) as Hfits. rewrite Hname in Hsize, Hfits.
  assert (Hshort : RefToBase64 (Some d)
                   = string_of_list_ascii
                       (pre ++ "-"%char :: base64_EncodeToString (sum d))).
  { unfold RefToBase64. rewrite Hname.
    rewrite <- (string_of_list_ascii_of_string
                  (string_of_list_ascii pre ++ "-"
                     ++ string_of_list_ascii
                          (base64_EncodeToString (sum d)))%string).
    rewrite !list_ascii_of_string_app, !list_ascii_of_string_of_list_ascii.
    reflexivity. }
  cbn [ParseBlobNames]. rewrite Hparse, Hshort.
  rewrite blob_Parse_short_form by assumption.
  rewrite (Base64ToRef_short hashSize sliceCap Hcap) by assumption.
  rewrite <- app_assoc. cbn. repeat f_equal.
  destruct d as [name s]. cbn [hashName sum] in *. now rewrite Hname.
Qed.

Lemma ParseBlobNames_reads_both_forms_witness :
  ParseBlobNames sha1Table (fun n => n) []
    ["sha1-0123456789abcdef0123456789abcdef01234567";
     "sha1-ASNFZ4mrze8BI0VniavN7wEjRWc="]
  = Val [sampleRef; sampleRef].
Proof.
  apply (ParseBlobNames_reads_both_forms sha1Table (fun n => n) []
           "sha1-0123456789abcdef0123456789abcdef01234567"
           (mkDigest "sha1"
              (map ascii_of_nat
                 [1; 35; 69; 103; 137; 171; 205; 239; 1; 35;
                  69; 103; 137; 171; 205; 239; 1; 35; 69; 103]))).
  - intros n. apply le_n.
  - exact sha1Table_fits.
  - reflexivity.
  - vm_compute. discriminate.
Defined.

(** X17.  When [ParseBlobNames] succeeds it returns the items it was
    given followed by one reference for each name, each of them valid; so
    for one name the result is never empty and the handler's answer "a
    blobref is needed!" cannot occur. *)
Theorem ParseBlobNames_appends_valid_refs
  (hashSize : string -> option nat) (sliceCap : nat -> nat)
  (items out : list Ref) (names : list string) :
  ParseBlobNames hashSize sliceCap items names = Val out ->
  exists parsed,
    out = items ++ parsed
    /\ length parsed = length names
    /\ Forall (fun br => Ref_Valid br = true) parsed.
Proof.
  revert items out. induction names as [| arg names IH]; intros items out H.
  - injection H as <-. exists []. rewrite app_nil_r. auto.
  - cbn [ParseBlobNames] in H.
    destruct (blob_Parse hashSize arg) as [d |] eqn:Ep.
    + destruct (IH _ _ H) as (parsed & -> & Hl & Hv).
      exists (Some d :: parsed). rewrite <- app_assoc. cbn.
      repeat split; auto.
    + destruct (Base64ToRef hashSize sliceCap arg) as [br | e |] eqn:Eb;
        try discriminate.
      destruct (IH _ _ H) as (parsed & -> & Hl & Hv).
      exists (br :: parsed). rewrite <- app_assoc. cbn.
      repeat split; auto. constructor; auto.
      eapply Base64ToRef_valid; eauto.
Qed.

Lemma ParseBlobNames_appends_valid_refs_witness :
  exists parsed,
    [sampleRef; sampleRef] = [] ++ parsed
    /\ length parsed = 2
    /\ Forall (fun br => Ref_Valid br = true) parsed.
Proof.
  apply (ParseBlobNames_appends_valid_refs sha1Table (fun n => n) []
           [sampleRef; sampleRef]
           ["sha1-0123456789abcdef0123456789abcdef01234567";
            "sha1-ASNFZ4mrze8BI0VniavN7wEjRWc="]).
  reflexivity.
Defined.

(** X18.  [ParseBlobNames] works through the names from left to right and
    stops at the first one it cannot read: parsing a list of names is
    parsing its first part and then the rest on top of the result, and a
    failure (or panic) in the first part is the outcome whatever
    follows. *)
Theorem ParseBlobNames_stops_at_first_failure
  (hashSize : string -> option nat) (sliceCap : nat -> nat)
  (items : list Ref) (l1 l2 : list string) :
  ParseBlobNames hashSize sliceCap items (l1 ++ l2)
  = match ParseBlobNames hashSize sliceCap items l1 with
    | Val mid => ParseBlobNames hashSize sliceCap mid l2
    | Fail e => Fail e
    | Panic => Panic
    end.
Proof.
  revert items. induction l1 as [| arg l1 IH]; intros items; [reflexivity |].
  cbn [app ParseBlobNames].
  destruct (blob_Parse hashSize arg); [apply IH |].
  destruct (Base64ToRef hashSize sliceCap arg); auto.
Qed.

(** ** The smart fetch engine, the other cases *)

(** X19.  The metadata of the blobs never decides the outcome of a fetch:
    whatever mode and time they carry and whether [os.Chmod] and
    [os.Chtimes] fail or not, [smartFetch] returns the same error or nil
    (failures of [setFileMeta] are logged, not returned). *)
Theorem smartFetch_ignores_metadata
  (f : fileMeta -> fileMeta) (Verbose : bool) (b : blob) :
  forall targ,
    fst (smartFetch Verbose targ (mapMeta f b))
    = fst (smartFetch Verbose targ b).
Proof.
  induction b as [br e | e | body c1 c2 | br fn meta mk
                  | br fn meta mk child IH | members IH
                  | br fn meta r c ex c1 c2 | type] using blob_tree_ind;
    intros targ; try reflexivity.
  - cbn [mapMeta smartFetch]. destruct mk; reflexivity.
  - cbn [mapMeta smartFetch]. destruct mk; [reflexivity |].
    specialize (IH (filepath_Join [targ; fn])).
    destruct (smartFetch Verbose (filepath_Join [targ; fn]) (mapMeta f child)).
    destruct (smartFetch Verbose (filepath_Join [targ; fn]) child).
    exact IH.
  - cbn [mapMeta smartFetch fst]. rewrite !map_map. f_equal.
    apply map_ext_in. intros m Hm. rewrite Forall_forall in IH.
    now apply IH.
  - cbn [mapMeta smartFetch]. unfold fetchFile.
    destruct r; [reflexivity |].
    destruct c1; [destruct ex as [size |]; [destruct (size =? size)%Z, Verbose |];
                  reflexivity |].
    destruct c2; destruct ex as [size |];
      try (destruct (size =? size)%Z, Verbose); reflexivity.
Qed.

Lemma nothingExists_members (members : list blob) :
  (fix all (l : list blob) : Prop :=
     match l with
     | [] => True
     | m :: l' => nothingExists m /\ all l'
     end) members
  <-> Forall nothingExists members.
Proof.
  induction members as [| m members IH].
  - split; auto.
  - rewrite IH. split.
    + intros [H1 H2]. now constructor.
    + intros H. now inversion H.
Qed.

(** X20.  Verbose logging changes what [smartFetch] does only where a
    file is found at the target path of a [file] blob: on a tree none of
    whose file blobs finds one, the outcome and the changes made to the
    disk are the same with the flag and without. *)
Theorem verbose_matters_only_for_existing_files (b : blob) :
  nothingExists b ->
  forall targ, smartFetch true targ b = smartFetch false targ b.
Proof.
  induction b as [br e | e | body c1 c2 | br fn meta mk
                  | br fn meta mk child IH | members IH
                  | br fn meta r c ex c1 c2 | type] using blob_tree_ind;
    intros Hn targ; try reflexivity.
  - cbn [nothingExists] in Hn. cbn [smartFetch].
    now rewrite (IH Hn (filepath_Join [targ; fn])).
  - cbn [nothingExists] in Hn. apply nothingExists_members in Hn.
    cbn [smartFetch].
    assert (Hmap : map (smartFetch true targ) members
                   = map (smartFetch false targ) members).
    { apply map_ext_in. intros m Hm. rewrite Forall_forall in IH, Hn.
      apply IH; auto. }
    now rewrite Hmap.
  - cbn [nothingExists] in Hn. subst ex. reflexivity.
Qed.

Lemma verbose_matters_only_for_existing_files_witness :
  let fresh :=
    StaticSet [File "sha1-b0" "b.txt" sampleMeta None
                    (list_ascii_of_string "world") None None None] in
  smartFetch true "/t" fresh = smartFetch false "/t" fresh.
Proof.
  cbv zeta.
  apply (verbose_matters_only_for_existing_files
           (StaticSet [File "sha1-b0" "b.txt" sampleMeta None
                            (list_ascii_of_string "world") None None None])).
  cbn. auto.
Defined.

(** X21.  [Save] fetches the items one after the other and never returns
    an error: it returns nil after fetching all of them, all without
    error, or the process exits at the first item whose fetch fails, with
    that error, the items after it never being fetched. *)
Theorem Save_returns_nil_or_exits
  (Verbose : bool) (destDir : string) (contents : bool) (items : list blob) :
  match Downloader_Save Verbose destDir contents items with
  | (SaveReturns err, fetched) =>
      err = None /\ fetched = items
      /\ Forall (fun br => fst (smartFetch Verbose destDir br) = None) items
  | (SaveExits e, fetched) =>
      exists l1 br l2,
        items = l1 ++ br :: l2 /\ fetched = l1 ++ [br]
        /\ Forall (fun x => fst (smartFetch Verbose destDir x) = None) l1
        /\ fst (smartFetch Verbose destDir br) = Some e
  end.
Proof.
  induction items as [| br items IH]; cbn [Downloader_Save].
  - auto.
  - destruct (fst (smartFetch Verbose destDir br)) as [e |] eqn:Eb.
    + exists [], br, items. auto.
    + destruct (Downloader_Save Verbose destDir contents items)
        as [[err | e] fetched].
      * destruct IH as (-> & -> & Hall). auto.
      * destruct IH as (l1 & m & l2 & -> & -> & Hall & Hm).
        exists (br :: l1), m, l2. repeat split; auto.
Qed.

(** ** Closing several readers *)

Lemma multiCloser_loop_spec (closers : list (option error)) :
  forall err closed,
    multiCloser_loop err closers closed
    = (match err with Some e => Some e | None => firstErr closers end,
       closed + length closers).
Proof.
  induction closers as [| c closers IH]; intros err closed.
  - cbn. rewrite Nat.add_0_r. now destruct err.
  - cbn [multiCloser_loop firstErr length]. rewrite IH.
    f_equal; [| lia]. destruct c, err; reflexivity.
Qed.

(** X22.  [multiCloser.Close] closes every closer, also after one of
    them has failed, and returns the first error met, nil when there is
    none. *)
Theorem multiCloser_closes_all (closers : list (option error)) :
  multiCloser_Close closers = (firstErr closers, length closers).
Proof.
  unfold multiCloser_Close. now rewrite multiCloser_loop_spec.
Qed.

(** ** The worker pool, counting the members *)

Module PoolRuns.
Import Pool.
Import PoolFacts.

Lemma count_occ_cons_eqb (l : list nat) (x k : nat) :
  count_occ Nat.eq_dec (x :: l) k
  = (if x =? k then 1 else 0) + count_occ Nat.eq_dec l k.
Proof.
  cbn [count_occ]. destruct (Nat.eq_dec x k) as [E | E].
  - apply Nat.eqb_eq in E. now rewrite E.
  - apply Nat.eqb_neq in E. now rewrite E.
Qed.

Lemma count_occ_snoc_eqb (l : list nat) (x k : nat) :
  count_occ Nat.eq_dec (l ++ [x]) k
  = count_occ Nat.eq_dec l k + (if x =? k then 1 else 0).
Proof.
  rewrite count_occ_app, count_occ_cons_eqb. cbn [count_occ]. lia.
Qed.

Lemma fetching_take (l : list (option nat)) (j x k : nat) :
  nth_error l j = Some None ->
  length (filter (isFetching k) (set_nth l j (Some x)))
  = length (filter (isFetching k) l) + (if x =? k then 1 else 0).
Proof.
  revert j. induction l as [| w l IH]; intros [| j]; cbn [nth_error];
    try discriminate.
  - intros [= ->]. cbn [set_nth filter isFetching].
    destruct (x =? k); cbn [length]; lia.
  - intros Hj. cbn [set_nth filter].
    destruct (isFetching k w); cbn [length]; rewrite (IH j Hj); lia.
Qed.

Lemma fetching_finish (l : list (option nat)) (j x k : nat) :
  nth_error l j = Some (Some x) ->
  length (filter (isFetching k) l)
  = length (filter (isFetching k) (set_nth l j None))
    + (if x =? k then 1 else 0).
Proof.
  revert j. induction l as [| w l IH]; intros [| j]; cbn [nth_error];
    try discriminate.
  - intros [= ->]. cbn [set_nth filter isFetching].
    destruct (x =? k); cbn [length]; lia.
  - intros Hj. cbn [set_nth filter].
    destruct (isFetching k w); cbn [length]; rewrite (IH j Hj); lia.
Qed.

Lemma run_app (results : list (option error)) (evs1 evs2 : list event) :
  forall s,
    run results s (evs1 ++ evs2)
    = match run results s evs1 with
      | Some s1 => run results s1 evs2
      | None => None
      end.
Proof.
  induction evs1 as [| ev evs1 IH]; intros s; cbn [run app].
  - reflexivity.
  - destruct (step results s ev); [apply IH | reflexivity].
Qed.

Section Counting.

Variable results : list (option error).

Local Abbreviation n := (length results).

(** Member [k] is in one place exactly once it is queued, and nowhere
    before. *)
Definition once (s : state) : Prop :=
  forall k, occurrences s k = if k <? submitted results s then 1 else 0.

Lemma once_init : once init.
Proof.
  intros k. unfold occurrences, init, submitted.
  cbn [workc workers sent main]. unfold numWorkers. cbn. reflexivity.
Qed.

Lemma once_step (s s' : state) (ev : event) :
  inv results s -> once s -> step results s ev = Some s' -> once s'.
Proof.
  intros (_ & _ & Hmain) Honce Hstep k. specialize (Honce k).
  unfold occurrences, submitted in *.
  destruct ev as [| j | j]; cbn [step] in Hstep.
  - destruct (main s) as [k0 | k0 | r] eqn:Em; [| | discriminate].
    + destruct (k0 <? n) eqn:Elt; injection Hstep as <-;
        cbn [workc workers sent main].
      * rewrite count_occ_snoc_eqb.
        destruct (Nat.eqb_spec k0 k), (Nat.ltb_spec k k0),
          (Nat.ltb_spec k (S k0)); lia.
      * apply Nat.ltb_ge in Elt. assert (k0 = n) by lia. now subst k0.
    + destruct (k0 <? n); [| injection Hstep as <-; exact Honce].
      destruct (existsb (Nat.eqb k0) (sent s)); [| discriminate].
      destruct (nth k0 results None); injection Hstep as <-; exact Honce.
  - destruct (nth_error (workers s) j) as [[k0 |] |] eqn:Ej;
      try discriminate.
    destruct (workc s) as [| k0 q] eqn:Eq; [discriminate |].
    injection Hstep as <-. cbn [workc workers sent main].
    rewrite (fetching_take _ _ k0 k Ej).
    rewrite count_occ_cons_eqb in Honce. lia.
  - destruct (nth_error (workers s) j) as [[k0 |] |] eqn:Ej;
      try discriminate.
    injection Hstep as <-. cbn [workc workers sent main].
    rewrite count_occ_cons_eqb.
    pose proof (fetching_finish _ _ k0 k Ej) as Hf. lia.
Qed.

Lemma once_run (evs : list event) : forall s s',
  inv results s -> once s -> run results s evs = Some s' -> once s'.
Proof.
  induction evs as [| ev evs IH]; intros s s' Hinv Honce Hrun;
    cbn [run] in Hrun.
  - now injection Hrun as <-.
  - destruct (step results s ev) as [s1 |] eqn:E1; [| discriminate].
    eapply IH; [| | exact Hrun].
    + eapply inv_step; eauto.
    + eapply once_step; eauto.
Qed.

(** The queue, the goroutines and the result channels hold together as
    many members as were queued. *)
Definition tally (s : state) : Prop :=
  length (workc s) + running s + length (sent s) = submitted results s.

Lemma busy_running (s : state) : running s = busy (workers s).
Proof. reflexivity. Qed.

Lemma tally_step (s s' : state) (ev : event) :
  inv results s -> tally s -> step results s ev = Some s' -> tally s'.
Proof.
  intros (_ & _ & Hmain) Ht Hstep. unfold tally in *.
  rewrite busy_running in *. unfold submitted in *.
  destruct ev as [| j | j]; cbn [step] in Hstep.
  - destruct (main s) as [k0 | k0 | r] eqn:Em; [| | discriminate].
    + destruct (k0 <? n) eqn:Elt; injection Hstep as <-;
        cbn [workc workers sent main].
      * rewrite length_app. cbn [length]. lia.
      * apply Nat.ltb_ge in Elt. lia.
    + destruct (k0 <? n); [| injection Hstep as <-; exact Ht].
      destruct (existsb (Nat.eqb k0) (sent s)); [| discriminate].
      destruct (nth k0 results None); injection Hstep as <-; exact Ht.
  - destruct (nth_error (workers s) j) as [[k0 |] |] eqn:Ej;
      try discriminate.
    destruct (workc s) as [| k0 q] eqn:Eq; [discriminate |].
    injection Hstep as <-. cbn [workc workers sent main].
    rewrite (busy_take _ _ k0 Ej). cbn [length] in Ht. lia.
  - destruct (nth_error (workers s) j) as [[k0 |] |] eqn:Ej;
      try discriminate.
    injection Hstep as <-. cbn [workc workers sent main].
    pose proof (busy_finish _ _ _ Ej) as Hb. cbn [length]. lia.
Qed.

Lemma tally_run (evs : list event) : forall s s',
  inv results s -> tally s -> run results s evs = Some s' -> tally s'.
Proof.
  induction evs as [| ev evs IH]; intros s s' Hinv Ht Hrun;
    cbn [run] in Hrun.
  - now injection Hrun as <-.
  - destruct (step results s ev) as [s1 |] eqn:E1; [| discriminate].
    eapply IH; [| | exact Hrun].
    + eapply inv_step; eauto.
    + eapply tally_step; eauto.
Qed.

Lemma submitted_le (s : state) : inv results s -> submitted results s <= n.
Proof.
  intros (_ & _ & Hmain). unfold submitted.
  destruct (main s); lia.
Qed.

End Counting.

End PoolRuns.

(** ** The worker pool, reaching the end *)

Module PoolEnds.
Import Pool.
Import PoolFacts.

Section Ending.

Variable results : list (option error).

Local Abbreviation n := (length results).

(** The caller is never blocked while it queues the members. *)
Lemma submit_all (m : nat) : forall s k,
  inv results s -> main s = Submitting k -> n - k <= m ->
  exists evs s',
    run results s evs = Some s' /\ main s' = Collecting 0
    /\ inv results s'.
Proof.
  induction m as [| m IH]; intros s k Hinv Em Hm.
  - assert (Hstep : step results s Main
                    = Some (mkState (workc s) (workers s) (sent s)
                                    (Collecting 0))).
    { cbn [step]. rewrite Em.
      assert (E : (k <? n) = false) by (apply Nat.ltb_ge; lia).
      now rewrite E. }
    exists [Main]. eexists. cbn [run]. rewrite Hstep.
    split; [reflexivity |]. split; [reflexivity |].
    eapply inv_step; eauto.
  - destruct (k <? n) eqn:Elt.
    + assert (Hstep : step results s Main
                      = Some (mkState (workc s ++ [k]) (workers s) (sent s)
                                      (Submitting (S k)))).
      { cbn [step]. now rewrite Em, Elt. }
      pose proof (inv_step _ _ _ _ Hinv Hstep) as Hinv1.
      destruct (IH _ (S k) Hinv1 eq_refl) as (evs & s' & Hrun & Hrest);
        [lia |].
      exists (Main :: evs), s'. cbn [run]. rewrite Hstep. auto.
    + assert (Hstep : step results s Main
                      = Some (mkState (workc s) (workers s) (sent s)
                                      (Collecting 0))).
      { cbn [step]. now rewrite Em, Elt. }
      exists [Main]. eexists. cbn [run]. rewrite Hstep.
      split; [reflexivity |]. split; [reflexivity |].
      eapply inv_step; eauto.
Qed.

Lemma existsb_eqb_In (k : nat) (l : list nat) :
  In k l -> existsb (Nat.eqb k) l = true.
Proof.
  intros Hin. apply existsb_exists. exists k. split; [exact Hin |].
  apply Nat.eqb_refl.
Qed.

(** Once every member is done the caller reads the results without
    blocking, up to the first error or to the end. *)
Lemma collect_all (m : nat) : forall s k,
  main s = Collecting k -> n - k <= m ->
  (forall i, i < n -> In i (sent s)) ->
  exists evs s' r, run results s evs = Some s' /\ main s' = Returned r.
Proof.
  induction m as [| m IH]; intros s k Em Hm Hsent.
  - exists [Main]. cbn [run step]. rewrite Em.
    assert (E : (k <? n) = false) by (apply Nat.ltb_ge; lia).
    rewrite E. eexists. eexists. split; reflexivity.
  - destruct (k <? n) eqn:Elt.
    + apply Nat.ltb_lt in Elt.
      pose proof (existsb_eqb_In _ _ (Hsent k Elt)) as Hex.
      apply Nat.ltb_lt in Elt.
      destruct (nth k results None) as [e |] eqn:Enth.
      * exists [Main]. cbn [run step]. rewrite Em, Elt, Hex, Enth.
        eexists. eexists. split; reflexivity.
      * assert (Hstep : step results s Main
                        = Some (mkState (workc s) (workers s) (sent s)
                                        (Collecting (S k)))).
        { cbn [step]. now rewrite Em, Elt, Hex, Enth. }
        destruct (IH (mkState (workc s) (workers s) (sent s)
                              (Collecting (S k))) (S k) eq_refl)
          as (evs & s' & r & Hrun & Hret); [lia | exact Hsent |].
        exists (Main :: evs), s', r. cbn [run]. rewrite Hstep. auto.
    + exists [Main]. cbn [run step]. rewrite Em, Elt.
      eexists. eexists. split; reflexivity.
Qed.

(** From every state that satisfies the invariant some schedule lets the
    call return. *)
Lemma can_return (s : state) :
  inv results s ->
  exists evs s' r, run results s evs = Some s' /\ main s' = Returned r.
Proof.
  intros Hinv.
  assert (Hcollect : forall s1 k, inv results s1 -> main s1 = Collecting k ->
            exists evs s' r,
              run results s1 evs = Some s' /\ main s' = Returned r).
  { intros s1 k Hinv1 Em1.
    destruct (all_work_can_complete results s1 Hinv1)
      as (evs1 & s2 & Hrun1 & Hmain2 & Hsent).
    unfold submitted in Hsent. rewrite Em1 in Hsent. rewrite Em1 in Hmain2.
    destruct (collect_all (n - k) s2 k Hmain2 (Nat.le_refl _) Hsent)
      as (evs2 & s3 & r & Hrun2 & Hret).
    exists (evs1 ++ evs2), s3, r. rewrite PoolRuns.run_app, Hrun1. auto. }
  destruct (main s) as [k | k | r] eqn:Em.
  - destruct (submit_all (n - k) s k Hinv Em (Nat.le_refl _))
      as (evs1 & s1 & Hrun1 & Em1 & Hinv1).
    destruct (Hcollect s1 0 Hinv1 Em1) as (evs2 & s3 & r & Hrun2 & Hret).
    exists (evs1 ++ evs2), s3, r. rewrite PoolRuns.run_app, Hrun1. auto.
  - eapply Hcollect; eauto.
  - exists [], s, r. auto.
Qed.

End Ending.

End PoolEnds.

(** X23.  In the worker pool of the [static-set] case every member is
    fetched once: at any point of any schedule a member already queued is
    in exactly one place, the work channel, one goroutine, or the members
    whose result has been sent, and a member not yet queued is in none. *)
Theorem pool_fetches_each_member_once
  (results : list (option error)) (evs : list Pool.event) (s : Pool.state)
  (k : nat) :
  Pool.run results Pool.init evs = Some s ->
  occurrences s k = if k <? Pool.submitted results s then 1 else 0.
Proof.
  intros Hrun.
  exact (PoolRuns.once_run results evs _ _ (PoolFacts.inv_init results)
           (PoolRuns.once_init results) Hrun k).
Qed.

Lemma pool_fetches_each_member_once_witness :
  occurrences
    (Pool.mkState [2] (Pool.set_nth (Pool.set_nth (repeat None 10) 0 None) 1 (Some 1))
                  [0] (Pool.Collecting 0)) 1
  = 1.
Proof.
  exact (pool_fetches_each_member_once
           [None; None; None]
           [Pool.Main; Pool.Take 0; Pool.Main; Pool.Main; Pool.Take 1;
            Pool.Finish 0; Pool.Main]
           _ 1 eq_refl).
Defined.

(** X24.  The work channel, made with room for all the members, never
    holds more than that, so that the caller is never blocked while it
    queues them: at any point of any schedule the members in the channel,
    those in the goroutines and those whose result has been sent are as
    many as were queued, and those are at most all of them. *)
Theorem pool_channel_never_full
  (results : list (option error)) (evs : list Pool.event) (s : Pool.state) :
  Pool.run results Pool.init evs = Some s ->
  length (Pool.workc s) + Pool.running s + length (Pool.sent s)
  = Pool.submitted results s
  /\ length (Pool.workc s) <= length results.
Proof.
  intros Hrun.
  pose proof (PoolFacts.inv_run results evs _ _ (PoolFacts.inv_init results)
                Hrun) as Hinv.
  assert (Ht : PoolRuns.tally results s).
  { apply (PoolRuns.tally_run results evs _ _ (PoolFacts.inv_init results));
      [reflexivity | exact Hrun]. }
  split; [exact Ht |].
  pose proof (PoolRuns.submitted_le results s Hinv) as Hle.
  unfold PoolRuns.tally in Ht. lia.
Qed.

Lemma pool_channel_never_full_witness :
  let s := Pool.mkState [1; 2] (repeat None 10) [0] (Pool.Collecting 0) in
  length (Pool.workc s) + Pool.running s + length (Pool.sent s)
  = Pool.submitted [None; None; None] s
  /\ length (Pool.workc s) <= 3.
Proof.
  exact (pool_channel_never_full
           [None; None; None]
           [Pool.Main; Pool.Take 3; Pool.Main; Pool.Main; Pool.Finish 3;
            Pool.Main]
           _ eq_refl).
Defined.

(** X25.  The pool cannot get stuck: from any point of any schedule the
    goroutines and the caller can go on until the call returns, and what
    it returns then is the error of the first member, in the order of the
    set, whose fetch failed, nil when none did. *)
Theorem pool_can_always_return
  (results : list (option error)) (evs : list Pool.event) (s : Pool.state) :
  Pool.run results Pool.init evs = Some s ->
  exists evs' s',
    Pool.run results s evs' = Some s'
    /\ Pool.main s' = Pool.Returned (firstErr results).
Proof.
  intros Hrun.
  pose proof (PoolFacts.inv_run results evs _ _ (PoolFacts.inv_init results)
                Hrun) as Hinv.
  destruct (PoolEnds.can_return results s Hinv)
    as (evs' & s' & r & Hrun' & Hret).
  exists evs', s'. split; [exact Hrun' |].
  pose proof (PoolFacts.inv_run results evs' _ _ Hinv Hrun') as Hinv'.
  now rewrite (PoolFacts.returned_firstErr results s' r Hinv' Hret) in Hret.
Qed.

Lemma pool_can_always_return_witness :
  exists evs' s',
    Pool.run [None; Some (Errorf "read failed" [])]
             (Pool.mkState [1] (Pool.set_nth (repeat None 10) 0 (Some 0)) []
                           (Pool.Submitting 2)) evs'
    = Some s'
    /\ Pool.main s' = Pool.Returned (Some (Errorf "read failed" [])).
Proof.
  exact (pool_can_always_return
           [None; Some (Errorf "read failed" [])]
           [Pool.Main; Pool.Main; Pool.Take 0]
           _ eq_refl).
Defined.

(** ** Starting a download *)

Section StartFacts.

Variable InsecureTLS : bool.
Variable schema_NewFileReader : Ref -> readCloser + error.
Variable src_Fetch : Ref -> readCloser + error.
Variable camget_StdoutPipe : list string -> readCloser + error.
Variable camget_Run : list string -> option error.
Variable camget_Stderr : list string -> string.
Variable down : Downloader.
Variable contents : bool.

Local Abbreviation loop :=
  (Start_loop InsecureTLS schema_NewFileReader src_Fetch camget_StdoutPipe
              camget_Run camget_Stderr down contents).
Local Abbreviation open1 :=
  (opened InsecureTLS schema_NewFileReader src_Fetch camget_StdoutPipe
          camget_Run down contents).
Local Abbreviation viaCamget :=
  (needsCamget schema_NewFileReader src_Fetch contents).
Local Abbreviation argsOf := (camgetArgs InsecureTLS down contents).

Lemma Start_loop_spec (items : list Ref) :
  forall readers ran,
    match loop items readers ran with
    | (Started rs, ran') =>
        exists news,
          rs = readers ++ news
          /\ map open1 items = map Some news
          /\ ran' = ran ++ map argsOf (filter viaCamget items)
    | (StartFails err dropped, ran') =>
        exists l1 br l2 news,
          items = l1 ++ br :: l2
          /\ dropped = readers ++ news
          /\ map open1 l1 = map Some news
          /\ open1 br = None
    end.
Proof.
  induction items as [| br items IH]; intros readers ran.
  - cbn. exists []. now rewrite !app_nil_r.
  - cbn [Start_loop filter map].
    destruct (if contents then schema_NewFileReader br
              else fetch src_Fetch br) as [rc | e] eqn:Ed.
    + assert (Hbr : open1 br = Some rc) by (unfold opened; now rewrite Ed).
      assert (Hv : viaCamget br = false)
        by (unfold needsCamget; now rewrite Ed).
      rewrite Hv. specialize (IH (readers ++ [rc]) ran).
      destruct (loop items (readers ++ [rc]) ran) as [[rs | err dropped] ran'].
      * destruct IH as (news & -> & Hmap & ->).
        exists (rc :: news). rewrite <- app_assoc. cbn [map app].
        now rewrite Hbr, Hmap.
      * destruct IH as (l1 & b & l2 & news & -> & -> & Hmap & Hb).
        exists (br :: l1), b, l2, (rc :: news). rewrite <- app_assoc.
        cbn [map app]. now rewrite Hbr, Hmap.
    + assert (Hv : viaCamget br = true)
        by (unfold needsCamget; now rewrite Ed).
      rewrite Hv.
      destruct (camget_StdoutPipe (argsOf br)) as [rc | e1] eqn:Ep.
      * destruct (camget_Run (argsOf br)) as [e2 |] eqn:Er.
        -- exists [], br, items, []. rewrite app_nil_r.
           unfold opened. now rewrite Ed, Ep, Er.
        -- assert (Hbr : open1 br = Some rc)
             by (unfold opened; now rewrite Ed, Ep, Er).
           specialize (IH (readers ++ [rc]) (ran ++ [argsOf br])).
           destruct (loop items (readers ++ [rc]) (ran ++ [argsOf br]))
             as [[rs | err dropped] ran'].
           ++ destruct IH as (news & -> & Hmap & ->).
              exists (rc :: news). rewrite <- !app_assoc. cbn [map app].
              now rewrite Hbr, Hmap.
           ++ destruct IH as (l1 & b & l2 & news & -> & -> & Hmap & Hb).
              exists (br :: l1), b, l2, (rc :: news). rewrite <- app_assoc.
              cbn [map app]. now rewrite Hbr, Hmap.
      * exists [], br, items, []. rewrite app_nil_r.
        unfold opened. now rewrite Ed, Ep.
Qed.

End StartFacts.

(** X26.  [Start] opens one reader per item, in the order of the items:
    the one of [schema.NewFileReader] (contents) or of [fetch] (schema
    blob), or, only where that fails, the output of a [camget] command that
    is given the reference as its last argument and that ran without
    error.  It fails at the first item that can be read in neither way,
    the readers of the items before it having been opened by then. *)
Theorem Start_opens_each_item_or_fails
  (InsecureTLS : bool)
  (schema_NewFileReader src_Fetch : Ref -> readCloser + error)
  (camget_StdoutPipe : list string -> readCloser + error)
  (camget_Run : list string -> option error)
  (camget_Stderr : list string -> string)
  (down : Downloader) (contents : bool) (items : list Ref) :
  let open1 := opened InsecureTLS schema_NewFileReader src_Fetch
                      camget_StdoutPipe camget_Run down contents in
  match Downloader_Start InsecureTLS schema_NewFileReader src_Fetch
          camget_StdoutPipe camget_Run camget_Stderr down contents items with
  | (Started readers, ran) =>
      map open1 items = map Some readers
      /\ ran = map (camgetArgs InsecureTLS down contents)
                   (filter (needsCamget schema_NewFileReader src_Fetch
                                        contents) items)
      /\ Forall (fun args => exists br,
                   In br items /\ last args "" = Ref_String br) ran
  | (StartFails err dropped, ran) =>
      exists l1 br l2,
        items = l1 ++ br :: l2
        /\ map open1 l1 = map Some dropped
        /\ open1 br = None
  end.
Proof.
  intros open1. unfold Downloader_Start.
  pose proof (Start_loop_spec InsecureTLS schema_NewFileReader src_Fetch
                camget_StdoutPipe camget_Run camget_Stderr down contents
                items [] []) as H.
  destruct (Start_loop _ _ _ _ _ _ _ _ _ _ _) as [[rs | err dropped] ran].
  - destruct H as (news & -> & Hmap & ->). cbn [app].
    split; [exact Hmap |]. split; [reflexivity |].
    apply Forall_forall. intros args Hin.
    apply in_map_iff in Hin. destruct Hin as (br & <- & Hin).
    apply filter_In in Hin. exists br. split; [tauto |].
    unfold camgetArgs. apply last_last.
  - destruct H as (l1 & br & l2 & news & -> & -> & Hmap & Hb).
    exists l1, br, l2. auto.
Qed.

(** ** The [GET] case of the handler *)

Lemma bodyBytes_app (l1 l2 : list wCall) :
  bodyBytes (l1 ++ l2) = bodyBytes l1 ++ bodyBytes l2.
Proof.
  induction l1 as [| c l1 IH]; [reflexivity |].
  destruct c as [[k v | code | p] | msg code]; cbn [app bodyBytes]; auto.
  now rewrite IH, app_assoc.
Qed.

Lemma bodyBytes_ByWriter (calls : list rwCall) :
  bodyBytes (map ByWriter calls) = delivered calls.
Proof.
  induction calls as [| c calls IH]; [reflexivity |].
  destruct c as [k v | code | p]; cbn [map bodyBytes delivered]; auto.
  now rewrite IH.
Qed.

Lemma no_page_ByWriter (calls : list rwCall) :
  existsb isErrorPage (map ByWriter calls) = false.
Proof. induction calls as [| c calls IH]; cbn; auto. Qed.

Lemma concat_nonEmpty (chunks : list bytes) :
  concat (filter nonEmpty chunks) = concat chunks.
Proof.
  induction chunks as [| p chunks IH]; [reflexivity |].
  cbn [filter concat]. unfold nonEmpty at 1.
  destruct p as [| c p]; cbn [length Nat.ltb Nat.leb concat app].
  - exact IH.
  - now rewrite IH.
Qed.

Lemma Close_appends
  (w_Write : list rwCall -> bytes -> Z * option error) (w : respWriter) :
  w_calls (fst (respWriter_Close w_Write w))
  = w_calls w ++ (if 0 <? length (w_buf w) then [BodyWrite (w_buf w)] else []).
Proof.
  unfold respWriter_Close, underlyingWrite.
  destruct (0 <? length (w_buf w)); cbn; [reflexivity | now rewrite app_nil_r].
Qed.

Lemma skipn_length_app {A : Type} (l1 l2 : list A) :
  skipn (length l1) (l1 ++ l2) = l2.
Proof. induction l1 as [| x l1 IH]; cbn; auto. Qed.

Section CopyFacts.

Variable MatchMime : string -> bytes -> string.
Variable w_Write : list rwCall -> bytes -> Z * option error.

Lemma Write_whole (w : respWriter) (cache : MimeCache) (p : bytes) :
  wholeWriter w_Write ->
  snd (respWriter_Write MatchMime w_Write w cache p)
  = (Z.of_nat (length p), None).
Proof.
  intros Hwhole.
  unfold respWriter_Write, writeThrough, underlyingWrite.
  destruct (w_headerWritten w); cbn [negb].
  - cbn [snd]. rewrite Hwhole. cbn [fst snd]. f_equal. lia.
  - destruct (mimeUnknown (w_okMime w)).
    + destruct (length (w_buf w ++ p) <? 1024); cbn [snd]; [reflexivity |].
      rewrite Hwhole. cbn [fst snd]. f_equal. rewrite length_app. lia.
    + cbn [snd]. rewrite Hwhole. cbn [fst snd]. f_equal. lia.
Qed.

(** The copy writes the non-empty pieces one by one up to the first
    write that fails or falls short, and to the end if there is no such
    write; its error is then the reader's. *)
Lemma io_Copy_prefix (chunks : list bytes) (readErr : option error) :
  forall rw cache,
  exists done rest err,
    filter nonEmpty chunks = done ++ rest
    /\ io_Copy MatchMime w_Write rw cache chunks readErr
       = (writeAll MatchMime w_Write rw cache done, err)
    /\ (err = None -> rest = [] /\ readErr = None)
    /\ (wholeWriter w_Write -> rest = [] /\ err = readErr).
Proof.
  induction chunks as [| p chunks IH]; intros rw cache.
  - exists [], [], readErr. cbn. auto.
  - cbn [io_Copy filter]. unfold nonEmpty at 1.
    destruct (0 <? length p); [| apply IH].
    pose proof (Write_whole rw cache p) as Hw.
    destruct (respWriter_Write MatchMime w_Write rw cache p)
      as [[rw1 cache1] [nw ew]] eqn:Ew.
    cbn [snd] in Hw.
    destruct ew as [e |].
    + exists [p], (filter nonEmpty chunks), (Some e).
      cbn [app writeAll]. rewrite Ew.
      split; [reflexivity |]. split; [reflexivity |].
      split; [discriminate |]. intros Hwhole. now specialize (Hw Hwhole).
    + destruct (Z.eqb_spec nw (Z.of_nat (length p))) as [Hn | Hn].
      * destruct (IH rw1 cache1) as (done & rest & err & Hf & Hc & Hnone & Hall).
        exists (p :: done), rest, err. cbn [app writeAll]. rewrite Ew, Hf.
        auto.
      * exists [p], (filter nonEmpty chunks), (Some io_ErrShortWrite).
        cbn [app writeAll]. rewrite Ew.
        split; [reflexivity |]. split; [reflexivity |].
        split; [discriminate |]. intros Hwhole. specialize (Hw Hwhole).
        injection Hw as Hn'. contradiction.
Qed.


(** While the writer only buffers, the copy cannot fail on its
    account. *)
Lemma io_Copy_buffering (chunks : list bytes) (readErr : option error) :
  forall rw cache,
    w_headerWritten rw = false ->
    mimeUnknown (w_okMime rw) = true ->
    length (w_buf rw ++ concat chunks) < 1024 ->
    io_Copy MatchMime w_Write rw cache chunks readErr
    = (mkRespWriter (w_calls rw) (w_name rw) (w_okMime rw) false
                    (w_buf rw ++ concat chunks), cache, readErr).
Proof.
  induction chunks as [| p chunks IH]; intros rw cache Hhw Hu Hlen.
  - cbn. rewrite app_nil_r. destruct rw; cbn in *. now subst.
  - cbn [io_Copy concat] in *. rewrite app_assoc in Hlen.
    destruct p as [| c p].
    + cbn [length Nat.ltb Nat.leb app]. rewrite app_nil_r in Hlen.
      now apply IH.
    + cbn [length Nat.ltb Nat.leb]. unfold respWriter_Write.
      rewrite Hhw, Hu. cbn [negb].
      assert (Hp : (length (w_buf rw ++ c :: p) <? 1024) = true).
      { apply Nat.ltb_lt. rewrite length_app in Hlen. lia. }
      rewrite Hp, Z.eqb_refl.
      rewrite IH by (cbn; auto).
      cbn [w_calls w_name w_okMime w_buf]. now rewrite <- app_assoc.
Qed.

End CopyFacts.

Section DeliverFacts.

Variable MatchMime : string -> bytes -> string.
Variable w_Write : list rwCall -> bytes -> Z * option error.
Variable magic_MIMETypeFromReader
  : list bytes * option error -> string * (list bytes * option error).

(** The sniffer hands on what it has read: the same bytes, ending in the
    same way. *)
Definition magicKeepsStream : Prop :=
  forall rc,
    concat (fst (snd (magic_MIMETypeFromReader rc))) = concat (fst rc)
    /\ snd (snd (magic_MIMETypeFromReader rc)) = snd rc.

Lemma multiCloser_closed (readers : list readCloser) :
  snd (multiCloser_Close (map rc_close readers)) = length readers.
Proof.
  unfold multiCloser_Close. rewrite multiCloser_loop_spec. cbn [snd].
  now rewrite length_map.
Qed.

(** The calls of a writer that has received [sofar], an error page or
    none, and the flush of [Close] carry [sofar] as their body. *)
Lemma log_bytes (rw : respWriter) (sofar : bytes) (page : list wCall) :
  streaming rw sofar ->
  bodyBytes page = [] ->
  bodyBytes (map ByWriter (w_calls rw) ++ page
               ++ map ByWriter
                    (skipn (length (w_calls rw))
                           (w_calls (fst (respWriter_Close w_Write rw)))))
  = sofar.
Proof.
  intros Hs Hpage.
  rewrite !bodyBytes_app, !bodyBytes_ByWriter, Hpage. cbn [app].
  rewrite <- delivered_app.
  rewrite Close_appends at 1. rewrite skipn_length_app.
  rewrite <- (Close_appends w_Write).
  destruct (Close_streaming w_Write rw _ Hs) as (hdr & ps & -> & <- & Hh & _).
  rewrite delivered_app, delivered_bodies.
  destruct (w_headerWritten rw).
  - now destruct (headerPrefix_counts hdr Hh) as [-> _].
  - now subst hdr.
Qed.

Lemma deliver_all (cache : MimeCache) (nm okMime : string)
      (readers : list readCloser) :
  magicKeepsStream ->
  let res := deliver MatchMime w_Write magic_MIMETypeFromReader cache nm
                     okMime readers in
  g_closed res = length readers
  /\ (existsb isErrorPage (g_log res) = false ->
      bodyBytes (g_log res) = concat (fst (io_MultiReader readers))
      /\ snd (io_MultiReader readers) = None)
  /\ (wholeWriter w_Write ->
      bodyBytes (g_log res) = concat (fst (io_MultiReader readers))
      /\ existsb isErrorPage (g_log res)
         = match snd (io_MultiReader readers) with
           | Some _ => true
           | None => false
           end).
Proof.
  intros Hmagic res. subst res. unfold deliver.
  assert (Hrc : exists okMime' rc',
             (if String.eqb okMime ""
              then magic_MIMETypeFromReader (io_MultiReader readers)
              else (okMime, io_MultiReader readers)) = (okMime', rc')
             /\ concat (fst rc') = concat (fst (io_MultiReader readers))
             /\ snd rc' = snd (io_MultiReader readers)).
  { destruct (String.eqb okMime "").
    - destruct (Hmagic (io_MultiReader readers)) as [H1 H2].
      destruct (magic_MIMETypeFromReader (io_MultiReader readers))
        as [m rc']. exists m, rc'. auto.
    - eauto. }
  destruct Hrc as (okMime' & rc' & -> & Hbytes & Herr).
  destruct (io_Copy_prefix MatchMime w_Write (fst rc') (snd rc')
              (newRespWriter cache [] nm okMime') cache)
    as (done & rest & err & Hsplit & -> & Hnone & Hwhole).
  pose proof (writeAll_streaming MatchMime w_Write done
                (newRespWriter cache [] nm okMime') cache []
                (newRespWriter_streaming cache nm okMime')) as Hs.
  destruct (writeAll MatchMime w_Write (newRespWriter cache [] nm okMime')
                     cache done) as [rw cache'].
  cbn [fst app] in Hs. cbn [g_log g_closed].
  assert (Hpage : forall err : option error,
             bodyBytes (match err with
                        | Some _ => [ErrorPage "error downloading %q: %s" 500]
                        | None => []
                        end) = []) by (intros [e |]; reflexivity).
  assert (Hex : existsb isErrorPage
                  (map ByWriter (w_calls rw)
                     ++ match err with
                        | Some _ => [ErrorPage "error downloading %q: %s" 500]
                        | None => []
                        end
                     ++ map ByWriter
                          (skipn (length (w_calls rw))
                                 (w_calls (fst (respWriter_Close w_Write rw)))))
                = match err with Some _ => true | None => false end).
  { rewrite !existsb_app, !no_page_ByWriter. now destruct err. }
  assert (Hdone : rest = [] -> concat done
                               = concat (fst (io_MultiReader readers))).
  { intros ->. rewrite app_nil_r in Hsplit.
    now rewrite <- Hsplit, concat_nonEmpty. }
  rewrite Hex, (log_bytes rw (concat done)) by auto.
  split; [apply multiCloser_closed |]. split.
  - intros Hno. destruct err as [e |]; [discriminate |].
    destruct (Hnone eq_refl) as [Hrest Hread].
    split; [now apply Hdone |]. now rewrite <- Herr.
  - intros Hw. destruct (Hwhole Hw) as [Hrest ->].
    split; [now apply Hdone |]. now rewrite Herr.
Qed.

End DeliverFacts.

Lemma ParseBlobNames_single
  (hashSize : string -> option nat) (sliceCap : nat -> nat)
  (name : string) (items : list Ref) :
  ParseBlobNames hashSize sliceCap [] [name] = Val items ->
  exists br, items = [br].
Proof.
  cbn [ParseBlobNames].
  destruct (blob_Parse hashSize name) as [d |].
  - intros H. apply Val_inj in H. subst items. now exists (Some d).
  - destruct (Base64ToRef hashSize sliceCap name) as [br | e |];
      try discriminate.
    intros H. apply Val_inj in H. subst items. now exists br.
Qed.

Section GetFacts.

Variable hashSize : string -> option nat.
Variable sliceCap : nat -> nat.
Variable MatchMime : string -> bytes -> string.
Variable w_Write : list rwCall -> bytes -> Z * option error.
Variable magic_MIMETypeFromReader
  : list bytes * option error -> string * (list bytes * option error).
Variable getDownloader : Downloader + error.
Variable InsecureTLS : bool.
Variable schema_NewFileReader : Ref -> readCloser + error.
Variable src_Fetch : Ref -> readCloser + error.
Variable camget_StdoutPipe : list string -> readCloser + error.
Variable camget_Run : list string -> option error.
Variable camget_Stderr : list string -> string.

Local Abbreviation get :=
  (handleGet hashSize sliceCap MatchMime w_Write magic_MIMETypeFromReader
             getDownloader InsecureTLS schema_NewFileReader src_Fetch
             camget_StdoutPipe camget_Run camget_Stderr).
Local Abbreviation start :=
  (Downloader_Start InsecureTLS schema_NewFileReader src_Fetch
                    camget_StdoutPipe camget_Run camget_Stderr).

(** The handler up to the delivery, for a path whose reference parses. *)
Lemma get_reaches_deliver (cache : MimeCache) (c : ascii) (name : string)
      (r : Request) (items : list Ref) (d : Downloader)
      (readers : list readCloser) :
  ParseBlobNames hashSize sliceCap [] [name] = Val items ->
  getDownloader = inl d ->
  fst (start d (negb (String.eqb (r_Query r "raw") "1")) items)
  = Started readers ->
  get cache (String c name) r
  = Some (deliver MatchMime w_Write magic_MIMETypeFromReader cache
                  (snd (chooseMime cache r items))
                  (fst (chooseMime cache r items)) readers).
Proof.
  intros Hparse Hd Hstart. unfold handleGet. rewrite Hparse.
  destruct (ParseBlobNames_single _ _ _ _ Hparse) as [br ->].
  cbn [length Nat.eqb].
  destruct (chooseMime cache r [br]) as [okMime nm].
  now rewrite Hd, Hstart.
Qed.

Lemma deliver_no_400 (cache : MimeCache) (nm okMime msg : string)
      (readers : list readCloser) :
  ~ In (ErrorPage msg 400)
       (g_log (deliver MatchMime w_Write magic_MIMETypeFromReader cache nm
                       okMime readers)).
Proof.
  unfold deliver.
  destruct (if String.eqb okMime "" then _ else _) as [okMime' rc'].
  destruct (io_Copy _ _ _ _ _ _) as [[rw cache'] err]. cbn [g_log].
  intros Hin. apply in_app_or in Hin. destruct Hin as [Hin | Hin].
  - apply in_map_iff in Hin. destruct Hin as (x & Hx & _). discriminate.
  - apply in_app_or in Hin. destruct Hin as [Hin | Hin].
    + destruct err; [| destruct Hin].
      destruct Hin as [Hin | []]. discriminate.
    + apply in_map_iff in Hin. destruct Hin as (x & Hx & _). discriminate.
Qed.

End GetFacts.

(** X27.  The [GET] case answers 400 exactly when the path, without its
    first byte, is not a blob reference, with the parser's message and
    before any downloader is asked for; a path that parses gives one
    reference, so that the answer "a blobref is needed!" is never given,
    and from there on no answer is a 400.  The handler panics when the
    parser does. *)
Theorem get_400_only_for_unparsable_reference
  (hashSize : string -> option nat) (sliceCap : nat -> nat)
  (MatchMime : string -> bytes -> string)
  (w_Write : list rwCall -> bytes -> Z * option error)
  (magic_MIMETypeFromReader
     : list bytes * option error -> string * (list bytes * option error))
  (getDownloader : Downloader + error) (InsecureTLS : bool)
  (schema_NewFileReader src_Fetch : Ref -> readCloser + error)
  (camget_StdoutPipe : list string -> readCloser + error)
  (camget_Run : list string -> option error)
  (camget_Stderr : list string -> string)
  (cache : MimeCache) (c : ascii) (name : string) (r : Request) :
  let answer :=
    handleGet hashSize sliceCap MatchMime w_Write magic_MIMETypeFromReader
              getDownloader InsecureTLS schema_NewFileReader src_Fetch
              camget_StdoutPipe camget_Run camget_Stderr cache
              (String c name) r in
  match ParseBlobNames hashSize sliceCap [] [name] with
  | Fail e =>
      answer = Some (mkGetResult [ErrorPage (errText e) 400] cache 0)
  | Val items =>
      (exists br, items = [br])
      /\ exists res,
           answer = Some res
           /\ forall msg, ~ In (ErrorPage msg 400) (g_log res)
  | Panic => answer = None
  end.
Proof.
  intros answer. subst answer. unfold handleGet.
  destruct (ParseBlobNames hashSize sliceCap [] [name])
    as [items | e |] eqn:Hparse; try reflexivity.
  destruct (ParseBlobNames_single _ _ _ _ Hparse) as [br ->].
  split; [now exists br |]. cbn [length Nat.eqb].
  destruct (chooseMime cache r [br]) as [okMime nm].
  destruct getDownloader as [d | e].
  - destruct (fst (Downloader_Start _ _ _ _ _ _ _ _ _))
      as [readers | e dropped].
    + eexists. split; [reflexivity |]. intros msg. apply deliver_no_400.
    + eexists. split; [reflexivity |]. intros msg [H | []]. discriminate.
  - eexists. split; [reflexivity |]. intros msg [H | []]. discriminate.
Qed.



(** X29.  Once the reference has parsed, the downloader is there and
    [Start] has opened the readers, every reader opened is closed,
    whatever happens.  When no error page is sent, no read has failed
    and the body handed to the wrapped writer is what the readers gave,
    one after the other, whatever type is announced and however the bytes
    come in pieces.  When the wrapped writer takes all it is handed, the
    body is what the readers gave up to the end or to the first read
    error, and an error page is sent exactly when a read failed.  The
    sniffer is assumed to hand on the bytes it read. *)
Theorem get_delivers_what_was_read
  (hashSize : string -> option nat) (sliceCap : nat -> nat)
  (MatchMime : string -> bytes -> string)
  (w_Write : list rwCall -> bytes -> Z * option error)
  (magic_MIMETypeFromReader
     : list bytes * option error -> string * (list bytes * option error))
  (getDownloader : Downloader + error) (InsecureTLS : bool)
  (schema_NewFileReader src_Fetch : Ref -> readCloser + error)
  (camget_StdoutPipe : list string -> readCloser + error)
  (camget_Run : list string -> option error)
  (camget_Stderr : list string -> string)
  (cache : MimeCache) (c : ascii) (name : string) (r : Request)
  (items : list Ref) (d : Downloader) (readers : list readCloser) :
  magicKeepsStream magic_MIMETypeFromReader ->
  ParseBlobNames hashSize sliceCap [] [name] = Val items ->
  getDownloader = inl d ->
  fst (Downloader_Start InsecureTLS schema_NewFileReader src_Fetch
         camget_StdoutPipe camget_Run camget_Stderr d
         (negb (String.eqb (r_Query r "raw") "1")) items)
  = Started readers ->
  exists res,
    handleGet hashSize sliceCap MatchMime w_Write magic_MIMETypeFromReader
              getDownloader InsecureTLS schema_NewFileReader src_Fetch
              camget_StdoutPipe camget_Run camget_Stderr cache
              (String c name) r
    = Some res
    /\ g_closed res = length readers
    /\ (existsb isErrorPage (g_log res) = false ->
        bodyBytes (g_log res) = concat (fst (io_MultiReader readers))
        /\ snd (io_MultiReader readers) = None)
    /\ (wholeWriter w_Write ->
        bodyBytes (g_log res) = concat (fst (io_MultiReader readers))
        /\ existsb isErrorPage (g_log res)
           = match snd (io_MultiReader readers) with
             | Some _ => true
             | None => false
             end).
Proof.
  intros Hmagic Hparse Hd Hstart.
  rewrite (get_reaches_deliver hashSize sliceCap MatchMime w_Write
             magic_MIMETypeFromReader getDownloader InsecureTLS
             schema_NewFileReader src_Fetch camget_StdoutPipe camget_Run
             camget_Stderr cache c name r items d readers Hparse Hd Hstart).
  eexists. split; [reflexivity |].
  now apply deliver_all.
Qed.

Lemma get_delivers_what_was_read_witness :
  exists res,
    handleGet sha1Table (fun n => n) noMatch wholeWrite noSniff
              (inl sampleDownloader) false brokenOpen sampleOpen noCamget
              noRun noStderr emptyCache samplePath
              (mkRequest (fun _ => "") noQuery [] None
                         (mkReader [] io_EOF, None))
    = Some res
    /\ g_closed res = 1
    /\ bodyBytes (g_log res) = list_ascii_of_string "hel"
    /\ existsb isErrorPage (g_log res) = true.
Proof.
  destruct (get_delivers_what_was_read sha1Table (fun n => n) noMatch
              wholeWrite noSniff (inl sampleDownloader) false brokenOpen
              sampleOpen noCamget noRun noStderr emptyCache "/"%char
              "sha1-0123456789abcdef0123456789abcdef01234567"
              (mkRequest (fun _ => "") noQuery [] None
                         (mkReader [] io_EOF, None))
              [sampleRef] sampleDownloader
              [mkReadCloser [list_ascii_of_string "hel"]
                            (Some (EnvError "connection reset")) None]
              (fun rc => conj eq_refl eq_refl) eq_refl eq_refl eq_refl)
    as (res & Hget & Hclosed & _ & Hwhole).
  destruct (Hwhole (fun calls p => eq_refl)) as [Hbody Hpage].
  exists res. auto.
Defined.

(** X30.  A download of fewer than 1024 bytes whose type is known neither
    from the request, nor from the cache, nor to the sniffer is sent
    without any header call: the bytes go out in one write when the
    response writer is closed.  When a read has failed, that write comes
    after the error page, so that the client gets the page with the
    partial data appended to it. *)
Theorem short_unknown_download_is_flushed_last
  (hashSize : string -> option nat) (sliceCap : nat -> nat)
  (MatchMime : string -> bytes -> string)
  (w_Write : list rwCall -> bytes -> Z * option error)
  (magic_MIMETypeFromReader
     : list bytes * option error -> string * (list bytes * option error))
  (getDownloader : Downloader + error) (InsecureTLS : bool)
  (schema_NewFileReader src_Fetch : Ref -> readCloser + error)
  (camget_StdoutPipe : list string -> readCloser + error)
  (camget_Run : list string -> option error)
  (camget_Stderr : list string -> string)
  (cache : MimeCache) (c : ascii) (name : string) (r : Request)
  (br : Ref) (d : Downloader) (readers : list readCloser)
  (m : string) (chunks : list bytes) (err : option error) :
  String.eqb (r_Query r "raw") "1" = false ->
  r_Query r "mimeType" = "" ->
  ParseBlobNames hashSize sliceCap [] [name] = Val [br] ->
  MimeCache_Get cache (RefToBase64 br) = "" ->
  getDownloader = inl d ->
  fst (Downloader_Start InsecureTLS schema_NewFileReader src_Fetch
         camget_StdoutPipe camget_Run camget_Stderr d true [br])
  = Started readers ->
  magic_MIMETypeFromReader (io_MultiReader readers) = (m, (chunks, err)) ->
  mimeUnknown m = true ->
  0 < length (concat chunks) < 1024 ->
  handleGet hashSize sliceCap MatchMime w_Write magic_MIMETypeFromReader
            getDownloader InsecureTLS schema_NewFileReader src_Fetch
            camget_StdoutPipe camget_Run camget_Stderr cache
            (String c name) r
  = Some (mkGetResult
            (match err with
             | Some _ => [ErrorPage "error downloading %q: %s" 500]
             | None => []
             end ++ [ByWriter (BodyWrite (concat chunks))])
            cache (length readers)).
Proof.
  intros Hraw Hmt Hparse Hcache Hd Hstart Hmagic Hm Hlen.
  rewrite (get_reaches_deliver hashSize sliceCap MatchMime w_Write
             magic_MIMETypeFromReader getDownloader InsecureTLS
             schema_NewFileReader src_Fetch camget_StdoutPipe camget_Run
             camget_Stderr cache c name r [br] d readers Hparse Hd)
    by (rewrite Hraw; exact Hstart).
  unfold chooseMime. rewrite Hraw, Hmt.
  cbn [negb String.eqb andb length Nat.eqb hd fst snd]. rewrite Hcache.
  unfold deliver. cbn [String.eqb]. rewrite Hmagic. cbn [fst snd].
  assert (Hw : newRespWriter cache [] (RefToBase64 br) m
               = mkRespWriter [] (RefToBase64 br) m false []).
  { unfold newRespWriter. rewrite Hm, andb_true_r.
    destruct (negb (String.eqb (RefToBase64 br) "")); [| reflexivity].
    unfold MimeCache_Get in *. now rewrite Hcache. }
  rewrite Hw. rewrite io_Copy_buffering by (cbn; auto; lia).
  cbn [w_calls w_name w_okMime w_buf app map length skipn].
  unfold respWriter_Close, underlyingWrite. cbn [w_buf].
  assert (Hpos : (0 <? length (concat chunks)) = true)
    by (apply Nat.ltb_lt; lia).
  rewrite Hpos. cbn. now rewrite multiCloser_closed.
Qed.

Lemma short_unknown_download_is_flushed_last_witness :
  handleGet sha1Table (fun n => n) noMatch brokenWrite noSniff
            (inl sampleDownloader) false brokenOpen sampleOpen noCamget
            noRun noStderr emptyCache samplePath
            (mkRequest (fun _ => "") noQuery [] None
                       (mkReader [] io_EOF, None))
  = Some (mkGetResult
            [ErrorPage "error downloading %q: %s" 500;
             ByWriter (BodyWrite (list_ascii_of_string "hel"))]
            emptyCache 1).
Proof.
  apply (short_unknown_download_is_flushed_last sha1Table (fun n => n)
           noMatch brokenWrite noSniff (inl sampleDownloader) false
           brokenOpen sampleOpen noCamget noRun noStderr emptyCache
           "/"%char "sha1-0123456789abcdef0123456789abcdef01234567"
           (mkRequest (fun _ => "") noQuery [] None
                      (mkReader [] io_EOF, None))
           sampleRef sampleDownloader
           [mkReadCloser [list_ascii_of_string "hel"]
                         (Some (EnvError "connection reset")) None]
           "" [list_ascii_of_string "hel"]
           (Some (EnvError "connection reset"))).
  - reflexivity.
  - reflexivity.
  - vm_compute. reflexivity.
  - reflexivity.
  - reflexivity.
  - reflexivity.
  - reflexivity.
  - reflexivity.
  - cbn. lia.
Defined.
